(** * LyCORIS extraction and merge utilities (scripts/kohya/lycoris_utils.py)

    A shallow embedding of the extraction pipeline ([extract_linear],
    [extract_conv], [extract_diff]) and of the merge pipeline ([get_module],
    [rebuild_weight], [merge]), followed by the properties established about
    them.

    Conventions of the embedding.
    - Tensor elements are exact rationals ([Qc]); the rounding of the
      floating-point types is not represented, only the [dtype] tag is.
      Arithmetic is therefore exact, and so are the thresholds that the rank
      selection compares with; a cast keeps every element, which the tensor
      runtime does for the elements that the target type holds exactly
      ([representable]).
    - A number of the source (a Python int or float, or a one-element
      tensor) is a rational. A rational with an integral value stands for
      the integer; a float with an integral value, which the source cannot
      use as a slice bound, is not represented.
    - A tensor carries its logical contents in row-major order together with
      its [dtype], [device] and a [storage] tag saying whether its buffer may
      be the buffer of a model parameter.
    - Python exceptions are the [Raise] results of the [result] monad.
    - The singular value decomposition is delegated by the source to the
      tensor runtime ([torch.linalg.svd]); here it is a section variable. *)

From Stdlib Require Import QArith Qcanon Qround Ascii String.
From stdpp Require Import gmap strings list numbers sorting.

Open Scope string_scope.
Open Scope list_scope.
Open Scope Qc_scope.

(** ** Exceptions *)

Inductive error :=
  | NotImplementedError
  | AssertionError
  | AttributeError
  | RuntimeError
  | TypeError
  | ValueError
  | IndexError
  | KeyError
  | NameError
  | StopIteration.

Inductive result (A : Type) :=
  | Ok (a : A)
  | Raise (e : error).
Arguments Ok {A} a.
Arguments Raise {A} e.

Definition bind {A B} (r : result A) (f : A → result B) : result B :=
  match r with
  | Ok a => f a
  | Raise e => Raise e
  end.

#[global] Instance result_fmap : FMap result := fun _ _ f r =>
  match r with
  | Ok a => Ok (f a)
  | Raise e => Raise e
  end.

Notation "x <- e ;; k" := (bind e (fun x => k))
  (at level 100, e at next level, right associativity, only parsing).

Definition py_assert (b : bool) : result unit :=
  if b then Ok tt else Raise AssertionError.

Definition is_ok {A} (r : result A) : bool :=
  match r with Ok _ => true | Raise _ => false end.

(** ** Numbers *)

Definition qz (z : Z) : Qc := Qc_of_Z z.
Definition qn (n : nat) : Qc := qz (Z.of_nat n).
Definition qfrac (a : Z) (b : positive) : Qc := Q2Qc (a # b).

Definition qlt (a b : Qc) : bool := bool_decide (a < b).
Definition qle (a b : Qc) : bool := bool_decide (a <= b).

(** Python's [max(a, b)] and [min(a, b, c)] on numbers. *)
Definition py_max (a b : Qc) : Qc := if qlt a b then b else a.
Definition py_min (a b : Qc) : Qc := if qlt b a then b else a.
Definition py_min3 (a b c : Qc) : Qc := py_min (py_min a b) c.

Definition qabs (a : Qc) : Qc := if qlt a 0 then - a else a.

(** A number used as a slice bound must be an integer: [U[:, :lora_rank]]
    raises [TypeError] for a float. *)
Definition as_index (q : Qc) : result nat :=
  if bool_decide (Qden (this q) = 1%positive)
  then Ok (Z.to_nat (Qnum (this q)))
  else Raise TypeError.

(** ** Tensors *)

Inductive dtype := Float16 | Float32 | Int16 | Int64.
Inductive device := Cpu | Cuda.

(** [ParamStorage] marks a buffer that may be the buffer of a parameter of a
    model; [FreshStorage] marks a buffer allocated by an operation of the
    runtime, which no parameter uses. *)
Inductive storage := ParamStorage | FreshStorage.

#[global] Instance dtype_eq_dec : EqDecision dtype.
Proof. solve_decision. Defined.
#[global] Instance device_eq_dec : EqDecision device.
Proof. solve_decision. Defined.
#[global] Instance storage_eq_dec : EqDecision storage.
Proof. solve_decision. Defined.

Record Tensor := mkTensor {
  t_storage : storage;
  t_dtype : dtype;
  t_device : device;
  t_shape : list nat;
  t_data : list Qc;
}.

#[global] Instance Tensor_eq_dec : EqDecision Tensor.
Proof. solve_decision. Defined.

Definition numel (sh : list nat) : nat := fold_right Nat.mul 1%nat sh.

(** A freshly allocated tensor. *)
Definition fresh (dt : dtype) (dev : device) (sh : list nat) (d : list Qc) : Tensor :=
  mkTensor FreshStorage dt dev sh d.

(** Contents given by a function of the multi-index, in row-major order. *)
Fixpoint mk (sh : list nat) (f : list nat → Qc) : list Qc :=
  match sh with
  | [] => [f []]
  | d :: sh' => flat_map (fun i => mk sh'(fun idx => f (i :: idx))) (seq 0 d)
  end.

Fixpoint flat_index (sh idx : list nat) : nat :=
  match sh, idx with
  | _ :: sh', i :: idx' => (i * numel sh' + flat_index sh' idx')%nat
  | _, _ => 0%nat
  end.

Definition tget (t : Tensor) (idx : list nat) : Qc :=
  nth (flat_index (t_shape t) idx) (t_data t) 0.

(** [t.size(i)] *)
Definition size (t : Tensor) (i : nat) : result nat :=
  match t_shape t !! i with
  | Some d => Ok d
  | None => Raise IndexError
  end.

(** [t.float()], [t.half()], [t.to(dtype)]: the tensor itself when it already
    has the type, a new tensor otherwise. The elements are kept: the
    rounding of a cast to a narrower type is not represented (see
    [representable] for the elements that such a cast keeps). *)
Definition to_dtype (dt : dtype) (t : Tensor) : Tensor :=
  if decide (t_dtype t = dt) then t
  else mkTensor FreshStorage dt (t_device t) (t_shape t) (t_data t).
Definition float (t : Tensor) : Tensor := to_dtype Float32 t.
Definition half (t : Tensor) : Tensor := to_dtype Float16 t.

(** [t.to(device)], [t.cpu()] *)
Definition to_device (dev : device) (t : Tensor) : Tensor :=
  if decide (t_device t = dev) then t
  else mkTensor FreshStorage (t_dtype t) dev (t_shape t) (t_data t).
Definition cpu (t : Tensor) : Tensor := to_device Cpu t.

(** [t.detach()] and [t.contiguous()] may return the buffer of [t]. *)
Definition detach (t : Tensor) : Tensor := t.
Definition contiguous (t : Tensor) : Tensor := t.

(** [t.reshape(dims)], where one entry of [dims] may be [-1]. The result may
    be a view of [t]. *)
Definition infer_shape (n : nat) (dims : list Z) : result (list nat) :=
  let known := filter (fun d => bool_decide (d ≠ (-1)%Z)) dims in
  let p := numel (Z.to_nat <$> known) in
  if bool_decide (Exists (fun d => (d < -1)%Z) dims) then Raise RuntimeError
  else match (length dims - length known)%nat with
  | 0%nat => if decide (p = n) then Ok (Z.to_nat <$> dims) else Raise RuntimeError
  | 1%nat =>
      if decide (p = 0%nat) then Raise RuntimeError
      else if decide (n `mod` p = 0)%nat
      then Ok ((fun d => if bool_decide (d = (-1)%Z) then (n / p)%nat else Z.to_nat d) <$> dims)
      else Raise RuntimeError
  | _ => Raise RuntimeError
  end.

Definition reshape (t : Tensor) (dims : list Z) : result Tensor :=
  sh <- infer_shape (length (t_data t)) dims;;
  Ok (mkTensor (t_storage t) (t_dtype t) (t_device t) sh (t_data t)).

Definition zshape (sh : list nat) : list Z := Z.of_nat <$> sh.

(** ** Element-wise operations *)

(** Type promotion of a binary operation. *)
Definition promote (a b : dtype) : dtype :=
  match a, b with
  | Float32, _ | _, Float32 => Float32
  | Float16, _ | _, Float16 => Float16
  | Int64, _ | _, Int64 => Int64
  | Int16, Int16 => Int16
  end.

Definition is_floating (dt : dtype) : bool :=
  match dt with Float16 | Float32 => true | _ => false end.

(** Broadcasting aligns the shapes on the right; a dimension of extent one
    stretches. *)
Fixpoint broadcast_rev (a b : list nat) : result (list nat) :=
  match a, b with
  | [], _ => Ok b
  | _, [] => Ok a
  | x :: a', y :: b' =>
      r <- broadcast_rev a' b';;
      if decide (x = y) then Ok (x :: r)
      else if decide (x = 1%nat) then Ok (y :: r)
      else if decide (y = 1%nat) then Ok (x :: r)
      else Raise RuntimeError
  end.

Definition broadcast_shapes (a b : list nat) : result (list nat) :=
  r <- broadcast_rev (reverse a) (reverse b);; Ok (reverse r).

(** Read [t] at the index [idx] of the broadcast result. *)
Definition bget (t : Tensor) (idx : list nat) : Qc :=
  let own := drop (length idx - length (t_shape t)) idx in
  tget t (zip_with (fun d i => if decide (d = 1%nat) then 0%nat else i) (t_shape t) own).

Definition binop (f : Qc → Qc → Qc) (a b : Tensor) : result Tensor :=
  if decide (t_device a = t_device b) then
    sh <- broadcast_shapes (t_shape a) (t_shape b);;
    Ok (fresh (promote (t_dtype a) (t_dtype b)) (t_device a) sh
          (if decide (t_shape a = t_shape b)
           then zip_with f (t_data a) (t_data b)
           else mk sh (fun idx => f (bget a idx) (bget b idx))))
  else Raise RuntimeError.

Definition add := binop Qcplus.
Definition sub := binop Qcminus.
Definition mul := binop Qcmult.

(** Operations with a Python number. *)
Definition map_tensor (f : Qc → Qc) (t : Tensor) : Tensor :=
  fresh (t_dtype t) (t_device t) (t_shape t) (f <$> t_data t).

Definition mul_number (t : Tensor) (s : Qc) : Tensor :=
  map_tensor (fun x => x * s) t.

(** True division of a tensor by a Python integer: the result is floating.
    Division by zero gives an infinity, which the rationals do not have; it
    is reported as [RuntimeError]. *)
Definition div_int (t : Tensor) (n : nat) : result Tensor :=
  if decide (n = 0%nat) then Raise RuntimeError
  else Ok (fresh (if is_floating (t_dtype t) then t_dtype t else Float32)
             (t_device t) (t_shape t) ((fun x => x / qn n) <$> t_data t)).

Definition abs (t : Tensor) : Tensor := map_tensor qabs t.

Definition qsum (l : list Qc) : Qc := foldr Qcplus 0 l.

(** [torch.sum(mask)] for a mask given by a predicate on the elements. *)
Definition count_where (P : Qc → bool) (l : list Qc) : nat :=
  length (filter (fun x => P x = true) l).

(** [torch.max(t)] *)
Definition torch_max (l : list Qc) : result Qc :=
  match l with
  | [] => Raise RuntimeError
  | x :: l' => Ok (foldl py_max x l')
  end.

(** [torch.cumsum(t, dim=0)] of a vector. *)
Fixpoint cumsum_from (acc : Qc) (l : list Qc) : list Qc :=
  match l with
  | [] => []
  | x :: l' => (acc + x) :: cumsum_from (acc + x) l'
  end.
Definition cumsum (l : list Qc) : list Qc := cumsum_from 0 l.

(** [torch.allclose(a, b)] with the default tolerances
    [rtol = 1e-05] and [atol = 1e-08]. *)
Definition rtol : Qc := qfrac 1 100000.
Definition atol : Qc := qfrac 1 100000000.

Definition allclose (a b : Tensor) : result bool :=
  if decide (t_dtype a ≠ t_dtype b) then Raise RuntimeError else
  d <- sub a b;;
  let bs := if decide (t_shape a = t_shape b) then t_data b
            else mk (t_shape d) (bget b) in
  Ok (forallb (fun p => qle (qabs p.1) (atol + rtol * qabs p.2))
        (zip (t_data d) bs)).

(** [bool(t)]: only a tensor of exactly one element has a truth value. *)
Definition tensor_bool (t : Tensor) : result bool :=
  match t_data t with
  | [x] => Ok (bool_decide (x ≠ 0))
  | _ => Raise RuntimeError
  end.

(** The truth value of an optional tensor, as in [if t:]. *)
Definition truthy (t : option Tensor) : result bool :=
  match t with
  | None => Ok false
  | Some t => tensor_bool t
  end.

(** ** Linear algebra *)

Definition sum_upto (k : nat) (f : nat → Qc) : Qc := qsum (f <$> seq 0 k).

(** [a @ b] for matrices, which must have the same type and device. *)
Definition matmul (a b : Tensor) : result Tensor :=
  match t_shape a, t_shape b with
  | [m; k], [k'; n] =>
      if decide (k = k' ∧ t_device a = t_device b ∧ t_dtype a = t_dtype b) then
        Ok (fresh (t_dtype a) (t_device a) [m; n]
              (mk [m; n] (fun idx =>
                 match idx with
                 | [i; j] => sum_upto k (fun l => tget a [i; l] * tget b [l; j])
                 | _ => 0
                 end)))
      else Raise RuntimeError
  | _, _ => Raise RuntimeError
  end.

(** [torch.diag(s)] of a vector. *)
Definition diag (s : Tensor) : result Tensor :=
  match t_shape s with
  | [n] =>
      Ok (fresh (t_dtype s) (t_device s) [n; n]
            (mk [n; n] (fun idx =>
               match idx with
               | [i; j] => if decide (i = j) then tget s [i] else 0
               | _ => 0
               end)))
  | _ => Raise RuntimeError
  end.

(** [t[:, :r]], [t[:r, :]] and [t[:r]]: views of [t]. *)
Definition slice_cols (t : Tensor) (r : nat) : result Tensor :=
  match t_shape t with
  | [m; n] =>
      let r' := r `min` n in
      Ok (mkTensor (t_storage t) (t_dtype t) (t_device t) [m; r']
            (mk [m; r'] (tget t)))
  | _ => Raise IndexError
  end.

Definition slice_rows (t : Tensor) (r : nat) : result Tensor :=
  match t_shape t with
  | m :: sh =>
      let r' := r `min` m in
      Ok (mkTensor (t_storage t) (t_dtype t) (t_device t) (r' :: sh)
            (take (r' * numel sh) (t_data t)))
  | [] => Raise IndexError
  end.

(** [t.transpose(0, 1)]: a view of [t]. *)
Definition transpose01 (t : Tensor) : result Tensor :=
  match t_shape t with
  | a :: b :: sh =>
      Ok (mkTensor (t_storage t) (t_dtype t) (t_device t) (b :: a :: sh)
            (mk (b :: a :: sh) (fun idx =>
               match idx with
               | j :: i :: rest => tget t (i :: j :: rest)
               | _ => 0
               end)))
  | _ => Raise IndexError
  end.

(** [t.flatten(1, -1)] *)
Definition flatten1 (t : Tensor) : result Tensor :=
  match t_shape t with
  | d :: (_ :: _) as sh =>
      Ok (mkTensor (t_storage t) (t_dtype t) (t_device t) [d; numel sh] (t_data t))
  | _ => Raise IndexError
  end.

(** [t.unsqueeze(2)] *)
Definition unsqueeze2 (t : Tensor) : result Tensor :=
  if decide (2 ≤ length (t_shape t))%nat then
    Ok (mkTensor (t_storage t) (t_dtype t) (t_device t)
          (take 2 (t_shape t) ++ 1%nat :: drop 2 (t_shape t)) (t_data t))
  else Raise IndexError.

(** [torch.einsum(equation, operands)]. The equation is read as the runtime
    reads it: blanks are ignored, operands are separated by commas and the
    output follows the arrow. *)
Fixpoint einsum_parse (s : string) (cur : list ascii) (ins : list (list ascii))
  : list (list ascii) * list ascii :=
  match s with
  | EmptyString => (ins, cur)
  | String c s' =>
      if decide (c = " "%char) then einsum_parse s' cur ins
      else if decide (c = ","%char) then einsum_parse s' [] (ins ++ [cur])
      else if decide (c = "-"%char) then einsum_parse s' [] (ins ++ [cur])
      else if decide (c = ">"%char) then einsum_parse s' cur ins
      else einsum_parse s'(cur ++ [c]) ins
  end.

Definition label_env := list (ascii * nat).

Definition env_get (env : label_env) (l : ascii) : option nat :=
  snd <$> find (fun p => bool_decide (p.1 = l)) env.

Fixpoint bind_labels (env : label_env) (ls : list ascii) (sh : list nat)
  : result label_env :=
  match ls, sh with
  | [], [] => Ok env
  | l :: ls', d :: sh' =>
      match env_get env l with
      | Some d' => if decide (d = d') then bind_labels env ls' sh'
                   else Raise RuntimeError
      | None => bind_labels (env ++ [(l, d)]) ls' sh'
      end
  | _, _ => Raise RuntimeError
  end.

Fixpoint bind_operands (env : label_env) (ins : list (list ascii)) (ops : list Tensor)
  : result label_env :=
  match ins, ops with
  | [], [] => Ok env
  | ls :: ins', t :: ops' =>
      env' <- bind_labels env ls (t_shape t);;
      bind_operands env' ins' ops'
  | _, _ => Raise RuntimeError
  end.

Fixpoint einsum_sum (sums : label_env) (asg : label_env) (term : label_env → Qc) : Qc :=
  match sums with
  | [] => term asg
  | (l, d) :: rest => sum_upto d (fun i => einsum_sum rest ((l, i) :: asg) term)
  end.

Definition einsum_term (ins : list (list ascii)) (ops : list Tensor) (asg : label_env) : Qc :=
  foldr Qcmult 1
    (zip_with (fun ls t => tget t ((fun l => default 0%nat (env_get asg l)) <$> ls)) ins ops).

Definition einsum (equation : string) (ops : list Tensor) : result Tensor :=
  let '(ins, out) := einsum_parse equation [] [] in
  match ops with
  | [] => Raise RuntimeError
  | t0 :: _ =>
      if bool_decide (Forall (fun t => t_device t = t_device t0
                                       ∧ t_dtype t = t_dtype t0) ops) then
        env <- bind_operands [] ins ops;;
        if bool_decide (Forall (fun l => is_Some (env_get env l)) out) then
          let sh := (fun l => default 0%nat (env_get env l)) <$> out in
          let sums := filter (fun p => p.1 ∉ out) env in
          Ok (fresh (t_dtype t0) (t_device t0) sh
                (mk sh (fun idx => einsum_sum sums (zip out idx) (einsum_term ins ops))))
        else Raise RuntimeError
      else Raise RuntimeError
  end.

(** [torch.kron(a, b)]: the operand of lower rank gets leading dimensions of
    extent one. *)
Definition pad_shape (n : nat) (sh : list nat) : list nat :=
  replicate (n - length sh) 1%nat ++ sh.

Definition kron (a b : Tensor) : result Tensor :=
  if decide (t_device a = t_device b) then
    let n := length (t_shape a) `max` length (t_shape b) in
    let sa := pad_shape n (t_shape a) in
    let sb := pad_shape n (t_shape b) in
    let sh := zip_with Nat.mul sa sb in
    Ok (fresh (promote (t_dtype a) (t_dtype b)) (t_device a) sh
          (mk sh (fun idx =>
             nth (flat_index sa (zip_with Nat.div idx sb)) (t_data a) 0
             * nth (flat_index sb (zip_with Nat.modulo idx sb)) (t_data b) 0)))
  else Raise RuntimeError.

(** ** Singular value decomposition

    [torch.linalg.svd] is a kernel of the tensor runtime. The oracle gives,
    for the contents of an [m] by [n] matrix, the contents of [U] ([m] by
    [m]), of [S] (of length [min m n]) and of [Vh] ([n] by [n]). *)
Definition svd_oracle := nat → nat → list Qc → list Qc * list Qc * list Qc.

(** The contents [d] read at the shape [sh] (this is [d] itself when its
    length is the number of elements of [sh]). *)
Definition of_contents (sh : list nat) (d : list Qc) : list Qc :=
  mk sh (fun idx => nth (flat_index sh idx) d 0).

Definition linalg_svd (svd : svd_oracle) (w : Tensor) : result (Tensor * Tensor * Tensor) :=
  match t_shape w with
  | [m; n] =>
      let '(u, s, vh) := svd m n (t_data w) in
      Ok (fresh (t_dtype w) (t_device w) [m; m] (of_contents [m; m] u),
          fresh (t_dtype w) (t_device w) [m `min` n] (of_contents [m `min` n] s),
          fresh (t_dtype w) (t_device w) [n; n] (of_contents [n; n] vh))
  | _ => Raise RuntimeError
  end.

(** ** Rank selection and truncated decomposition *)

(** The rank chosen by the mode, before it is clamped (the [if]/[elif] chain
    of [extract_conv] and [extract_linear], which is the same in both). [Sg]
    is the vector [S] of singular values. The thresholds [max * ratio] and
    [q * sum], which the source computes in [float32], are exact here. *)
Definition select_rank (mode : string) (mode_param : Qc) (Sg : list Qc) : result Qc :=
  if decide (mode = "fixed") then
    Ok mode_param
  else if decide (mode = "threshold") then
    _ <- py_assert (qle 0 mode_param);;
    Ok (qn (count_where (fun s => qlt mode_param s) Sg))
  else if decide (mode = "ratio") then
    _ <- py_assert (qle mode_param 1 && qle 0 mode_param);;
    m <- torch_max Sg;;
    let min_s := m * mode_param in
    Ok (qn (count_where (fun s => qlt min_s s) Sg))
  else if decide (mode = "quantile" ∨ mode = "percentile") then
    _ <- py_assert (qle mode_param 1 && qle 0 mode_param);;
    let s_cum := cumsum Sg in
    let min_cum_sum := mode_param * qsum Sg in
    Ok (qn (count_where (fun c => qlt c min_cum_sum) s_cum))
  else Raise NotImplementedError.

(** [lora_rank = max(1, lora_rank); lora_rank = min(out_ch, in_ch, lora_rank)] *)
Definition clamp_rank (out_ch in_ch : nat) (lora_rank : Qc) : Qc :=
  let lora_rank := py_max 1 lora_rank in
  py_min3 (qn out_ch) (qn in_ch) lora_rank.

(** [lora_rank >= out_ch/2] *)
Definition rank_is_full (out_ch : nat) (lora_rank : Qc) : bool :=
  qle (qn out_ch / 2) lora_rank.

(** What a decomposition returns: the tensor itself tagged ['full'], or the
    triple (down factor, up factor, residual) tagged ['low rank']. *)
Inductive decomposition :=
  | Full (weight : Tensor)
  | LowRank (extract_weight_A extract_weight_B diff : Tensor).

Definition decompose_mode (d : decomposition) : string :=
  match d with
  | Full _ => "full"
  | LowRank _ _ _ => "low rank"
  end.

Section Decomposition.
Variable svd : svd_oracle.

(** The part shared by both functions after the rank is known: truncate the
    factors and fold the singular values into [U]. *)
Definition truncate (U Sg Vh : Tensor) (lora_rank : Qc)
  : result (nat * Tensor * Tensor) :=
  k <- as_index lora_rank;;
  U <- slice_cols U k;;
  Sg <- slice_rows Sg k;;
  dS <- diag Sg;;
  U <- matmul U dS;;
  Vh <- slice_rows Vh k;;
  Ok (k, U, Vh).

Definition extract_conv (weight : Tensor) (mode : string) (mode_param : Qc)
    (dev : device) (is_cp : bool) : result decomposition :=
  let weight := to_device dev (float weight) in
  match t_shape weight with
  | [out_ch; in_ch; kernel_size; _] =>
      w2 <- reshape weight [Z.of_nat out_ch; (-1)%Z];;
      usv <- linalg_svd svd w2;;
      let '(U, Sg, Vh) := usv in
      lora_rank <- select_rank mode mode_param (t_data Sg);;
      let lora_rank := clamp_rank out_ch in_ch lora_rank in
      if rank_is_full out_ch lora_rank && negb is_cp then
        Ok (Full (cpu weight))
      else
        kuv <- truncate U Sg Vh lora_rank;;
        let '(k, U, Vh) := kuv in
        UV <- matmul U Vh;;
        UV <- reshape UV (zshape [out_ch; in_ch; kernel_size; kernel_size]);;
        d <- sub weight UV;;
        let diff := cpu (to_dtype (t_dtype weight) (detach d)) in
        A <- reshape Vh (zshape [k; in_ch; kernel_size; kernel_size]);;
        let extract_weight_A := cpu (to_dtype (t_dtype weight) (detach A)) in
        B <- reshape U (zshape [out_ch; k; 1%nat; 1%nat]);;
        let extract_weight_B := cpu (to_dtype (t_dtype weight) (detach B)) in
        Ok (LowRank extract_weight_A extract_weight_B diff)
  | _ => Raise ValueError
  end.

Definition extract_linear (weight : Tensor) (mode : string) (mode_param : Qc)
    (dev : device) : result decomposition :=
  let weight := to_device dev (float weight) in
  match t_shape weight with
  | [out_ch; in_ch] =>
      usv <- linalg_svd svd weight;;
      let '(U, Sg, Vh) := usv in
      lora_rank <- select_rank mode mode_param (t_data Sg);;
      let lora_rank := clamp_rank out_ch in_ch lora_rank in
      if rank_is_full out_ch lora_rank then
        Ok (Full (cpu weight))
      else
        kuv <- truncate U Sg Vh lora_rank;;
        let '(k, U, Vh) := kuv in
        UV <- matmul U Vh;;
        d <- sub weight UV;;
        let diff := cpu (to_dtype (t_dtype weight) (detach d)) in
        A <- reshape Vh (zshape [k; in_ch]);;
        let extract_weight_A := cpu (to_dtype (t_dtype weight) (detach A)) in
        B <- reshape U (zshape [out_ch; k]);;
        let extract_weight_B := cpu (to_dtype (t_dtype weight) (detach B)) in
        Ok (LowRank extract_weight_A extract_weight_B diff)
  | _ => Raise ValueError
  end.
End Decomposition.

(** ** The factorized state and its dispatch *)

(** [lyco_state_dict]: a flat mapping from keys to tensors. *)
Abbreviation state_dict := (gmap string Tensor).

(** Subscripting a dictionary raises [KeyError] on a missing key. *)
Definition getitem (d : state_dict) (k : string) : result Tensor :=
  match d !! k with
  | Some t => Ok t
  | None => Raise KeyError
  end.

(** The kind and the tensor tuple returned by [get_module]. *)
Inductive lyco_module :=
  | Locon (up down : Tensor) (mid alpha : option Tensor)
  | Hada (w1a w1b w2a w2b : Tensor) (t1 t2 alpha : option Tensor)
  | Ia3 (weight : Tensor) (on_input : option Tensor)
  | Kron (w1 w1a w1b w2 w2a w2b t1 t2 alpha : option Tensor)
  | FullDiff (diff : Tensor) (diff_b : option Tensor)
  | Norm (w_norm : Tensor) (b_norm : option Tensor)
  | NoModule.

(** The first component of the pair returned by [get_module]. *)
Definition module_type (m : lyco_module) : string :=
  match m with
  | Locon _ _ _ _ => "locon"
  | Hada _ _ _ _ _ _ _ => "hada"
  | Ia3 _ _ => "ia3"
  | Kron _ _ _ _ _ _ _ _ _ => "kron"
  | FullDiff _ _ => "full"
  | Norm _ _ => "norm"
  | NoModule => "None"
  end.

Definition has_key (d : state_dict) (k : string) : bool :=
  bool_decide (is_Some (d !! k)).

Definition get_module (lyco_state_dict : state_dict) (lora_name : string)
  : result lyco_module :=
  let key suffix := lora_name +:+ suffix in
  let get suffix := lyco_state_dict !! key suffix in
  if has_key lyco_state_dict (key ".lora_up.weight") then
    up <- getitem lyco_state_dict (key ".lora_up.weight");;
    down <- getitem lyco_state_dict (key ".lora_down.weight");;
    Ok (Locon up down (get ".lora_mid.weight") (get ".alpha"))
  else if has_key lyco_state_dict (key ".hada_w1_a") then
    w1a <- getitem lyco_state_dict (key ".hada_w1_a");;
    w1b <- getitem lyco_state_dict (key ".hada_w1_b");;
    w2a <- getitem lyco_state_dict (key ".hada_w2_a");;
    w2b <- getitem lyco_state_dict (key ".hada_w2_b");;
    Ok (Hada w1a w1b w2a w2b (get ".hada_t1") (get ".hada_t2") (get ".alpha"))
  else if has_key lyco_state_dict (key ".weight") then
    weight <- getitem lyco_state_dict (key ".weight");;
    Ok (Ia3 weight (get ".on_input"))
  else if has_key lyco_state_dict (key ".lokr_w1")
          || has_key lyco_state_dict (key ".lokr_w1_a") then
    Ok (Kron (get ".lokr_w1") (get ".lokr_w1_a") (get ".lokr_w1_b")
             (get ".lokr_w2") (get ".lokr_w2_a") (get ".lokr_w2_b")
             (get ".lokr_t1") (get ".lokr_t2") (get ".alpha"))
  else if has_key lyco_state_dict (key ".diff") then
    diff <- getitem lyco_state_dict (key ".diff");;
    Ok (FullDiff diff (get ".diff_b"))
  else if has_key lyco_state_dict (key ".w_norm") then
    w_norm <- getitem lyco_state_dict (key ".w_norm");;
    Ok (Norm w_norm (get ".b_norm"))
  else Ok NoModule.

(** ** Reconstruction *)

(** An attribute of [None] raises [AttributeError]. *)
Definition need (o : option Tensor) : result Tensor :=
  match o with
  | Some t => Ok t
  | None => Raise AttributeError
  end.

Definition cp_weight_from_conv (up down mid : Tensor) : result Tensor :=
  u0 <- size up 0;; u1 <- size up 1;;
  up <- reshape up (zshape [u0; u1]);;
  d0 <- size down 0;; d1 <- size down 1;;
  down <- reshape down (zshape [d0; d1]);;
  einsum "m n w h, i m, n j -> i j w h" [mid; up; down].

Definition cp_weight (wa wb t : Tensor) : result Tensor :=
  temp <- einsum "i j k l, j r -> i r k l" [t; wb];;
  einsum "i j k l, i r -> r j k l" [temp; wa].

(** The local variable [scale] of [rebuild_weight]: the number passed by the
    caller, or a tensor once it has been multiplied by [alpha / rank]. *)
Inductive scalar :=
  | Num (q : Qc)
  | Ten (t : Tensor).

(** [scale *= alpha / n] *)
Definition rescale (scale : scalar) (alpha : Tensor) (n : nat) : result scalar :=
  f <- div_int alpha n;;
  match scale with
  | Num s => Ok (Ten (mul_number f s))
  | Ten t => Ten <$> mul t f
  end.

(** [x * scale] *)
Definition times (x : Tensor) (scale : scalar) : result Tensor :=
  match scale with
  | Num s => Ok (mul_number x s)
  | Ten t => mul x t
  end.

(** [orig + rebuild.reshape(orig.shape) * scale] *)
Definition add_scaled (orig rebuild : Tensor) (scale : scalar) : result Tensor :=
  r <- reshape rebuild (zshape (t_shape orig));;
  r <- times r scale;;
  add orig r.

(** [a @ b] on two-dimensional views [a.reshape(a.size(0), -1)]. *)
Definition as_matrix (a : Tensor) : result Tensor :=
  a0 <- size a 0;;
  reshape a [Z.of_nat a0; (-1)%Z].

Definition rebuild_weight (m : lyco_module) (orig_weight orig_bias : option Tensor)
    (scale : Qc) : result (option Tensor * option Tensor) :=
  match orig_weight with
  | None => Ok (orig_weight, orig_bias)
  | Some orig =>
    let scale := Num scale in
    match m with
    | Locon up down mid alpha =>
        scale <- match alpha with
                | Some alpha => r <- size up 1;; rescale scale alpha r
                | None => Ok scale
                end;;
        rebuild <- match mid with
                  | Some mid => cp_weight_from_conv up down mid
                  | None => u <- as_matrix up;; d <- as_matrix down;; matmul u d
                  end;;
        merged <- add_scaled orig rebuild scale;;
        Ok (Some merged, orig_bias)
    | Hada w1a w1b w2a w2b t1 t2 alpha =>
        scale <- match alpha with
                | Some alpha => r <- size w1b 0;; rescale scale alpha r
                | None => Ok scale
                end;;
        rebuild1 <- match t1 with
                   | Some t1 => cp_weight w1a w1b t1
                   | None => matmul w1a w1b
                   end;;
        rebuild2 <- match t2 with
                   | Some t2 => cp_weight w2a w2b t2
                   | None => matmul w2a w2b
                   end;;
        rebuild <- mul rebuild1 rebuild2;;
        merged <- add_scaled orig rebuild scale;;
        Ok (Some merged, orig_bias)
    | Ia3 weight on_input =>
        b <- truthy on_input;;
        weight <- (if b then Ok weight else reshape weight [(-1)%Z; 1%Z]);;
        p <- mul weight orig;;
        p <- times p scale;;
        merged <- add orig p;;
        Ok (Some merged, orig_bias)
    | Kron w1 w1a w1b w2 w2a w2b t1 t2 alpha =>
        scale <- match alpha with
                | Some alpha =>
                    if bool_decide (is_Some w1b ∨ is_Some w2b) then
                      b <- truthy w1b;;
                      r <- (if b then t <- need w1b;; size t 0
                           else t <- need w2b;; size t 0);;
                      rescale scale alpha r
                    else Ok scale
                | None => Ok scale
                end;;
        w1 <- match w1a, w1b with
             | Some w1a, Some w1b =>
                 b <- truthy t1;;
                 if b then t1 <- need t1;; Some <$> cp_weight w1a w1b t1
                 else Some <$> matmul w1a w1b
             | _, _ => Ok w1
             end;;
        w2 <- match w2a, w2b with
             | Some w2a, Some w2b =>
                 b <- truthy t2;;
                 if b then t2 <- need t2;; Some <$> cp_weight w2a w2b t2
                 else Some <$> matmul w2a w2b
             | _, _ => Ok w2
             end;;
        w2 <- need w2;;
        w1 <- (if decide (length (t_shape w2) = 4%nat)
              then w1 <- need w1;; u <- unsqueeze2 w1;; Some <$> unsqueeze2 u
              else Ok w1);;
        let w2 := contiguous w2 in
        w1 <- match w1 with Some w1 => Ok w1 | None => Raise TypeError end;;
        rebuild <- kron w1 w2;;
        merged <- add_scaled orig rebuild scale;;
        Ok (Some merged, orig_bias)
    | FullDiff diff diff_b =>
        rebuild <- reshape diff (zshape (t_shape orig));;
        rebuild_b <- match orig_bias with
                    | Some orig_bias =>
                        d <- need diff_b;;
                        Some <$> reshape d (zshape (t_shape orig_bias))
                    | None => Ok None
                    end;;
        r <- times rebuild scale;;
        merged <- add orig r;;
        merged_bias <- match rebuild_b with
                      | Some rebuild_b =>
                          ob <- need orig_bias;;
                          rb <- times rebuild_b scale;;
                          Some <$> add ob rb
                      | None => Ok orig_bias
                      end;;
        Ok (Some merged, merged_bias)
    | Norm w_norm b_norm =>
        rebuild <- reshape w_norm (zshape (t_shape orig));;
        d <- need b_norm;;
        ob <- need orig_bias;;
        rebuild_b <- reshape d (zshape (t_shape ob));;
        r <- times rebuild scale;;
        merged <- add orig r;;
        rb <- times rebuild_b scale;;
        merged_bias <- add ob rb;;
        Ok (Some merged, Some merged_bias)
    | NoModule => Raise NotImplementedError
    end
  end.

(** ** Models

    A model is a tree of named submodules. Each module has a class name, a
    [weight] attribute (absent, [None] or a tensor), an optional bias and its
    named children, in registration order. *)
Inductive attribute :=
  | NoAttr
  | Attr (v : option Tensor).

#[local] Set Warnings "-register-all".
Inductive Module :=
  | Mod (class_name : string) (weight : attribute) (bias : option Tensor)
        (children : list (string * Module)).

Definition m_class (m : Module) : string := let 'Mod c _ _ _ := m in c.
Definition m_weight (m : Module) : attribute := let 'Mod _ w _ _ := m in w.
Definition m_bias (m : Module) : option Tensor := let 'Mod _ _ b _ := m in b.
Definition m_children (m : Module) : list (string * Module) := let 'Mod _ _ _ ch := m in ch.

(** [getattr(m, 'weight')] *)
Definition getattr_weight (m : Module) : result (option Tensor) :=
  match m_weight m with
  | NoAttr => Raise AttributeError
  | Attr v => Ok v
  end.

(** The dotted name of a submodule below the module named [prefix]. *)
Definition submodule_name (prefix key : string) : string :=
  if decide (prefix = "") then key else prefix +:+ "." +:+ key.

(** [m.named_modules()]: the module itself under the empty name, then its
    descendants depth first, parents before children. Each entry also records
    the position of the module in the tree, by which the in-place updates of
    [merge] address it. *)
Fixpoint named_modules_from (prefix : string) (path : list nat) (m : Module)
  : list (string * list nat * Module) :=
  (prefix, path, m) ::
  (fix go (i : nat) (l : list (string * Module)) :=
     match l with
     | [] => []
     | (k, c) :: l' =>
         named_modules_from (submodule_name prefix k) (path ++ [i]) c ++ go (S i) l'
     end) 0%nat (m_children m).

Definition named_modules (m : Module) : list (string * list nat * Module) :=
  named_modules_from "" [] m.

Fixpoint module_at (path : list nat) (m : Module) : option Module :=
  match path with
  | [] => Some m
  | i :: rest =>
      match m_children m !! i with
      | Some (_, c) => module_at rest c
      | None => None
      end
  end.

Fixpoint update_at (path : list nat) (f : Module → Module) (m : Module) : Module :=
  match path with
  | [] => f m
  | i :: rest =>
      Mod (m_class m) (m_weight m) (m_bias m)
          (alter (fun kc => (kc.1, update_at rest f kc.2)) i (m_children m))
  end.

Definition set_weight (t : Tensor) (m : Module) : Module :=
  Mod (m_class m) (Attr (Some t)) (m_bias m) (m_children m).
Definition set_bias (t : Tensor) (m : Module) : Module :=
  Mod (m_class m) (m_weight m) (Some t) (m_children m).

(** [m.to(device)]: every parameter of the tree is moved, and stays the
    parameter's buffer. *)
Definition param_to (dev : device) (t : Tensor) : Tensor :=
  mkTensor (t_storage t) (t_dtype t) dev (t_shape t) (t_data t).

Fixpoint module_to (dev : device) (m : Module) : Module :=
  Mod (m_class m)
      (match m_weight m with
       | Attr (Some t) => Attr (Some (param_to dev t))
       | w => w
       end)
      (param_to dev <$> m_bias m)
      ((fix go (l : list (string * Module)) :=
          match l with
          | [] => []
          | (k, c) :: l' => (k, module_to dev c) :: go l'
          end) (m_children m)).

(** [m.parameters()]: weight then bias of each module, in the order of
    [named_modules]. *)
Definition own_parameters (m : Module) : list Tensor :=
  match m_weight m with Attr (Some t) => [t] | _ => [] end
  ++ match m_bias m with Some t => [t] | None => [] end.

Definition parameters (m : Module) : list Tensor :=
  flat_map (fun e => own_parameters e.2) (named_modules m).

(** [dst.copy_(src)]: the contents of [src], broadcast to the shape of [dst],
    are written into the buffer of [dst], which keeps its type and device. *)
Definition copy_ (dst src : Tensor) : result Tensor :=
  sh <- broadcast_shapes (t_shape dst) (t_shape src);;
  if decide (sh = t_shape dst) then
    Ok (mkTensor (t_storage dst) (t_dtype dst) (t_device dst) (t_shape dst)
          (if decide (t_shape dst = t_shape src) then t_data src
           else mk sh (bget src)))
  else Raise RuntimeError.

(** [s.replace('.', '_')] *)
Fixpoint replace_dots (s : string) : string :=
  match s with
  | EmptyString => EmptyString
  | String c s' => String (if decide (c = "."%char) then "_"%char else c) (replace_dots s')
  end.

Fixpoint foldM {A B} (f : B → A → result B) (l : list A) (b : B) : result B :=
  match l with
  | [] => Ok b
  | a :: l' => b' <- f b a;; foldM f l' b'
  end.

(** ** Merge *)

Definition UNET_TARGET_REPLACE_MODULE : list string :=
  ["Transformer2DModel"; "Attention"; "ResnetBlock2D"; "Downsample2D"; "Upsample2D"].
Definition UNET_TARGET_REPLACE_NAME : list string :=
  ["conv_in"; "conv_out"; "time_embedding.linear_1"; "time_embedding.linear_2"].
Definition TEXT_ENCODER_TARGET_REPLACE_MODULE : list string :=
  ["CLIPAttention"; "CLIPMLP"].
Definition LORA_PREFIX_UNET : string := "lora_unet".
Definition LORA_PREFIX_TEXT_ENCODER : string := "lora_te".
Definition LORA_PREFIX_TEXT_ENCODER1 : string := "lora_te1".
Definition LORA_PREFIX_TEXT_ENCODER2 : string := "lora_te2".

Definition is_in (x : string) (l : list string) : bool := bool_decide (x ∈ l).

(** The body shared by the two branches of [merge_state_dict]: rebuild the
    weight of the module at [path] from the entry [lora_name] and copy the
    result into the module. The state is the tree being merged and the
    counter [merged]. *)
Definition merge_module (lyco_state_dict : state_dict) (scale : Qc)
    (lora_name : string) (path : list nat) (st : Module * nat)
  : result (Module * nat) :=
  let '(root, merged) := st in
  match module_at path root with
  | None => Raise RuntimeError
  | Some child_module =>
      lm <- get_module lyco_state_dict lora_name;;
      w <- getattr_weight child_module;;
      rr <- rebuild_weight lm w (m_bias child_module) scale;;
      let '(result, result_b) := rr in
      st <- match result with
            | Some result =>
                w0 <- need w;;
                w' <- copy_ w0 result;;
                Ok (update_at path (set_weight w') root, S merged)
            | None => Ok (root, merged)
            end;;
      let '(root, merged) := st in
      match result_b with
      | Some result_b =>
          b0 <- need (m_bias child_module);;
          b' <- copy_ b0 result_b;;
          Ok (update_at path (set_bias b') root, merged)
      | None => Ok (root, merged)
      end
  end.

Definition merge_state_dict (scale : Qc) (prefix : string) (root_module : Module)
    (lyco_state_dict : state_dict) (target_replace_modules target_replace_names : list string)
    (merged : nat) : result (Module * nat) :=
  foldM (fun st '(name, path, module) =>
    if is_in (m_class module) target_replace_modules then
      foldM (fun st '(child_name, child_path, child_module) =>
        if negb (is_in (m_class child_module) ["Linear"; "Conv2d"]) then Ok st
        else
          let lora_name := prefix +:+ "." +:+ name +:+ "." +:+ child_name in
          let lora_name := replace_dots lora_name in
          merge_module lyco_state_dict scale lora_name (path ++ child_path) st)
        (named_modules module) st
    else if is_in name target_replace_names then
      let lora_name := prefix +:+ "." +:+ name in
      let lora_name := replace_dots lora_name in
      merge_module lyco_state_dict scale lora_name path st
    else Ok st)
    (named_modules root_module) (root_module, merged).

(** [base_model[i]] *)
Definition model_slot (base_model : list Module) (i : nat) : result Module :=
  match base_model !! i with
  | Some m => Ok m
  | None => Raise IndexError
  end.

(** The conversion applied to every entry of the state before merging:
    [v.float().cpu()], or [v.to(device, dtype=...)] with the type of the
    first parameter of [base_model[0]]. *)
Definition convert_entry (dev : device) (base_model : list Module) (v : Tensor)
  : result Tensor :=
  match dev with
  | Cpu => Ok (cpu (float v))
  | _ =>
      m <- model_slot base_model 0;;
      match parameters m with
      | p :: _ => Ok (to_dtype (t_dtype p) (to_device dev v))
      | [] => Raise StopIteration
      end
  end.

(** [merge] mutates the model bundle and the state dictionary it is given;
    the embedding returns both as they are after the call, together with the
    number of merged modules that the function prints. *)
Definition merge (base_model : list Module) (lyco_state_dict : state_dict)
    (scale : Qc) (dev : device)
  : result (list Module * state_dict * nat) :=
  lyco_state_dict <-
    foldM (fun d '(k, v) => v' <- convert_entry dev base_model v;; Ok (<[k := v']> d))
      (map_to_list lyco_state_dict) lyco_state_dict;;
  m0 <- model_slot base_model 0;;
  let m0 := module_to dev m0 in
  let base_model := <[0%nat := m0]> base_model in
  r <- merge_state_dict scale LORA_PREFIX_TEXT_ENCODER m0 lyco_state_dict
         TEXT_ENCODER_TARGET_REPLACE_MODULE UNET_TARGET_REPLACE_NAME 0%nat;;
  let '(m0, merged) := r in
  let base_model := <[0%nat := m0]> base_model in
  m2 <- model_slot base_model 2;;
  let m2 := module_to dev m2 in
  let base_model := <[2%nat := m2]> base_model in
  r <- merge_state_dict scale LORA_PREFIX_UNET m2 lyco_state_dict
         UNET_TARGET_REPLACE_MODULE UNET_TARGET_REPLACE_NAME merged;;
  let '(m2, merged) := r in
  let base_model := <[2%nat := m2]> base_model in
  Ok (base_model, lyco_state_dict, merged).

(** ** Sparse encoding of the residual *)

Definition qfloor (q : Qc) : Z := (Qnum (this q) / Zpos (Qden (this q)))%Z.

(** [np.quantile(a, q)] with the default linear interpolation; it rejects a
    [q] outside [[0, 1]] and then indexes the sorted array, which fails on an
    empty one. *)
Definition np_quantile (a : list Qc) (q : Qc) : result Qc :=
  if negb (qle 0 q && qle q 1) then Raise ValueError
  else if bool_decide (a = []) then Raise IndexError
  else
    let sorted := merge_sort Qcle a in
    let h := qn (length a - 1) * q in
    let i := Z.to_nat (qfloor h) in
    let g := h - qn i in
    let lo := nth i sorted 0 in
    let hi := nth (S i) sorted lo in
    Ok (lo + g * (hi - lo)).

Definition make_sparse (t : Tensor) (sparsity : Qc) : result Tensor :=
  let abs_t := abs t in
  quan <- np_quantile (t_data (cpu (detach abs_t))) sparsity;;
  Ok (fresh (t_dtype t) (t_device t) (t_shape t)
        (zip_with (fun x a => if qlt a quan then 0 else x) (t_data t) (t_data abs_t))).

(** The multi-index of the element at a flat position. *)
Fixpoint unflatten (sh : list nat) (p : nat) : list nat :=
  match sh with
  | [] => []
  | _ :: sh' => (p / numel sh')%nat :: unflatten sh'(p `mod` numel sh')
  end.

(** [t.to_sparse().coalesce()]: the positions and the values of the non-zero
    elements, in row-major order. [indices()] has one row per dimension. *)
Definition nonzero_positions (t : Tensor) : list nat :=
  (fst <$> filter (fun p => p.2 ≠ 0) (imap (fun i x => (i, x)) (t_data t))).

Definition sparse_indices (t : Tensor) : Tensor :=
  let pos := nonzero_positions t in
  let nd := length (t_shape t) in
  fresh Int64 (t_device t) [nd; length pos]
    (mk [nd; length pos] (fun idx =>
       match idx with
       | [d; j] => qn (nth d (unflatten (t_shape t) (nth j pos 0%nat)) 0%nat)
       | _ => 0
       end)).

Definition sparse_values (t : Tensor) : Tensor :=
  let pos := nonzero_positions t in
  fresh (t_dtype t) (t_device t) [length pos] ((fun p => nth p (t_data t) 0) <$> pos).

(** Conversion to [torch.int16] wraps around. *)
Definition wrap_int16 (q : Qc) : Qc :=
  qz (((qfloor q + 32768) `mod` 65536) - 32768)%Z.

Definition to_int16 (t : Tensor) : Tensor :=
  if decide (t_dtype t = Int16) then t
  else fresh Int16 (t_device t) (t_shape t) (wrap_int16 <$> t_data t).

(** [torch.Tensor([n])] and [torch.tensor(shape)] *)
Definition tensor_of_number (n : nat) : Tensor := fresh Float32 Cpu [1%nat] [qn n].
Definition tensor_of_shape (sh : list nat) : Tensor :=
  fresh Int64 Cpu [length sh] (qn <$> sh).

(** ** List objects

    [extract_diff] rebinds its parameters [base_model] and [db_model] to new
    lists and then assigns to slots of these. To tell the lists of the
    caller from the lists that the function makes, list objects live in a
    heap, each at its address; a slot holds a model or [None]. A model is
    held by value, with its weights and biases: an operation that changes a
    model in place is an assignment to the slot that holds it, as in
    [merge], which returns the bundle with the models it has changed. *)

Abbreviation pylist := (list (option Module)).
Abbreviation heap := (list pylist).

(** A new list object, at the next free address. *)
Definition new_list (h : heap) (l : pylist) : heap * nat := (h ++ [l], length h).

(** [len(a)], [a[i]] and [a[i] = x] for the list at the address [a]. *)
Definition list_len (h : heap) (a : nat) : result nat :=
  match h !! a with
  | Some l => Ok (length l)
  | None => Raise NameError
  end.

Definition list_getitem (h : heap) (a i : nat) : result (option Module) :=
  match h !! a with
  | Some l => match l !! i with Some x => Ok x | None => Raise IndexError end
  | None => Raise NameError
  end.

Definition list_setitem (h : heap) (a i : nat) (x : option Module) : result heap :=
  match h !! a with
  | Some l =>
      if decide (i < length l)%nat then Ok (<[a := <[i := x]> l]> h) else Raise IndexError
  | None => Raise NameError
  end.

(** A slot read as a model: [None] has no [named_modules]. *)
Definition as_model (o : option Module) : result Module :=
  match o with
  | Some m => Ok m
  | None => Raise AttributeError
  end.

(** ** Extraction *)

(** A parameter read for arithmetic: the attribute must exist and hold a
    tensor. *)
Definition operand (o : option Tensor) : result Tensor :=
  match o with
  | Some t => Ok t
  | None => Raise TypeError
  end.

Section Extraction.
Variable svd : svd_oracle.
(** The arguments of [extract_diff] that its inner functions close over. *)
Variable mode : string.
Variables linear_mode_param conv_mode_param : Qc.
Variable extract_device : device.
Variable use_bias : bool.
Variable sparsity : Qc.
Variable small_conv : bool.

(** First half of [extract_lora] (up to the emission of the keys): the
    decomposition of the layer. It returns what the second half reads: the
    decomposition, in which [diff] is the residual carried forward, and the
    extra factor [extract_c] of the recompressed convolution, when there is
    one. *)
Definition decompose_layer (layer : string) (root_weight diff : Tensor)
  : result (decomposition * option Tensor) :=
  if decide (layer = "Linear") then
    d <- extract_linear svd diff mode linear_mode_param extract_device;;
    Ok (d, None)
  else if decide (layer = "Conv2d") then
    s2 <- size root_weight 2;;
    is_linear <- (if decide (s2 = 1%nat)
                  then s3 <- size root_weight 3;; Ok (bool_decide (s3 = 1%nat))
                  else Ok false);;
    d <- extract_conv svd diff mode
           (if is_linear then linear_mode_param else conv_mode_param)
           extract_device false;;
    match d with
    | LowRank extract_a extract_b diff =>
        if small_conv && negb is_linear then
          dim <- size extract_a 0;;
          ta <- transpose01 extract_a;;
          d2 <- extract_conv svd ta "fixed" (qn dim) extract_device true;;
          match d2 with
          | LowRank extract_c extract_a _ =>
              extract_a <- transpose01 extract_a;;
              extract_c <- transpose01 extract_c;;
              fa <- flatten1 extract_a;;
              fb <- flatten1 extract_b;;
              e <- einsum "i j k l, j r, p i -> p r k l" [extract_c; fa; fb];;
              diff <- sub root_weight (contiguous (cpu (detach e)));;
              Ok (LowRank extract_a extract_b diff, Some extract_c)
          | Full _ => Raise TypeError
          end
        else Ok (d, None)
    | Full _ => Ok (d, None)
    end
  else Raise NameError.

(** Second half of [extract_lora]: the keys written for the layer. *)
Definition emit_layer (lora_name : string) (d : decomposition)
    (extract_c : option Tensor) (loras : state_dict) : result state_dict :=
  let store t := half (contiguous (cpu (detach t))) in
  let loras := match extract_c with
               | Some c => <[lora_name +:+ ".lora_mid.weight" := store c]> loras
               | None => loras
               end in
  match d with
  | LowRank extract_a extract_b diff =>
      let loras := <[lora_name +:+ ".lora_down.weight" := store extract_a]> loras in
      let loras := <[lora_name +:+ ".lora_up.weight" := store extract_b]> loras in
      a0 <- size extract_a 0;;
      let loras := <[lora_name +:+ ".alpha" := half (tensor_of_number a0)]> loras in
      if use_bias then
        b0 <- size extract_b 0;;
        diff <- reshape (cpu (detach diff)) [Z.of_nat b0; (-1)%Z];;
        sp <- make_sparse diff sparsity;;
        let indices := to_int16 (sparse_indices sp) in
        let values := half (sparse_values sp) in
        let loras := <[lora_name +:+ ".bias_indices" := indices]> loras in
        let loras := <[lora_name +:+ ".bias_values" := values]> loras in
        Ok (<[lora_name +:+ ".bias_size" := to_int16 (tensor_of_shape (t_shape diff))]> loras)
      else Ok loras
  | Full weight =>
      Ok (<[lora_name +:+ ".diff" := store weight]> loras)
  end.

Definition extract_lora (prefix : string) (module child_module : Module)
    (name child_name : string) (loras : state_dict) (min_diff : Qc)
  : result state_dict :=
  let lora_name := prefix +:+ "." +:+ name
                   +:+ (if decide (child_name ≠ "") then "." +:+ child_name else "") in
  let lora_name := replace_dots lora_name in
  let layer := m_class module in
  rw <- getattr_weight module;;
  cw <- getattr_weight child_module;;
  root_weight <- operand rw;;
  child_weight <- operand cw;;
  same <- allclose root_weight child_weight;;
  if same then Ok loras
  else
    diff <- sub root_weight child_weight;;
    small <- (if qlt 0 min_diff
              then mx <- torch_max (t_data (abs diff));; Ok (qlt mx min_diff)
              else Ok false);;
    if small then Ok loras
    else
      dc <- decompose_layer layer root_weight diff;;
      emit_layer lora_name dc.1 dc.2 loras.

Definition is_layer (m : Module) : bool := is_in (m_class m) ["Linear"; "Conv2d"].

Definition make_state_dict (prefix : string) (root_module target_module : Module)
    (target_replace_modules target_replace_names : list string) (min_diff : Qc)
  : result state_dict :=
  let collect := fun (acc : gmap string (gmap string Module) * gmap string Module)
                     '(name, _, module) =>
    let '(temp, temp_name) := acc in
    if is_in (m_class module) target_replace_modules then
      (<[name := list_to_map
                   ((fun e => (e.1.1, e.2)) <$>
                      filter (fun e => is_layer e.2 = true) (named_modules module))]> temp,
       temp_name)
    else if is_in name target_replace_names then (temp, <[name := module]> temp_name)
    else acc in
  let '(temp, temp_name) := foldl collect (∅, ∅) (named_modules root_module) in
  foldM (fun loras '(name, _, module) =>
    match temp !! name with
    | Some child_modules =>
        foldM (fun loras '(child_name, _, child_module) =>
          if is_layer child_module then
            match child_modules !! child_name with
            | Some base_child =>
                extract_lora prefix child_module base_child name child_name loras min_diff
            | None => Raise KeyError
            end
          else Ok loras)
          (named_modules module) loras
    | None =>
        match temp_name !! name with
        | Some child_module =>
            if is_layer module
            then extract_lora prefix module child_module name "" loras min_diff
            else Ok loras
        | None => Ok loras
        end
    end)
    (named_modules target_module) ∅.

Definition extract_diff (base_model db_model : list Module) (min_diff : Qc)
  : result state_dict :=
  let isxl := bool_decide (length base_model = 6%nat) in
  let third := if isxl then 3%nat else 2%nat in
  b0 <- model_slot base_model 0;;
  b1 <- (if isxl then Some <$> model_slot base_model 1 else Ok None);;
  b2 <- model_slot base_model third;;
  d0 <- model_slot db_model 0;;
  d1 <- (if isxl then Some <$> model_slot db_model 1 else Ok None);;
  d2 <- model_slot db_model third;;
  let prefix_text_encoder :=
    if isxl then LORA_PREFIX_TEXT_ENCODER1 else LORA_PREFIX_TEXT_ENCODER in
  text_encoder_loras <-
    make_state_dict prefix_text_encoder b0 d0 TEXT_ENCODER_TARGET_REPLACE_MODULE [] min_diff;;
  text_encoder_loras2 <-
    match b1, d1 with
    | Some b1, Some d1 =>
        make_state_dict LORA_PREFIX_TEXT_ENCODER2 b1 d1
          TEXT_ENCODER_TARGET_REPLACE_MODULE [] min_diff
    | _, _ => Ok ∅
    end;;
  unet_loras <-
    make_state_dict LORA_PREFIX_UNET b2 d2
      UNET_TARGET_REPLACE_MODULE UNET_TARGET_REPLACE_NAME 0;;
  Ok (unet_loras ∪ (text_encoder_loras2 ∪ text_encoder_loras)).

(** [make_state_dict] on models read out of list slots. *)
Definition make_state_dict_of (prefix : string) (root_module target_module : option Module)
    (target_replace_modules target_replace_names : list string) (min_diff : Qc)
  : result state_dict :=
  root_module <- as_model root_module;;
  target_module <- as_model target_module;;
  make_state_dict prefix root_module target_module
    target_replace_modules target_replace_names min_diff.

(** The call of [extract_diff] as its caller sees it: the arguments
    [base_model] and [db_model] are the addresses of two list objects, and
    the call returns the mapping together with the heap it leaves. The
    function makes two new lists, rebinds its parameters to them, and later
    stores [None] into their slots; [del] unbinds the two names and has no
    effect on the heap. *)
Definition extract_diff_call (h : heap) (base_model db_model : nat) (min_diff : Qc)
  : result (state_dict * heap) :=
  n <- list_len h base_model;;
  let isxl := bool_decide (n = 6%nat) in
  let third := if isxl then 3%nat else 2%nat in
  b0 <- list_getitem h base_model 0;;
  b1 <- (if isxl then list_getitem h base_model 1 else Ok None);;
  b2 <- list_getitem h base_model third;;
  let '(h, base_model) := new_list h [b0; b1; b2] in
  d0 <- list_getitem h db_model 0;;
  d1 <- (if isxl then list_getitem h db_model 1 else Ok None);;
  d2 <- list_getitem h db_model third;;
  let '(h, db_model) := new_list h [d0; d1; d2] in
  let prefix_text_encoder :=
    if isxl then LORA_PREFIX_TEXT_ENCODER1 else LORA_PREFIX_TEXT_ENCODER in
  b <- list_getitem h base_model 0;;
  d <- list_getitem h db_model 0;;
  text_encoder_loras <-
    make_state_dict_of prefix_text_encoder b d TEXT_ENCODER_TARGET_REPLACE_MODULE []
      min_diff;;
  h <- list_setitem h base_model 0 None;;
  h <- list_setitem h db_model 0 None;;
  r <- (if isxl then
          b <- list_getitem h base_model 1;;
          d <- list_getitem h db_model 1;;
          text_encoder_loras2 <-
            make_state_dict_of LORA_PREFIX_TEXT_ENCODER2 b d
              TEXT_ENCODER_TARGET_REPLACE_MODULE [] min_diff;;
          h <- list_setitem h base_model 1 None;;
          h <- list_setitem h db_model 1 None;;
          Ok (text_encoder_loras2, h)
        else Ok (∅, h));;
  let '(text_encoder_loras2, h) := r in
  b <- list_getitem h base_model 2;;
  d <- list_getitem h db_model 2;;
  unet_loras <-
    make_state_dict_of LORA_PREFIX_UNET b d
      UNET_TARGET_REPLACE_MODULE UNET_TARGET_REPLACE_NAME 0;;
  Ok (unet_loras ∪ (text_encoder_loras2 ∪ text_encoder_loras), h).
End Extraction.

(** * Vocabulary of the statements

    Predicates in which the properties below are stated. *)

(** The rank as the specification words it: the number of singular values
    greater than or equal to the maximum times the ratio. *)
Definition ratio_rank_at_least (Sg : list Qc) (ratio m : Qc) : nat :=
  length (filter (fun s => m * ratio ≤ s) Sg).

(** What the source counts: the singular values strictly above it. *)
Definition ratio_rank_above (Sg : list Qc) (ratio m : Qc) : nat :=
  length (filter (fun s => m * ratio < s) Sg).

(** The words of the specification: the prefix of length [j] reaches the
    target, and [j] is the length of the smallest prefix that does. *)
Definition prefix_reaches (Sg : list Qc) (target : Qc) (j : nat) : Prop :=
  target ≤ qsum (take j Sg).

Definition smallest_reaching_prefix (Sg : list Qc) (target : Qc) (j : nat) : Prop :=
  prefix_reaches Sg target j ∧ ∀ i, (i < j)%nat → ¬ prefix_reaches Sg target i.

(** A multi-index within a shape. *)
Definition valid_index (sh idx : list nat) : Prop := Forall2 lt idx sh.

(** A tensor is well formed when it has as many elements as its shape says. *)
Definition wf (t : Tensor) : Prop := length (t_data t) = numel (t_shape t).

(** [2 ^ k] for an integer [k]. *)
Definition pow2 (k : Z) : Qc :=
  if (0 <=? k)%Z then qz (2 ^ k) else / qz (2 ^ (- k)).

(** The numbers of a binary floating-point type with [p] significant bits,
    the last of which has a weight between [2 ^ kmin] and [2 ^ kmax]:
    [n * 2 ^ k] with [|n| < 2 ^ p]. *)
Definition binary_float (p kmin kmax : Z) (x : Qc) : Prop :=
  ∃ n k : Z, (Z.abs n < 2 ^ p)%Z ∧ (kmin ≤ k ≤ kmax)%Z ∧ x = qz n * pow2 k.

(** The numbers that a tensor of the type holds exactly. The casts of the
    embedding ([to_dtype], [float], [half]) keep every element; a cast of the
    tensor runtime keeps the elements that the target type holds exactly and
    rounds the others, so what is stated of the elements after a cast is
    stated of tensors whose elements are representable in the target type. *)
Definition representable (dt : dtype) (x : Qc) : Prop :=
  match dt with
  | Float16 => binary_float 11 (-24) 5 x
  | Float32 => binary_float 24 (-149) 104 x
  | Int16 => ∃ z : Z, (-32768 ≤ z ≤ 32767)%Z ∧ x = qz z
  | Int64 => ∃ z : Z, (-9223372036854775808 ≤ z ≤ 9223372036854775807)%Z ∧ x = qz z
  end.

(** [x] clamped to the interval [[lo, hi]]. *)
Definition clamped (lo hi x : Qc) : Qc :=
  if decide (x ≤ lo) then lo else if decide (hi ≤ x) then hi else x.

(** The singular values that the decomposition of [w] works with. *)
Definition spectrum (svd : svd_oracle) (w : Tensor) : list Qc :=
  match linalg_svd svd w with
  | Ok (_, Sg, _) => t_data Sg
  | Raise _ => []
  end.

(** A tensor seen at another shape, as [reshape] returns it. *)
Definition view (sh : list nat) (t : Tensor) : Tensor :=
  mkTensor (t_storage t) (t_dtype t) (t_device t) sh (t_data t).

Definition is_fresh (t : Tensor) : Prop := t_storage t = FreshStorage.

(** What is asked of a returned tensor: a buffer that no parameter
    uses, on the CPU. *)
Definition fresh_on_cpu (t : Tensor) : Prop := is_fresh t ∧ t_device t = Cpu.

Definition decomposition_fresh (d : decomposition) : Prop :=
  match d with
  | Full w => is_fresh w
  | LowRank a b r => is_fresh a ∧ is_fresh b ∧ is_fresh r
  end.

(** Every list object of the heap [h0] is in the heap [h] what it was. *)
Definition keeps (h0 h : heap) : Prop := ∀ a l, h0 !! a = Some l → h !! a = Some l.

(** Every tensor of a dictionary is a buffer of its own, on the CPU. *)
Definition all_fresh_on_cpu (d : state_dict) : Prop :=
  ∀ k t, d !! k = Some t → fresh_on_cpu t.

(** [U], [Sg], [Vh] are an exact decomposition of the [m] by [n] matrix [D]:
    [D = U diag(Sg) Vh]. *)
Definition exact_svd (D U Sg Vh : Tensor) (m n : nat) : Prop :=
  ∀ i j, (i < m)%nat → (j < n)%nat →
    tget D [i; j]
    = sum_upto (m `min` n) (fun l => tget U [i; l] * tget Sg [l] * tget Vh [l; j]).

(** At most [r] singular values are not zero: the matrix has rank at most
    [r]. *)
Definition rank_at_most (r : nat) (Sg : Tensor) (p : nat) : Prop :=
  ∀ l, (r ≤ l < p)%nat → tget Sg [l] = 0.

(** The round trip: the extraction returned a low-rank pair whose product
    has the elements of [D], and merging the pair into [W] with scale 1 and
    [alpha = r] gives the elements of [W + D]. *)
Definition round_trip (extracted : result decomposition) (D W : Tensor)
    (bias : option Tensor) (r : nat) : Prop :=
  ∃ A B resid R M,
    extracted = Ok (LowRank A B resid)
    ∧ (u <- as_matrix B;; d <- as_matrix A;; matmul u d) = Ok R
    ∧ t_data R = t_data D
    ∧ rebuild_weight (Locon B A None (Some (tensor_of_number r))) (Some W) bias 1
      = Ok (Some M, bias)
    ∧ t_shape M = t_shape W
    ∧ t_data M = zip_with Qcplus (t_data W) (t_data D).

(** The linear combination of the vectors [L] with the coefficients [c], at
    the coordinate [a]. *)
Definition comb (c : list Qc) (L : list (nat → Qc)) (a : nat) : Qc :=
  qsum (zip_with (fun x v => x * v a) c L).

(** Elimination of the coordinate [r] with the pivot [v0]. *)
Definition eliminate (r : nat) (v0 v : nat → Qc) : nat → Qc :=
  fun b => v b - (v r / v0 r) * v0 b.

(** [D], seen as an [m] by [n] matrix, is the product of the [m] by [r]
    matrix [U0] and the [r] by [n] matrix [V0]. *)
Definition is_product (D U0 V0 : Tensor) (m r n : nat) : Prop :=
  ∀ i j, (i < m)%nat → (j < n)%nat →
    tget D [i; j] = sum_upto r (fun a => tget U0 [i; a] * tget V0 [a; j]).

(** The first [p] columns of [U] are orthonormal. *)
Definition orthonormal_columns (U : Tensor) (m p : nat) : Prop :=
  ∀ k k', (k < p)%nat → (k' < p)%nat →
    sum_upto m (fun i => tget U [i; k] * tget U [i; k'])
    = if decide (k = k') then 1 else 0.

(** The first [p] rows of [Vh] are orthonormal. *)
Definition orthonormal_rows (Vh : Tensor) (p n : nat) : Prop :=
  ∀ k k', (k < p)%nat → (k' < p)%nat →
    sum_upto n (fun j => tget Vh [k; j] * tget Vh [k'; j])
    = if decide (k = k') then 1 else 0.

(** The singular values are not negative and in descending order. *)
Definition descending (Sg : Tensor) (p : nat) : Prop :=
  ∀ k l, (k ≤ l)%nat → (l < p)%nat → 0 ≤ tget Sg [l] ∧ tget Sg [l] ≤ tget Sg [k].

(** What [torch.linalg.svd] promises of its result, in exact arithmetic. *)
Definition singular_value_decomposition (D U Sg Vh : Tensor) (m n : nat) : Prop :=
  exact_svd D U Sg Vh m n
  ∧ orthonormal_columns U m (m `min` n)
  ∧ orthonormal_rows Vh (m `min` n) n
  ∧ descending Sg (m `min` n).

(** The product of the returned factors at the position [(i, j)], over the
    singular values of index below [k]. *)
Definition svd_terms (U Sg Vh : Tensor) (k i j : nat) : Qc :=
  sum_upto k (fun l => tget U [i; l] * tget Sg [l] * tget Vh [l; j]).

(** The returned factors reproduce [D], seen as an [m] by [n] matrix, within
    [eps], element by element. *)
Definition svd_within (eps : Qc) (D U Sg Vh : Tensor) (m n : nat) : Prop :=
  ∀ i j, (i < m)%nat → (j < n)%nat →
    qabs (tget D [i; j] - svd_terms U Sg Vh (m `min` n) i j) ≤ eps.

(** The singular values of index [r] and above contribute at most [delta]
    to any element of the product. For a difference of rank [r] they are
    zero in an exact decomposition, and of the order of the rounding in a
    computed one. *)
Definition tail_within (delta : Qc) (U Sg Vh : Tensor) (m n r : nat) : Prop :=
  ∀ i j, (i < m)%nat → (j < n)%nat →
    qabs (svd_terms U Sg Vh (m `min` n) i j - svd_terms U Sg Vh r i j) ≤ delta.

(** The round trip within a tolerance: the extraction returned a low-rank
    pair whose product, an [m] by [n] matrix, is within [tol] of [D] element
    by element, and merging the pair into [W] with scale 1 and [alpha = r]
    gives a weight of the shape of [W] within [tol] of [W + D]. *)
Definition round_trip_within (tol : Qc) (extracted : result decomposition) (D W : Tensor)
    (bias : option Tensor) (r m n : nat) : Prop :=
  ∃ A B resid R M,
    extracted = Ok (LowRank A B resid)
    ∧ (u <- as_matrix B;; d <- as_matrix A;; matmul u d) = Ok R
    ∧ t_shape R = [m; n]
    ∧ (∀ i j, (i < m)%nat → (j < n)%nat →
         qabs (tget (view [m; n] D) [i; j] - tget R [i; j]) ≤ tol)
    ∧ rebuild_weight (Locon B A None (Some (tensor_of_number r))) (Some W) bias 1
      = Ok (Some M, bias)
    ∧ t_shape M = t_shape W
    ∧ (∀ i j, (i < m)%nat → (j < n)%nat →
         qabs (tget (view [m; n] W) [i; j] + tget (view [m; n] D) [i; j]
               - tget (view [m; n] M) [i; j]) ≤ tol).

(** * Decidable equality, decision procedures and example data *)

#[global] Instance error_eq_dec : EqDecision error.
Proof. solve_decision. Defined.
#[global] Instance result_eq_dec {A} `{EqDecision A} : EqDecision (result A).
Proof. solve_decision. Defined.

(** A decomposition oracle for the examples: for a matrix that is zero
    outside its main diagonal, with non-negative diagonal entries in
    descending order, [U = I], [Vh = I] and the diagonal is an exact singular
    value decomposition. *)
Definition eye (n : nat) : list Qc :=
  mk [n; n] (fun idx =>
    match idx with
    | [i; j] => if decide (i = j) then 1 else 0
    | _ => 0
    end).

Definition svd_diag : svd_oracle := fun m n d =>
  (eye m,
   mk [m `min` n] (fun idx => match idx with [i] => nth (i * n + i)%nat d 0 | _ => 0 end),
   eye n).

(** A parameter of a model and a tensor of a state dictionary. *)
Definition param (sh : list nat) (d : list Z) : Tensor :=
  mkTensor ParamStorage Float32 Cpu sh (qz <$> d).
Definition entry (dt : dtype) (sh : list nat) (d : list Z) : Tensor :=
  mkTensor FreshStorage dt Cpu sh (qz <$> d).

(** A 4 by 3 weight difference with singular values 3, 2, 1 and a
    5 by 1 by 2 by 2 one with singular values 2, 1, 0, 0. *)
Definition diff_linear : Tensor :=
  entry Float32 [4; 3]%nat [3; 0; 0;  0; 2; 0;  0; 0; 1;  0; 0; 0]%Z.
Definition diff_conv : Tensor :=
  entry Float32 [5; 1; 2; 2]%nat
    [2; 0; 0; 0;  0; 1; 0; 0;  0; 0; 0; 0;  0; 0; 0; 0;  0; 0; 0; 0]%Z.

#[global] Instance lyco_module_eq_dec : EqDecision lyco_module.
Proof. solve_decision. Defined.
#[global] Instance decomposition_eq_dec : EqDecision decomposition.
Proof. solve_decision. Defined.
#[global] Instance attribute_eq_dec : EqDecision attribute.
Proof. solve_decision. Defined.
#[global] Instance Module_eq_dec : EqDecision Module.
Proof.
  refine (fix go (m1 m2 : Module) {struct m1} : Decision (m1 = m2) :=
    match m1, m2 with
    | Mod c1 w1 b1 ch1, Mod c2 w2 b2 ch2 =>
        cast_if_and4 (decide (c1 = c2)) (decide (w1 = w2)) (decide (b1 = b2))
          (@list_eq_dec _ (@prod_eq_dec _ _ _ go) ch1 ch2)
    end); abstract congruence.
Defined.

(** A text encoder with one attention block holding one Linear layer, a
    placeholder for the second slot of the bundle, and a U-Net with one
    matched convolution. *)
Definition example_linear (w : Tensor) (b : option Tensor) : Module :=
  Mod "Linear" (Attr (Some w)) b [].
Definition example_text_encoder (w : Tensor) (b : option Tensor) : Module :=
  Mod "CLIPTextModel" NoAttr None
    [("text_model", Mod "CLIPTextTransformer" NoAttr None
        [("self_attn", Mod "CLIPAttention" NoAttr None
            [("q_proj", example_linear w b)])])].
Definition example_vae : Module := Mod "AutoencoderKL" NoAttr None [].
Definition example_unet (w : Tensor) : Module :=
  Mod "UNet2DConditionModel" NoAttr None
    [("conv_in", Mod "Conv2d" (Attr (Some w)) None [])].

Definition example_base_model : list Module :=
  [example_text_encoder (param [2; 2]%nat [1; 2; 3; 4]%Z) None;
   example_vae;
   example_unet (param [1; 1; 1; 1]%nat [7]%Z)].

(** A state that has an entry for the convolution of the U-Net only. *)
Definition example_state_unet_only : state_dict :=
  {[ "lora_unet_conv_in.diff" := entry Float16 [1; 1; 1; 1]%nat [1]%Z ]}.

(** A state with an entry for every candidate layer of the bundle. *)
Definition example_state_complete : state_dict :=
  <[ "lora_te_text_model_self_attn_q_proj.diff" := entry Float16 [2; 2]%nat [1; 0; 0; 1]%Z ]>
    example_state_unet_only.

(** The keys whose presence selects a kind in [get_module]. *)
Definition signature_suffixes : list string :=
  [".lora_up.weight"; ".hada_w1_a"; ".weight"; ".lokr_w1"; ".lokr_w1_a"; ".diff"; ".w_norm"].

(** The bundle after the complete state has been merged with scale 1. *)
Definition example_merged_model : list Module :=
  [example_text_encoder (param [2; 2]%nat [2; 2; 3; 5]%Z) None;
   example_vae;
   example_unet (param [1; 1; 1; 1]%nat [8]%Z)].

(** A fine-tuned 3 by 1 by 2 by 2 convolution weight, its base weight, and
    their difference, whose only non-zero entry is the first one. *)
Definition conv_finetuned : Tensor :=
  param [3; 1; 2; 2]%nat [3; 1; 1; 1;  1; 1; 1; 1;  1; 1; 1; 1]%Z.
Definition conv_base : Tensor :=
  param [3; 1; 2; 2]%nat [1; 1; 1; 1;  1; 1; 1; 1;  1; 1; 1; 1]%Z.
Definition conv_diff : Tensor :=
  entry Float32 [3; 1; 2; 2]%nat [2; 0; 0; 0;  0; 0; 0; 0;  0; 0; 0; 0]%Z.

(** A base bundle and a fine-tuned bundle: the Linear layer of the text
    encoder and the convolution of the U-Net differ in their first weight. *)
Definition example_base_bundle : list Module :=
  [example_text_encoder (param [2; 2]%nat [1; 2; 3; 4]%Z) None;
   example_vae;
   example_unet conv_base].
Definition example_finetuned_bundle : list Module :=
  [example_text_encoder (param [2; 2]%nat [2; 2; 3; 4]%Z) None;
   example_vae;
   example_unet conv_finetuned].

(** What [extract_diff] returns for them with [mode = 'fixed'], rank 1,
    [use_bias = True], [sparsity = 1/2] and [small_conv = True]. *)
Definition example_extracted : state_dict :=
  list_to_map
    [("lora_te_text_model_self_attn_q_proj.diff", entry Float16 [2; 2]%nat [1; 0; 0; 0]%Z);
     ("lora_unet_conv_in.lora_down.weight", entry Float16 [1; 1; 1; 1]%nat [1]%Z);
     ("lora_unet_conv_in.lora_up.weight", entry Float16 [3; 1; 1; 1]%nat [2; 0; 0]%Z);
     ("lora_unet_conv_in.lora_mid.weight", entry Float16 [1; 1; 2; 2]%nat [1; 0; 0; 0]%Z);
     ("lora_unet_conv_in.alpha", entry Float16 [1]%nat [1]%Z);
     ("lora_unet_conv_in.bias_indices",
      entry Int16 [2; 12]%nat
        [0; 0; 0; 0; 1; 1; 1; 1; 2; 2; 2; 2;  0; 1; 2; 3; 0; 1; 2; 3; 0; 1; 2; 3]%Z);
     ("lora_unet_conv_in.bias_values",
      entry Float16 [12]%nat [1; 1; 1; 1; 1; 1; 1; 1; 1; 1; 1; 1]%Z);
     ("lora_unet_conv_in.bias_size", entry Int16 [2]%nat [3; 4]%Z)].

(** Decision procedures for the hypotheses, for the examples. *)
Definition check_exact_svd (D U Sg Vh : Tensor) (m n : nat) : bool :=
  forallb (fun i =>
    forallb (fun j =>
      bool_decide
        (tget D [i; j]
         = sum_upto (m `min` n) (fun l => tget U [i; l] * tget Sg [l] * tget Vh [l; j])))
      (seq 0 n))
    (seq 0 m).

Definition check_is_product (D U0 V0 : Tensor) (m r n : nat) : bool :=
  forallb (fun i =>
    forallb (fun j =>
      bool_decide
        (tget D [i; j] = sum_upto r (fun a => tget U0 [i; a] * tget V0 [a; j])))
      (seq 0 n))
    (seq 0 m).

Definition check_orthonormal_columns (U : Tensor) (m p : nat) : bool :=
  forallb (fun k =>
    forallb (fun k' =>
      bool_decide
        (sum_upto m (fun i => tget U [i; k] * tget U [i; k'])
         = if decide (k = k') then 1 else 0))
      (seq 0 p))
    (seq 0 p).

Definition check_orthonormal_rows (Vh : Tensor) (p n : nat) : bool :=
  forallb (fun k =>
    forallb (fun k' =>
      bool_decide
        (sum_upto n (fun j => tget Vh [k; j] * tget Vh [k'; j])
         = if decide (k = k') then 1 else 0))
      (seq 0 p))
    (seq 0 p).

Definition check_descending (Sg : Tensor) (p : nat) : bool :=
  forallb (fun l =>
    forallb (fun k => qle 0 (tget Sg [l]) && qle (tget Sg [l]) (tget Sg [k]))
      (seq 0 (S l)))
    (seq 0 p).

Definition check_singular_value_decomposition (D U Sg Vh : Tensor) (m n : nat) : bool :=
  check_exact_svd D U Sg Vh m n
  && check_orthonormal_columns U m (m `min` n)
  && check_orthonormal_rows Vh (m `min` n) n
  && check_descending Sg (m `min` n).

Definition check_svd_within (eps : Qc) (D U Sg Vh : Tensor) (m n : nat) : bool :=
  forallb (fun i =>
    forallb (fun j =>
      bool_decide (qabs (tget D [i; j] - svd_terms U Sg Vh (m `min` n) i j) ≤ eps))
      (seq 0 n))
    (seq 0 m).

Definition check_tail_within (delta : Qc) (U Sg Vh : Tensor) (m n r : nat) : bool :=
  forallb (fun i =>
    forallb (fun j =>
      bool_decide
        (qabs (svd_terms U Sg Vh (m `min` n) i j - svd_terms U Sg Vh r i j) ≤ delta))
      (seq 0 n))
    (seq 0 m).

(** The singular value decomposition that the oracle of the examples gives
    for a tensor seen as an [m] by [n] matrix. *)
Definition svd_of (svd : svd_oracle) (w : Tensor) : Tensor * Tensor * Tensor :=
  match linalg_svd svd w with
  | Ok usv => usv
  | Raise _ => (w, w, w)
  end.

(** Factors of inner dimension 2 whose product is [diff_conv] seen as a 5 by
    4 matrix: [diff_conv] is a rank-2 difference, and [2 < 5/2]. *)
Definition diff_conv_U : Tensor :=
  entry Float32 [5; 2]%nat [2; 0;  0; 1;  0; 0;  0; 0;  0; 0]%Z.
Definition diff_conv_V : Tensor :=
  entry Float32 [2; 4]%nat [1; 0; 0; 0;  0; 1; 0; 0]%Z.

(** A rank-one 4 by 3 difference with its factors, and the weight it is
    merged into; the factors of [conv_diff] seen as a 3 by 4 matrix. *)
Definition diff_rank_one : Tensor :=
  entry Float32 [4; 3]%nat [3; 0; 0;  0; 0; 0;  0; 0; 0;  0; 0; 0]%Z.
Definition diff_rank_one_U : Tensor := entry Float32 [4; 1]%nat [3; 0; 0; 0]%Z.
Definition diff_rank_one_V : Tensor := entry Float32 [1; 3]%nat [1; 0; 0]%Z.
Definition weight_linear : Tensor :=
  param [4; 3]%nat [1; 2; 3;  4; 5; 6;  7; 8; 9;  10; 11; 12]%Z.
Definition conv_diff_U : Tensor := entry Float32 [3; 1]%nat [1; 0; 0]%Z.
Definition conv_diff_V : Tensor := entry Float32 [1; 4]%nat [2; 0; 0; 0]%Z.

(** A 4 by 3 difference of rank one that is not diagonal, [5 u v^T] with
    [u = (3/5, 4/5, 0, 0)] and [v = (1, 0, 0)], and an oracle that returns
    for it what a computed decomposition looks like: an orthogonal [U] whose
    first column is [u], the identity as [Vh], and singular values that are
    off by [1/1024]: [5121/1024, 1/1024, 0] instead of [5, 0, 0]. For
    matrices of other shapes the oracle is [svd_diag]. *)
Definition diff_rotated : Tensor :=
  entry Float32 [4; 3]%nat [3; 0; 0;  4; 0; 0;  0; 0; 0;  0; 0; 0]%Z.
Definition svd_rounded : svd_oracle := fun m n d =>
  if decide (m = 4%nat ∧ n = 3%nat) then
    ([qfrac 3 5; qfrac (-4) 5; qz 0; qz 0;
      qfrac 4 5; qfrac 3 5; qz 0; qz 0;
      qz 0; qz 0; qz 1; qz 0;
      qz 0; qz 0; qz 0; qz 1],
     [qfrac 5121 1024; qfrac 1 1024; qz 0],
     eye 3)
  else svd_diag m n d.

(** * Vocabulary of the further properties *)

(** ** Keys of an extracted mapping *)

(** The suffixes of the keys that [extract_lora] writes for a layer, given
    its decomposition and the middle factor of a recompressed convolution. *)
Definition written_suffixes (use_bias : bool) (d : decomposition) (extract_c : option Tensor)
  : list string :=
  (match extract_c with Some _ => [".lora_mid.weight"] | None => [] end)
  ++ match d with
     | Full _ => [".diff"]
     | LowRank _ _ _ =>
         [".lora_down.weight"; ".lora_up.weight"; ".alpha"]
         ++ (if use_bias then [".bias_indices"; ".bias_values"; ".bias_size"] else [])
     end.

(** Every suffix that the extraction can write. *)
Definition emitted_suffixes : list string :=
  [".lora_mid.weight"; ".lora_down.weight"; ".lora_up.weight"; ".alpha";
   ".bias_indices"; ".bias_values"; ".bias_size"; ".diff"].

(** The prefixes under which [extract_diff] files the layers of the text
    encoders and of the U-Net. *)
Definition LORA_PREFIXES : list string :=
  [LORA_PREFIX_TEXT_ENCODER; LORA_PREFIX_TEXT_ENCODER1; LORA_PREFIX_TEXT_ENCODER2;
   LORA_PREFIX_UNET].

(** The shape of a key of an extracted mapping: the name of a layer below one
    of the prefixes, with its dots replaced, followed by one of the
    suffixes. *)
Definition extracted_key (k : string) : Prop :=
  ∃ prefix rest s,
    prefix ∈ LORA_PREFIXES ∧ s ∈ emitted_suffixes
    ∧ k = replace_dots (prefix +:+ "." +:+ rest) +:+ s.

(** Whether a name still has a dot. *)
Fixpoint has_dot (s : string) : bool :=
  match s with
  | EmptyString => false
  | String c s' => bool_decide (c = "."%char) || has_dot s'
  end.

(** The invariant of an extracted mapping that [get_module] relies on: the
    keys are dot-free names followed by a written suffix, and an up factor
    never comes without its down factor and its [alpha]. *)
Definition readable (l : state_dict) : Prop :=
  (∀ k, is_Some (l !! k) →
     ∃ n s, has_dot n = false ∧ s ∈ emitted_suffixes ∧ k = n +:+ s)
  ∧ (∀ n, has_dot n = false → is_Some (l !! (n +:+ ".lora_up.weight")) →
       is_Some (l !! (n +:+ ".lora_down.weight")) ∧ is_Some (l !! (n +:+ ".alpha"))).

(** ** Modes of the rank selection *)

Definition known_modes : list string :=
  ["fixed"; "threshold"; "ratio"; "quantile"; "percentile"].

(** The parameters that the assertions of the modes reject. *)
Definition rejected_param (mode : string) (mode_param : Qc) : Prop :=
  (mode = "threshold" ∧ mode_param < 0)
  ∨ (mode ∈ ["ratio"; "quantile"; "percentile"] ∧ (mode_param < 0 ∨ 1 < mode_param)).

(** The tensor operations of the decomposition fail with errors of the
    runtime only, never with those of the mode dispatch. *)
Definition runtime_failure (e : error) : Prop :=
  e ≠ NotImplementedError ∧ e ≠ AssertionError.

(** ** Layout of a model *)

(** A tensor without its contents: what stays of a parameter when values are
    written into it and it is moved to a device. *)
Definition blank (t : Tensor) : Tensor :=
  mkTensor (t_storage t) (t_dtype t) Cpu (t_shape t) [].

(** A model without the contents of its parameters: the tree of modules with
    their classes and names, and the shape, the type and the buffer of every
    weight and bias. *)
Fixpoint skeleton (m : Module) : Module :=
  Mod (m_class m)
      (match m_weight m with
       | Attr (Some t) => Attr (Some (blank t))
       | w => w
       end)
      (blank <$> m_bias m)
      ((fix go (l : list (string * Module)) :=
          match l with
          | [] => []
          | (k, c) :: l' => (k, skeleton c) :: go l'
          end) (m_children m)).

(** The weight after a difference has been written into its buffer. *)
Definition merged_weight (W D : Tensor) (scale : Qc) : Tensor :=
  mkTensor (t_storage W) (t_dtype W) (t_device W) (t_shape W)
    (zip_with Qcplus (t_data W) ((fun x => x * scale) <$> t_data D)).

(** A U-Net in which a Linear layer lies below an Attention module that
    itself lies below a Transformer2DModel. *)
Definition nested_unet (W : Tensor) : Module :=
  Mod "UNet2DConditionModel" NoAttr None
    [("block", Mod "Transformer2DModel" NoAttr None
        [("attn", Mod "Attention" NoAttr None
            [("to_q", Mod "Linear" (Attr (Some W)) None [])])])].

(** The names under which [named_modules] lists the modules of a tree. *)
Definition module_names (m : Module) : list string :=
  (fun e => e.1.1) <$> named_modules m.

(** Whether the [weight] attribute of a module holds a tensor. *)
Definition has_weight (m : Module) : bool :=
  match m_weight m with Attr (Some _) => true | _ => false end.

(** What the tensor runtime guarantees of a model: in every module of the
    tree the names of the submodules are distinct, and every Linear or
    Conv2d layer has a weight. *)
Definition regular_model (m : Module) : Prop :=
  Forall (fun e =>
    NoDup (module_names e.2)
    ∧ Forall (fun e' => is_layer e'.2 = true → has_weight e'.2 = true) (named_modules e.2))
    (named_modules m).

(** The first loop of [make_state_dict]: the layers of the target modules,
    by name of the module and name of the layer, and the modules with a
    target name. *)
Definition layer_map (m : Module) : gmap string Module :=
  list_to_map ((fun e => (e.1.1, e.2)) <$>
                 filter (fun e => is_layer e.2 = true) (named_modules m)).

(** One step of that loop. *)
Definition collect_targets (mods names : list string)
    (acc : gmap string (gmap string Module) * gmap string Module)
    (e : string * list nat * Module)
  : gmap string (gmap string Module) * gmap string Module :=
  let '(name, _, module) := e in
  let '(temp, temp_name) := acc in
  if is_in (m_class module) mods then (<[name := layer_map module]> temp, temp_name)
  else if is_in name names then (temp, <[name := module]> temp_name)
  else acc.

(** * Tactics *)

(** Closed facts are checked by evaluation. *)
Ltac by_evaluation :=
  lazymatch goal with
  | |- ?P => apply (@bool_decide_unpack P _); vm_compute; exact I
  end.

Ltac numel_solve :=
  cbn [numel fold_right]; rewrite ?Nat.mul_1_r; try done; try lia; try nia.

Ltac bind_cases :=
  repeat (cbn [bind];
          match goal with
          | |- context [bind ?r _] => destruct r as [?|?]
          | |- context [let '(_, _) := ?p in _] => destruct p
          end); cbn [bind].

(** Inversion of a successful chain of binds. *)
Ltac inv_bind H :=
  repeat (cbn [bind] in H;
    match type of H with
    | bind ?r _ = Ok _ =>
        let E := fresh "E" in destruct r eqn:E; cbn [bind] in H; [|discriminate H]
    | (let '(_, _) := ?p in _) = Ok _ => destruct p
    | Raise _ = Ok _ => discriminate H
    end).

(** * Properties *)

(** ** Comparisons *)

Lemma qlt_true a b : qlt a b = true ↔ a < b.
Proof. unfold qlt. apply bool_decide_eq_true. Qed.

Lemma qlt_false a b : qlt a b = false ↔ b ≤ a.
Proof.
  unfold qlt. rewrite bool_decide_eq_false. split.
  - apply Qcnot_lt_le.
  - intros H Hlt. exact (Qcle_not_lt _ _ H Hlt).
Qed.

Lemma qle_true a b : qle a b = true ↔ a ≤ b.
Proof. unfold qle. apply bool_decide_eq_true. Qed.

Lemma qle_false a b : qle a b = false ↔ b < a.
Proof.
  unfold qle. rewrite bool_decide_eq_false. split.
  - apply Qcnot_le_lt.
  - intros H Hle. exact (Qclt_not_le _ _ H Hle).
Qed.

Lemma py_max_spec a b : a ≤ py_max a b ∧ b ≤ py_max a b ∧ (py_max a b = a ∨ py_max a b = b).
Proof.
  unfold py_max. destruct (qlt a b) eqn:E.
  - apply qlt_true in E. split; [by apply Qclt_le_weak|]. split; [apply Qcle_refl | by right].
  - apply qlt_false in E. split; [apply Qcle_refl|]. split; [done | by left].
Qed.

Lemma py_min_spec a b : py_min a b ≤ a ∧ py_min a b ≤ b ∧ (py_min a b = a ∨ py_min a b = b).
Proof.
  unfold py_min. destruct (qlt b a) eqn:E.
  - apply qlt_true in E. split; [by apply Qclt_le_weak|]. split; [apply Qcle_refl | by right].
  - apply qlt_false in E. split; [apply Qcle_refl|]. split; [done | by left].
Qed.

(** [torch.max] returns the greatest element. *)
Lemma foldl_py_max_spec l x :
  x ≤ foldl py_max x l ∧ (∀ s, s ∈ l → s ≤ foldl py_max x l)
  ∧ (foldl py_max x l = x ∨ foldl py_max x l ∈ l).
Proof.
  revert x. induction l as [|y l IH]; intros x; simpl.
  - split; [apply Qcle_refl|]. split; [|by left]. intros s Hs. by apply elem_of_nil in Hs.
  - destruct (IH (py_max x y)) as (H1 & H2 & H3).
    destruct (py_max_spec x y) as (Hx & Hy & Hxy).
    split; [by eapply Qcle_trans|]. split.
    + intros s [->|Hs]%elem_of_cons; [by eapply Qcle_trans | by apply H2].
    + destruct H3 as [H3|H3].
      * rewrite H3. destruct Hxy as [->| ->]; [by left | right; apply elem_of_cons; by left].
      * right. apply elem_of_cons. by right.
Qed.

Lemma torch_max_spec l m :
  torch_max l = Ok m ↔ l ≠ [] ∧ m ∈ l ∧ ∀ s, s ∈ l → s ≤ m.
Proof.
  destruct l as [|x l]; simpl.
  - split; [discriminate | by intros [? _]].
  - destruct (foldl_py_max_spec l x) as (H1 & H2 & H3). split.
    + intros [= <-]. split; [done|]. split.
      * destruct H3 as [-> | H3]; apply elem_of_cons; [by left | by right].
      * intros s [->|Hs]%elem_of_cons; [done | by apply H2].
    + intros (_ & Hm & Hle). f_equal. apply Qcle_antisym.
      * apply Hle. destruct H3 as [-> | H3]; apply elem_of_cons; [by left | by right].
      * apply elem_of_cons in Hm as [->|Hm]; [done | by apply H2].
Qed.

(** ** Rank selection in ['ratio'] mode *)

Lemma count_where_filter (P : Qc → bool) (Q : Qc → Prop) `{!∀ x, Decision (Q x)} l :
  (∀ x, P x = true ↔ Q x) → count_where P l = length (filter Q l).
Proof.
  intros HPQ. unfold count_where. f_equal. apply list_filter_iff. intros x. apply HPQ.
Qed.

Lemma filter_none {A} (P : A → Prop) `{!∀ x, Decision (P x)} (l : list A) :
  (∀ x, x ∈ l → ¬ P x) → filter P l = [].
Proof.
  induction l as [|x l IH]; intros Hl; [done|].
  rewrite filter_cons. rewrite decide_False.
  - apply IH. intros y Hy. apply Hl, elem_of_cons. by right.
  - apply Hl, elem_of_cons. by left.
Qed.

Lemma filter_all {A} (P : A → Prop) `{!∀ x, Decision (P x)} (l : list A) :
  (∀ x, x ∈ l → P x) → filter P l = l.
Proof.
  induction l as [|x l IH]; intros Hl; [done|].
  rewrite filter_cons. rewrite decide_True.
  - f_equal. apply IH. intros y Hy. apply Hl, elem_of_cons. by right.
  - apply Hl, elem_of_cons. by left.
Qed.

(** On a spectrum sorted in descending order the values above a threshold
    are a prefix. *)
Lemma filter_above_sorted (t : Qc) (l : list Qc) :
  StronglySorted (flip Qcle) l →
  filter (fun s => t < s) l = take (length (filter (fun s => t < s) l)) l.
Proof.
  induction 1 as [|x l Hs IH Hx]; [done|].
  rewrite filter_cons. case_decide as Hd; simpl.
  - by rewrite <- IH.
  - assert (filter (fun s => t < s) l = []) as ->; [|done].
    apply filter_none. intros y Hy Hty.
    rewrite Forall_forall in Hx. apply Hd. eapply Qclt_le_trans; [done|]. by apply Hx.
Qed.

(** C4, counterexample. With the spectrum [[2; 1]] and the ratio [1/2] the
    maximum is [2] and two singular values are at least [2 * 1/2], yet the
    source selects the rank 1: the value equal to the threshold is not
    counted. *)
Lemma ratio_rank_counterexample :
  torch_max [qz 2; qz 1] = Ok (qz 2)
  ∧ ratio_rank_at_least [qz 2; qz 1] (qfrac 1 2) (qz 2) = 2%nat
  ∧ select_rank "ratio" (qfrac 1 2) [qz 2; qz 1] = Ok (qn 1)
  ∧ select_rank "ratio" (qfrac 1 2) [qz 2; qz 1]
    ≠ Ok (qn (ratio_rank_at_least [qz 2; qz 1] (qfrac 1 2) (qz 2))).
Proof. by_evaluation. Qed.

(** C4, amended. In exact arithmetic (the threshold is the product
    [m * ratio] itself, not its rounding to [float32]): in ['ratio'] mode,
    for a ratio in [[0, 1]] and a spectrum whose maximum is [m], the rank
    selected before clamping is the number of singular values strictly
    greater than [m * ratio]; when the spectrum is sorted in descending
    order these values are exactly its first [rank] entries. *)
Theorem ratio_rank_counts_strictly_above (Sg : list Qc) (ratio m : Qc) :
  0 ≤ ratio → ratio ≤ 1 → m ∈ Sg → (∀ s, s ∈ Sg → s ≤ m) →
  select_rank "ratio" ratio Sg = Ok (qn (ratio_rank_above Sg ratio m))
  ∧ (StronglySorted (flip Qcle) Sg →
     take (ratio_rank_above Sg ratio m) Sg = filter (fun s => m * ratio < s) Sg).
Proof.
  intros H0 H1 Hm Hmax. split.
  - unfold select_rank. simpl.
    apply qle_true in H0, H1. rewrite H0, H1. simpl.
    assert (torch_max Sg = Ok m) as ->.
    { apply torch_max_spec. split; [|done]. intros ->. by apply elem_of_nil in Hm. }
    simpl. do 2 f_equal. apply count_where_filter. intros s. apply qlt_true.
  - intros Hs. unfold ratio_rank_above. symmetry. by apply filter_above_sorted.
Qed.

Lemma ratio_rank_counts_strictly_above_witness :
  select_rank "ratio" (qfrac 1 2) [qz 2; qz 1]
  = Ok (qn (ratio_rank_above [qz 2; qz 1] (qfrac 1 2) (qz 2)))
  ∧ (StronglySorted (flip Qcle) [qz 2; qz 1] →
     take (ratio_rank_above [qz 2; qz 1] (qfrac 1 2) (qz 2)) [qz 2; qz 1]
     = filter (fun s => qz 2 * qfrac 1 2 < s) [qz 2; qz 1]).
Proof.
  apply (ratio_rank_counts_strictly_above [qz 2; qz 1] (qfrac 1 2) (qz 2)).
  - by_evaluation.
  - by_evaluation.
  - by_evaluation.
  - intros s Hs. revert s Hs. apply Forall_forall. by_evaluation.
Defined.

(** ** Rank selection in ['quantile'] mode *)

Lemma qsum_nonneg l : (∀ s, s ∈ l → 0 ≤ s) → 0 ≤ qsum l.
Proof.
  induction l as [|x l IH]; intros Hl; simpl; [apply Qcle_refl|].
  apply Qcplus_nonneg_nonneg.
  - apply Hl, elem_of_cons. by left.
  - apply IH. intros s Hs. apply Hl, elem_of_cons. by right.
Qed.

(** Once the running sum has reached the target, no later cumulative sum is
    below it. *)
Lemma cumsum_from_reached (target acc : Qc) (l : list Qc) :
  (∀ s, s ∈ l → 0 ≤ s) → target ≤ acc →
  filter (fun c => c < target) (cumsum_from acc l) = [].
Proof.
  revert acc. induction l as [|x l IH]; intros acc Hl Hacc; [done|].
  simpl. assert (0 ≤ x) as Hx by (apply Hl, elem_of_cons; by left).
  assert (target ≤ acc + x) as Hax.
  { eapply Qcle_trans; [exact Hacc|]. rewrite <- (Qcplus_0_r acc) at 1.
    by apply Qcplus_le_mono_l. }
  rewrite filter_cons, decide_False; [|by apply Qcle_not_lt].
  apply IH; [|done]. intros s Hs. apply Hl, elem_of_cons. by right.
Qed.

(** While the running sum is below a target that the whole sum reaches, the
    number of cumulative sums below the target is one less than the length
    of the first prefix that reaches it. *)
Lemma cumsum_from_below (target acc : Qc) (l : list Qc) :
  (∀ s, s ∈ l → 0 ≤ s) → acc < target → target ≤ acc + qsum l →
  let k := length (filter (fun c => c < target) (cumsum_from acc l)) in
  target ≤ acc + qsum (take (S k) l)
  ∧ ∀ i, (i ≤ k)%nat → acc + qsum (take i l) < target.
Proof.
  revert acc. induction l as [|x l IH]; intros acc Hl Hlt Hle.
  - simpl in Hle. rewrite Qcplus_0_r in Hle. by apply Qcle_not_lt in Hle.
  - assert (∀ s, s ∈ l → 0 ≤ s) as Hl'.
    { intros s Hs. apply Hl, elem_of_cons. by right. }
    simpl cumsum_from. rewrite filter_cons. case_decide as Hd.
    + simpl in Hle. rewrite Qcplus_assoc in Hle.
      destruct (IH (acc + x) Hl' Hd Hle) as [IH1 IH2].
      simpl length. split.
      * change (take (S (S ?n)) (x :: l)) with (x :: take (S n) l).
        simpl qsum. by rewrite Qcplus_assoc.
      * intros [|i] Hi.
        -- simpl. by rewrite Qcplus_0_r.
        -- simpl. rewrite Qcplus_assoc. apply IH2. lia.
    + apply Qcnot_lt_le in Hd.
      rewrite (cumsum_from_reached target (acc + x) l Hl' Hd). simpl. split.
      * by rewrite Qcplus_0_r.
      * intros i Hi. assert (i = 0%nat) as -> by lia. simpl. by rewrite Qcplus_0_r.
Qed.

(** C3, counterexample. For the spectrum [[3; 1]] and [q = 1/2] the target is
    [2]; the smallest prefix whose sum reaches it has length 1 (the empty
    prefix does not reach it), but the source selects the rank 0. *)
Lemma quantile_rank_counterexample :
  select_rank "quantile" (qfrac 1 2) [qz 3; qz 1] = Ok (qn 0)
  ∧ smallest_reaching_prefix [qz 3; qz 1] (qfrac 1 2 * qsum [qz 3; qz 1]) 1
  ∧ ¬ smallest_reaching_prefix [qz 3; qz 1] (qfrac 1 2 * qsum [qz 3; qz 1]) 0.
Proof.
  split; [by_evaluation|]. split.
  - split; [unfold prefix_reaches; by_evaluation|].
    intros i Hi. assert (i = 0%nat) as -> by lia. unfold prefix_reaches. by_evaluation.
  - intros [H _]. revert H. unfold prefix_reaches. by_evaluation.
Qed.

(** C3, amended. In exact arithmetic (the cumulative sums, the total and
    the target [q * total] are the numbers themselves, not their roundings
    to [float32]): in ['quantile'] (or ['percentile']) mode, for a spectrum
    of non-negative singular values and [q] in [[0, 1]], the rank selected
    before clamping is the number of cumulative sums strictly below
    [q * total]: it is 0 when [q * total] is 0, and otherwise it is one less
    than the length of the smallest prefix whose sum reaches [q * total]. *)
Theorem quantile_rank_below_target (mode : string) (Sg : list Qc) (q : Qc) :
  mode = "quantile" ∨ mode = "percentile" →
  (∀ s, s ∈ Sg → 0 ≤ s) → 0 ≤ q → q ≤ 1 →
  ∃ k : nat,
    select_rank mode q Sg = Ok (qn k)
    ∧ k = count_where (fun c => qlt c (q * qsum Sg)) (cumsum Sg)
    ∧ if decide (q * qsum Sg ≤ 0) then k = 0%nat
      else smallest_reaching_prefix Sg (q * qsum Sg) (S k).
Proof.
  intros Hmode Hnn H0 H1.
  exists (count_where (fun c => qlt c (q * qsum Sg)) (cumsum Sg)).
  split; [|split; [done|]].
  - unfold select_rank.
    assert (mode ≠ "fixed" ∧ mode ≠ "threshold" ∧ mode ≠ "ratio") as (?&?&?).
    { by destruct Hmode as [-> | ->]. }
    rewrite !decide_False by done. rewrite decide_True by done.
    apply qle_true in H0, H1. by rewrite H0, H1.
  - rewrite (count_where_filter _ (fun c => c < q * qsum Sg))
      by (intros x; apply qlt_true).
    unfold cumsum. case_decide as Hd.
    + by rewrite cumsum_from_reached.
    + apply Qcnot_le_lt in Hd.
      assert (0 ≤ qsum Sg) as HT by by apply qsum_nonneg.
      assert (q * qsum Sg ≤ 0 + qsum Sg) as Hle.
      { rewrite Qcplus_0_l. rewrite <- (Qcmult_1_l (qsum Sg)) at 2.
        by apply Qcmult_le_mono_nonneg_r. }
      destruct (cumsum_from_below _ 0 Sg Hnn Hd Hle) as [B1 B2].
      split.
      * unfold prefix_reaches. by rewrite Qcplus_0_l in B1.
      * intros i Hi. unfold prefix_reaches. apply Qclt_not_le.
        rewrite <- (Qcplus_0_l (qsum (take i Sg))). apply B2. lia.
Qed.

Lemma quantile_rank_below_target_witness :
  ∃ k : nat,
    select_rank "quantile" (qfrac 3 4) [qz 2; qz 1; qz 1] = Ok (qn k)
    ∧ k = count_where (fun c => qlt c (qfrac 3 4 * qsum [qz 2; qz 1; qz 1]))
            (cumsum [qz 2; qz 1; qz 1])
    ∧ if decide (qfrac 3 4 * qsum [qz 2; qz 1; qz 1] ≤ 0) then k = 0%nat
      else smallest_reaching_prefix [qz 2; qz 1; qz 1]
             (qfrac 3 4 * qsum [qz 2; qz 1; qz 1]) (S k).
Proof.
  apply (quantile_rank_below_target "quantile" [qz 2; qz 1; qz 1] (qfrac 3 4)).
  - by left.
  - intros s Hs. revert s Hs. apply Forall_forall. by_evaluation.
  - by_evaluation.
  - by_evaluation.
Defined.

(** ** Contents of tensors *)

Lemma length_mk sh f : length (mk sh f) = numel sh.
Proof.
  revert f. induction sh as [|d sh IH]; intros f; [done|].
  simpl. rewrite (flat_map_constant_length (c := numel sh)).
  - by rewrite length_seq.
  - intros i _. apply IH.
Qed.

Lemma flat_index_lt sh idx : valid_index sh idx → (flat_index sh idx < numel sh)%nat.
Proof.
  intros H. induction H as [|i d idx sh Hi _ IH]; simpl; [lia|]. nia.
Qed.

Lemma nth_flat_map_blocks (g : nat → list Qc) (N s d i j : nat) :
  (∀ a, length (g a) = N) → (i < d)%nat → (j < N)%nat →
  nth (i * N + j) (flat_map g (seq s d)) 0 = nth j (g (s + i)%nat) 0.
Proof.
  intros Hg. revert s i. induction d as [|d IH]; intros s i Hi Hj; [lia|].
  simpl. destruct i as [|i].
  - rewrite app_nth1 by (rewrite Hg; lia). by rewrite Nat.add_0_r.
  - rewrite app_nth2 by (rewrite Hg; nia). rewrite Hg.
    replace (S i * N + j - N)%nat with (i * N + j)%nat by lia.
    rewrite IH by lia. f_equal. f_equal. lia.
Qed.

Lemma nth_mk sh f idx :
  valid_index sh idx → nth (flat_index sh idx) (mk sh f) 0 = f idx.
Proof.
  intros H. revert f. induction H as [|i d idx sh Hi Hv IH]; intros f; [done|].
  simpl. rewrite (nth_flat_map_blocks _ (numel sh)).
  - apply (IH (fun idx => f (i :: idx))).
  - intros a. apply length_mk.
  - done.
  - by apply flat_index_lt.
Qed.

Lemma flat_map_seq_ext {B} (f g : nat → list B) s d :
  (∀ i, (s ≤ i < s + d)%nat → f i = g i) → flat_map f (seq s d) = flat_map g (seq s d).
Proof.
  revert s. induction d as [|d IH]; intros s H; [done|].
  simpl. rewrite H by lia. f_equal. apply IH. intros i Hi. apply H. lia.
Qed.

Lemma mk_ext sh f g :
  (∀ idx, valid_index sh idx → f idx = g idx) → mk sh f = mk sh g.
Proof.
  revert f g. induction sh as [|d sh IH]; intros f g H; simpl.
  - f_equal. apply H. constructor.
  - apply flat_map_seq_ext. intros i Hi. apply IH. intros idx Hidx.
    apply H. constructor; [lia | done].
Qed.

Lemma flat_map_take_drop (l : list Qc) (N off s d : nat) :
  flat_map (fun i => take N (drop (off + i * N) l)) (seq s d)
  = take (d * N) (drop (off + s * N) l).
Proof.
  revert s. induction d as [|d IH]; intros s; [done|].
  simpl. rewrite IH. rewrite <- (take_take_drop (drop (off + s * N) l) N (d * N)).
  f_equal. rewrite drop_drop. do 2 f_equal. lia.
Qed.

Lemma mk_nth_from sh (l : list Qc) off :
  (off + numel sh ≤ length l)%nat →
  mk sh (fun idx => nth (off + flat_index sh idx) l 0) = take (numel sh) (drop off l).
Proof.
  revert off. induction sh as [|d sh IH]; intros off H.
  - simpl in *. rewrite Nat.add_0_r.
    destruct (drop off l) as [|x l'] eqn:E.
    + apply (f_equal length) in E. rewrite length_drop in E. simpl in E. lia.
    + simpl. rewrite take_0. f_equal.
      rewrite <- (Nat.add_0_r off). rewrite <- nth_skipn. by rewrite E.
  - simpl mk. simpl numel in *.
    transitivity (flat_map (fun i => take (numel sh) (drop (off + i * numel sh) l)) (seq 0 d)).
    2: { rewrite flat_map_take_drop. do 2 f_equal. lia. }
    apply flat_map_seq_ext. intros i Hi.
    rewrite <- IH by nia. apply mk_ext. intros idx _. f_equal. simpl. lia.
Qed.

Lemma of_contents_id sh d : length d = numel sh → of_contents sh d = d.
Proof.
  intros H. unfold of_contents.
  rewrite (mk_ext _ _ (fun idx => nth (0 + flat_index sh idx) d 0)) by done.
  rewrite mk_nth_from by (simpl; lia). simpl. rewrite <- H. apply firstn_all.
Qed.

Lemma tget_mk st dt dev sh f idx :
  valid_index sh idx → tget (mkTensor st dt dev sh (mk sh f)) idx = f idx.
Proof. intros H. unfold tget. simpl. by apply nth_mk. Qed.

Lemma valid_index_2 m n i j : valid_index [m; n] [i; j] ↔ (i < m)%nat ∧ (j < n)%nat.
Proof.
  unfold valid_index. split.
  - intros H. inversion H as [|? ? ? ? Hi H']; subst.
    inversion H' as [|? ? ? ? Hj _]; subst. done.
  - intros [Hi Hj]. repeat constructor; done.
Qed.

(** ** Numbers of elements as rationals *)

Lemma qn_le a b : qn a ≤ qn b ↔ (a ≤ b)%nat.
Proof. unfold qn, qz. rewrite <- Z2Qc_inj_le. lia. Qed.

Lemma qn_lt a b : qn a < qn b ↔ (a < b)%nat.
Proof. unfold qn, qz. rewrite <- Z2Qc_inj_lt. lia. Qed.

Lemma qn_inj a b : qn a = qn b → a = b.
Proof. unfold qn, qz. intros H. apply Z2Qc_inj in H. lia. Qed.

Lemma qn_1 : qn 1 = 1.
Proof. apply Z2Qc_inj_1. Qed.

Lemma as_index_qn k : as_index (qn k) = Ok k.
Proof. unfold as_index, qn, qz. simpl. by rewrite Nat2Z.id. Qed.

(** [n / 2 <= k] on numbers is [n <= 2 * k] on integers. *)
Lemma half_le n k : qn n / 2 ≤ qn k ↔ (n ≤ 2 * k)%nat.
Proof.
  assert (0 < 2) as H2 by by_evaluation.
  assert (2 ≠ 0) as H2' by by_evaluation.
  rewrite (Qcmult_le_mono_pos_r _ _ 2 H2).
  replace (qn n / 2 * 2) with (qn n) by (field; done).
  replace (qn k * 2) with (qn (2 * k)).
  - apply qn_le.
  - unfold qn, qz. rewrite Nat2Z.inj_mul, Z2Qc_inj_mul.
    change (Z.of_nat 2) with 2%Z. rewrite Z2Qc_inj_2. ring.
Qed.

Lemma clamp_rank_bounds out_ch in_ch r :
  (1 ≤ out_ch)%nat → (1 ≤ in_ch)%nat →
  1 ≤ clamp_rank out_ch in_ch r ∧ clamp_rank out_ch in_ch r ≤ qn (out_ch `min` in_ch).
Proof.
  intros Ho Hi. unfold clamp_rank, py_min3.
  destruct (py_max_spec 1 r) as (M1 & _ & _).
  destruct (py_min_spec (qn out_ch) (qn in_ch)) as (A1 & A2 & A3).
  destruct (py_min_spec (py_min (qn out_ch) (qn in_ch)) (py_max 1 r)) as (B1 & B2 & B3).
  assert (1 ≤ py_min (qn out_ch) (qn in_ch)) as Hm.
  { rewrite <- qn_1. destruct A3 as [-> | ->]; by apply qn_le. }
  split.
  - destruct B3 as [-> | ->]; done.
  - eapply Qcle_trans; [exact B1|].
    destruct (Nat.min_spec out_ch in_ch) as [[_ ->] | [_ ->]]; done.
Qed.

(** The clamped rank of an integral rank is integral. *)
Lemma clamp_rank_qn out_ch in_ch k :
  clamp_rank out_ch in_ch (qn k) = qn (out_ch `min` (in_ch `min` (1 `max` k))).
Proof.
  unfold clamp_rank, py_min3, py_max, py_min.
  assert (∀ a b, qlt (qn a) (qn b) = bool_decide (a < b)%nat) as E.
  { intros a b. unfold qlt. apply bool_decide_ext, qn_lt. }
  rewrite <- qn_1, E.
  destruct (bool_decide (1 < k)%nat) eqn:H1;
    rewrite (E in_ch out_ch);
    destruct (bool_decide (in_ch < out_ch)%nat) eqn:H2;
    rewrite E;
    match goal with |- context [bool_decide ?P] => destruct (bool_decide P) eqn:H3 end;
    repeat match goal with
    | H : bool_decide _ = true |- _ => apply bool_decide_eq_true in H
    | H : bool_decide _ = false |- _ => apply bool_decide_eq_false in H
    end; f_equal; lia.
Qed.

(** ** Results of the tensor operations *)

Lemma to_dtype_shape dt t : t_shape (to_dtype dt t) = t_shape t.
Proof. unfold to_dtype. by case_decide. Qed.
Lemma to_dtype_data dt t : t_data (to_dtype dt t) = t_data t.
Proof. unfold to_dtype. by case_decide. Qed.
Lemma to_dtype_device dt t : t_device (to_dtype dt t) = t_device t.
Proof. unfold to_dtype. by case_decide. Qed.
Lemma to_dtype_dtype dt t : t_dtype (to_dtype dt t) = dt.
Proof. unfold to_dtype. by case_decide. Qed.
Lemma to_device_shape dev t : t_shape (to_device dev t) = t_shape t.
Proof. unfold to_device. by case_decide. Qed.
Lemma to_device_data dev t : t_data (to_device dev t) = t_data t.
Proof. unfold to_device. by case_decide. Qed.
Lemma to_device_device dev t : t_device (to_device dev t) = dev.
Proof. unfold to_device. by case_decide. Qed.
Lemma to_device_dtype dev t : t_dtype (to_device dev t) = t_dtype t.
Proof. unfold to_device. by case_decide. Qed.

Create Rewrite HintDb tensor.
#[global] Hint Rewrite to_dtype_shape to_dtype_data to_dtype_device to_dtype_dtype
  to_device_shape to_device_data to_device_device to_device_dtype : tensor.

(** Conversions never turn a fresh buffer into a parameter's buffer. *)
Lemma to_dtype_storage dt t :
  t_storage t = FreshStorage → t_storage (to_dtype dt t) = FreshStorage.
Proof. unfold to_dtype. by case_decide. Qed.
Lemma to_device_storage dev t :
  t_storage t = FreshStorage → t_storage (to_device dev t) = FreshStorage.
Proof. unfold to_device. by case_decide. Qed.

Lemma numel_zshape sh : Z.to_nat <$> zshape sh = sh.
Proof.
  unfold zshape. rewrite <- list_fmap_compose.
  rewrite <- (list_fmap_id sh) at 2. apply list_fmap_ext. intros _ x _. simpl. lia.
Qed.

Lemma infer_shape_zshape sh : infer_shape (numel sh) (zshape sh) = Ok sh.
Proof.
  unfold infer_shape.
  assert (filter (fun d => bool_decide (d ≠ (-1)%Z)) (zshape sh) = zshape sh) as ->.
  { apply filter_all. intros d Hd. unfold zshape in Hd.
    apply list_elem_of_fmap in Hd as (x & -> & _). apply bool_decide_pack. lia. }
  rewrite bool_decide_eq_false_2.
  - rewrite Nat.sub_diag, numel_zshape. by rewrite decide_True.
  - intros (d & Hd & Hlt)%Exists_exists. unfold zshape in Hd.
    apply list_elem_of_fmap in Hd as (x & -> & _). lia.
Qed.

Lemma reshape_zshape t sh :
  length (t_data t) = numel sh →
  reshape t (zshape sh) = Ok (mkTensor (t_storage t) (t_dtype t) (t_device t) sh (t_data t)).
Proof. intros H. unfold reshape. by rewrite H, infer_shape_zshape. Qed.

(** [t.reshape(d, -1)] *)
Lemma reshape_rows t d :
  (1 ≤ d)%nat → (length (t_data t) `mod` d = 0)%nat →
  reshape t [Z.of_nat d; (-1)%Z]
  = Ok (mkTensor (t_storage t) (t_dtype t) (t_device t)
          [d; (length (t_data t) / d)%nat] (t_data t)).
Proof.
  intros Hd Hm. unfold reshape, infer_shape.
  assert (filter (fun d0 : Z => bool_decide (d0 ≠ (-1)%Z)) [Z.of_nat d; (-1)%Z]
          = [Z.of_nat d]) as ->.
  { rewrite filter_cons, decide_True by (apply bool_decide_pack; lia).
    rewrite filter_cons, decide_False; [done|].
    intros H%bool_decide_unpack. done. }
  rewrite bool_decide_eq_false_2.
  2: { intros H. apply Exists_cons in H as [H|H]; [lia|].
       apply Exists_cons in H as [H|H]; [lia|]. by apply Exists_nil in H. }
  simpl. rewrite Nat2Z.id, Nat.mul_1_r.
  rewrite decide_False by lia. rewrite decide_True by done.
  simpl. rewrite bool_decide_eq_false_2 by lia. done.
Qed.

Lemma broadcast_rev_same sh : broadcast_rev sh sh = Ok sh.
Proof.
  induction sh as [|d sh IH]; [done|]. simpl. rewrite IH. simpl. by rewrite decide_True.
Qed.

Lemma broadcast_shapes_same sh : broadcast_shapes sh sh = Ok sh.
Proof.
  unfold broadcast_shapes. rewrite broadcast_rev_same. simpl. by rewrite reverse_involutive.
Qed.

Lemma binop_same f a b :
  t_shape a = t_shape b → t_device a = t_device b →
  binop f a b = Ok (fresh (promote (t_dtype a) (t_dtype b)) (t_device a) (t_shape a)
                      (zip_with f (t_data a) (t_data b))).
Proof.
  intros Hs Hd. unfold binop. rewrite decide_True by done.
  rewrite <- Hs, broadcast_shapes_same. simpl. by rewrite decide_True.
Qed.

Lemma matmul_eq a b m k n :
  t_shape a = [m; k] → t_shape b = [k; n] →
  t_device a = t_device b → t_dtype a = t_dtype b →
  matmul a b = Ok (fresh (t_dtype a) (t_device a) [m; n]
    (mk [m; n] (fun idx =>
       match idx with
       | [i; j] => sum_upto k (fun l => tget a [i; l] * tget b [l; j])
       | _ => 0
       end))).
Proof. intros Ha Hb Hd Ht. unfold matmul. rewrite Ha, Hb. by rewrite decide_True. Qed.

Lemma promote_idem dt : promote dt dt = dt.
Proof. by destruct dt. Qed.

(** A sum in which only the term of index [j] is not zero. *)
Lemma qsum_single (g : nat → Qc) (j s k : nat) :
  qsum ((fun l => if decide (l = j) then g l else 0) <$> seq s k)
  = if decide (s ≤ j < s + k)%nat then g j else 0.
Proof.
  revert s. induction k as [|k IH]; intros s; simpl.
  - by rewrite decide_False by lia.
  - rewrite IH. destruct (decide (s = j)) as [->|Hne].
    + rewrite decide_False by lia. rewrite decide_True by lia. ring.
    + destruct (decide (S s ≤ j < S s + k)%nat).
      * rewrite decide_True by lia. ring.
      * rewrite decide_False by lia. ring.
Qed.

Lemma sum_upto_ext k f g :
  (∀ l, (l < k)%nat → f l = g l) → sum_upto k f = sum_upto k g.
Proof.
  intros H. unfold sum_upto. f_equal. apply list_fmap_ext.
  intros i x Hx. apply lookup_seq in Hx as [-> ?]. by apply H.
Qed.

Lemma sum_upto_single k j (g : nat → Qc) :
  (j < k)%nat → sum_upto k (fun l => if decide (l = j) then g l else 0) = g j.
Proof.
  intros Hj. unfold sum_upto. rewrite qsum_single. by rewrite decide_True by lia.
Qed.

(** ** The truncated decomposition *)

Lemma nth_take_lt (l : list Qc) i n : (i < n)%nat → nth i (take n l) 0 = nth i l 0.
Proof. intros H. rewrite !nth_lookup. by rewrite lookup_take_lt. Qed.

(** What [truncate] returns: [U] restricted to its first [k] columns and
    scaled by the singular values, and the first [k] rows of [Vh]. *)
Lemma truncate_spec U Sg Vh m n p k :
  t_shape U = [m; m] → t_shape Sg = [p] → t_shape Vh = [n; n] → wf Vh →
  t_device Sg = t_device U → t_dtype Sg = t_dtype U →
  (k ≤ m)%nat → (k ≤ p)%nat → (k ≤ n)%nat →
  ∃ U' Vh',
    truncate U Sg Vh (qn k) = Ok (k, U', Vh')
    ∧ (t_shape U' = [m; k] ∧ wf U' ∧ t_device U' = t_device U
       ∧ t_dtype U' = t_dtype U ∧ t_storage U' = FreshStorage)
    ∧ (t_shape Vh' = [k; n] ∧ wf Vh' ∧ t_device Vh' = t_device Vh
       ∧ t_dtype Vh' = t_dtype Vh ∧ t_storage Vh' = t_storage Vh)
    ∧ (∀ i j, (i < m)%nat → (j < k)%nat → tget U' [i; j] = tget U [i; j] * tget Sg [j])
    ∧ (∀ l j, (l < k)%nat → (j < n)%nat → tget Vh' [l; j] = tget Vh [l; j]).
Proof.
  intros HU HS HV WV HdS HtS Hkm Hkp Hkn.
  unfold truncate. rewrite as_index_qn. cbn [bind].
  unfold slice_cols. rewrite HU. cbn [bind].
  unfold slice_rows at 1. rewrite HS. cbn [bind].
  unfold diag. cbn [t_shape].
  rewrite (Nat.min_l k m), (Nat.min_l k p) by done. cbn [bind t_dtype t_device t_data].
  erewrite matmul_eq; [|reflexivity|reflexivity|by cbn|by cbn].
  cbn [bind]. unfold slice_rows. rewrite HV. rewrite (Nat.min_l k n) by done.
  eexists _, _. split; [reflexivity|].
  split; [|split; [|split]].
  - unfold fresh, wf. cbn [t_shape t_device t_dtype t_storage t_data].
    split; [done|]. split; [|done]. apply length_mk.
  - cbn [t_shape t_device t_dtype t_storage]. split; [done|]. split; [|done].
    unfold wf in *. cbn [t_data t_shape]. rewrite length_take, WV, HV. cbn. nia.
  - intros i j Hi Hj. unfold fresh. rewrite tget_mk by by apply valid_index_2.
    rewrite (sum_upto_ext _ _ (fun l => if decide (l = j) then tget U [i; l] * tget Sg [l] else 0)).
    + by rewrite sum_upto_single.
    + intros l Hl. rewrite !tget_mk by by apply valid_index_2.
      case_decide; [|ring]. f_equal. unfold tget. cbn [t_shape t_data]. rewrite HS.
      cbn [flat_index numel foldr]. apply nth_take_lt. lia.
  - intros l j Hl Hj. unfold tget. cbn [t_shape t_data]. rewrite HV.
    cbn [flat_index numel foldr fold_right]. apply nth_take_lt. nia.
Qed.

Lemma linalg_svd_spec svd w m n :
  t_shape w = [m; n] →
  ∃ U Sg Vh,
    linalg_svd svd w = Ok (U, Sg, Vh)
    ∧ (t_shape U = [m; m] ∧ wf U ∧ t_device U = t_device w
       ∧ t_dtype U = t_dtype w ∧ t_storage U = FreshStorage)
    ∧ (t_shape Sg = [m `min` n] ∧ wf Sg ∧ t_device Sg = t_device w
       ∧ t_dtype Sg = t_dtype w ∧ t_storage Sg = FreshStorage)
    ∧ (t_shape Vh = [n; n] ∧ wf Vh ∧ t_device Vh = t_device w
       ∧ t_dtype Vh = t_dtype w ∧ t_storage Vh = FreshStorage).
Proof.
  intros Hw. unfold linalg_svd. rewrite Hw.
  destruct (svd m n (t_data w)) as [[u s] vh].
  eexists _, _, _. split; [reflexivity|].
  unfold fresh, wf, of_contents. cbn [t_shape t_data t_device t_dtype t_storage].
  rewrite !length_mk. done.
Qed.

Lemma nth_zip_with (f : Qc → Qc → Qc) a b i :
  (i < length a)%nat → (i < length b)%nat →
  nth i (zip_with f a b) 0 = f (nth i a 0) (nth i b 0).
Proof.
  revert b i. induction a as [|x a IH]; intros [|y b] i Ha Hb; simpl in *; try lia.
  destruct i; [done|]. apply IH; lia.
Qed.

Lemma tget_eq t1 t2 idx :
  t_shape t1 = t_shape t2 → t_data t1 = t_data t2 → tget t1 idx = tget t2 idx.
Proof. intros Hs Hd. unfold tget. by rewrite Hs, Hd. Qed.

(** The low-rank branch of [extract_linear]: it returns the first [k] rows
    of [Vh] as down factor, the first [k] columns of [U] scaled by the
    singular values as up factor, and the weight minus their product as
    residual. *)
Lemma extract_linear_low_rank svd weight mode mode_param dev out_ch in_ch U Sg Vh r k :
  t_shape weight = [out_ch; in_ch] → wf weight →
  linalg_svd svd (to_device dev (float weight)) = Ok (U, Sg, Vh) →
  select_rank mode mode_param (t_data Sg) = Ok r →
  clamp_rank out_ch in_ch r = qn k →
  rank_is_full out_ch (qn k) = false →
  (k ≤ out_ch)%nat → (k ≤ in_ch)%nat →
  ∃ A B diff,
    extract_linear svd weight mode mode_param dev = Ok (LowRank A B diff)
    ∧ (t_shape A = [k; in_ch] ∧ wf A ∧ t_shape B = [out_ch; k] ∧ wf B
       ∧ t_shape diff = [out_ch; in_ch] ∧ wf diff)
    ∧ Forall (fun t => t_storage t = FreshStorage ∧ t_device t = Cpu ∧ t_dtype t = Float32)
        [A; B; diff]
    ∧ (∀ l j, (l < k)%nat → (j < in_ch)%nat → tget A [l; j] = tget Vh [l; j])
    ∧ (∀ i j, (i < out_ch)%nat → (j < k)%nat → tget B [i; j] = tget U [i; j] * tget Sg [j])
    ∧ (∀ i j, (i < out_ch)%nat → (j < in_ch)%nat →
         tget diff [i; j]
         = tget weight [i; j] - sum_upto k (fun l => tget B [i; l] * tget A [l; j])).
Proof.
  intros Hw Wf Hsvd Hsel Hclamp Hfull Hko Hki.
  set (w' := to_device dev (float weight)) in *.
  assert (t_shape w' = [out_ch; in_ch]) as Hw' by (unfold w', float; by autorewrite with tensor).
  assert (t_data w' = t_data weight) as Hdw' by (unfold w', float; by autorewrite with tensor).
  assert (t_dtype w' = Float32) as Hty by (unfold w', float; by autorewrite with tensor).
  assert (t_device w' = dev) as Hdev by (unfold w', float; by autorewrite with tensor).
  destruct (linalg_svd_spec svd w' _ _ Hw') as (U0 & S0 & V0 & Hsvd' & HU & HS & HV).
  rewrite Hsvd in Hsvd'. injection Hsvd' as <- <- <-.
  destruct HU as (HUs & HUw & HUd & HUt & HUst).
  destruct HS as (HSs & HSw & HSd & HSt & HSst).
  destruct HV as (HVs & HVw & HVd & HVt & HVst).
  destruct (truncate_spec U Sg Vh out_ch in_ch (out_ch `min` in_ch) k)
    as (U' & Vh' & Htr & (HU's & HU'w & HU'd & HU't & HU'st)
        & (HV's & HV'w & HV'd & HV't & HV'st) & HU'v & HV'v);
    [done|done|done|done|congruence|congruence|done|lia|done|].
  unfold extract_linear. fold w'. rewrite Hw', Hsvd. cbn [bind].
  rewrite Hsel. cbn [bind]. rewrite Hclamp, Hfull, Htr. cbn [bind].
  erewrite matmul_eq; [|exact HU's|exact HV's|congruence|congruence]. cbn [bind].
  unfold sub. rewrite binop_same; [|by rewrite Hw'|cbn; congruence]. cbn [bind].
  rewrite (reshape_zshape Vh' [k; in_ch]) by (rewrite <- HV's; exact HV'w).
  rewrite (reshape_zshape U' [out_ch; k]) by (rewrite <- HU's; exact HU'w).
  cbn [bind]. eexists _, _, _. split; [reflexivity|].
  unfold cpu, detach, fresh, wf. autorewrite with tensor.
  cbn [t_shape t_data t_device t_dtype t_storage].
  split; [|split; [|split; [|split]]].
  - rewrite Hw'. unfold wf in HV'w, HU'w. rewrite HV's in HV'w. rewrite HU's in HU'w.
    do 5 (split; [done|]).
    rewrite length_zip_with, length_mk, Hdw', Wf, Hw. cbn. lia.
  - rewrite !Forall_cons. repeat split; autorewrite with tensor; try done;
      repeat (apply to_device_storage || apply to_dtype_storage);
      cbn [t_storage]; congruence.
  - intros l j Hl Hj. rewrite <- HV'v by done. apply tget_eq; by autorewrite with tensor.
  - intros i j Hi Hj. rewrite <- HU'v by done. apply tget_eq; by autorewrite with tensor.
  - intros i j Hi Hj. unfold tget at 1. autorewrite with tensor.
    cbn [t_shape t_data]. rewrite Hw'.
    assert (flat_index [out_ch; in_ch] [i; j] < out_ch * in_ch)%nat as Hlt.
    { pose proof (flat_index_lt [out_ch; in_ch] [i; j]) as Hf. cbn [numel foldr] in Hf.
      rewrite Nat.mul_1_r in Hf. apply Hf. by apply valid_index_2. }
    rewrite nth_zip_with.
    + rewrite nth_mk by by apply valid_index_2. rewrite Hdw'.
      unfold tget at 3. rewrite Hw. f_equal. apply sum_upto_ext. intros l Hl.
      f_equal; apply tget_eq; by autorewrite with tensor.
    + rewrite Hdw', Wf, Hw. cbn [numel foldr]. lia.
    + rewrite length_mk. cbn [numel foldr]. lia.
Qed.

(** The low-rank branch of [extract_conv], on the [out_ch] by
    [in_ch * kernel_size * kernel_size] matrix of the weight. *)
Lemma extract_conv_low_rank svd weight mode mode_param dev is_cp
    out_ch in_ch ks U Sg Vh r k :
  let n := (in_ch * (ks * ks))%nat in
  t_shape weight = [out_ch; in_ch; ks; ks] → wf weight →
  (1 ≤ out_ch)%nat → (1 ≤ ks)%nat →
  linalg_svd svd (view [out_ch; n] (to_device dev (float weight))) = Ok (U, Sg, Vh) →
  select_rank mode mode_param (t_data Sg) = Ok r →
  clamp_rank out_ch in_ch r = qn k →
  rank_is_full out_ch (qn k) && negb is_cp = false →
  (k ≤ out_ch)%nat → (k ≤ in_ch)%nat →
  ∃ A B diff,
    extract_conv svd weight mode mode_param dev is_cp = Ok (LowRank A B diff)
    ∧ (t_shape A = [k; in_ch; ks; ks] ∧ wf A ∧ t_shape B = [out_ch; k; 1%nat; 1%nat] ∧ wf B
       ∧ t_shape diff = [out_ch; in_ch; ks; ks] ∧ wf diff)
    ∧ Forall (fun t => t_storage t = FreshStorage ∧ t_device t = Cpu ∧ t_dtype t = Float32)
        [A; B; diff]
    ∧ (∀ l j, (l < k)%nat → (j < n)%nat → tget (view [k; n] A) [l; j] = tget Vh [l; j])
    ∧ (∀ i j, (i < out_ch)%nat → (j < k)%nat →
         tget (view [out_ch; k] B) [i; j] = tget U [i; j] * tget Sg [j])
    ∧ (∀ i j, (i < out_ch)%nat → (j < n)%nat →
         tget (view [out_ch; n] diff) [i; j]
         = tget (view [out_ch; n] weight) [i; j]
           - sum_upto k (fun l => tget (view [out_ch; k] B) [i; l]
                                  * tget (view [k; n] A) [l; j])).
Proof.
  intros n Hw Wf Ho Hks Hsvd Hsel Hclamp Hfull Hko Hki.
  set (w' := to_device dev (float weight)) in *.
  assert (t_shape w' = [out_ch; in_ch; ks; ks]) as Hw'
    by (unfold w', float; by autorewrite with tensor).
  assert (t_data w' = t_data weight) as Hdw' by (unfold w', float; by autorewrite with tensor).
  assert (t_dtype w' = Float32) as Hty by (unfold w', float; by autorewrite with tensor).
  assert (t_device w' = dev) as Hdev by (unfold w', float; by autorewrite with tensor).
  assert (length (t_data w') = (out_ch * n)%nat) as Hlen.
  { rewrite Hdw', Wf, Hw. unfold n. numel_solve. }
  assert (k ≤ n)%nat as Hkn.
  { unfold n. assert (1 ≤ ks * ks)%nat by nia.
    assert (in_ch * 1 ≤ in_ch * (ks * ks))%nat by (apply Nat.mul_le_mono_l; done). lia. }
  assert (reshape w' [Z.of_nat out_ch; (-1)%Z] = Ok (view [out_ch; n] w')) as Hres.
  { rewrite reshape_rows; [|done|rewrite Hlen; by rewrite Nat.mul_comm, Nat.Div0.mod_mul].
    unfold view. do 3 f_equal. rewrite Hlen, Nat.mul_comm. by rewrite Nat.div_mul by lia. }
  destruct (linalg_svd_spec svd (view [out_ch; n] w') out_ch n eq_refl)
    as (U0 & S0 & V0 & Hsvd' & HU & HS & HV).
  rewrite Hsvd in Hsvd'. injection Hsvd' as <- <- <-.
  destruct HU as (HUs & HUw & HUd & HUt & HUst).
  destruct HS as (HSs & HSw & HSd & HSt & HSst).
  destruct HV as (HVs & HVw & HVd & HVt & HVst).
  cbn [view t_device t_dtype] in *.
  destruct (truncate_spec U Sg Vh out_ch n (out_ch `min` n) k)
    as (U' & Vh' & Htr & (HU's & HU'w & HU'd & HU't & HU'st)
        & (HV's & HV'w & HV'd & HV't & HV'st) & HU'v & HV'v);
    [done|done|done|done|congruence|congruence|done|lia|done|].
  unfold extract_conv. fold w'. rewrite Hw', Hres. cbn [bind]. rewrite Hsvd. cbn [bind].
  rewrite Hsel. cbn [bind]. rewrite Hclamp, Hfull, Htr. cbn [bind].
  erewrite matmul_eq; [|exact HU's|exact HV's|congruence|congruence]. cbn [bind].
  rewrite (reshape_zshape _ [out_ch; in_ch; ks; ks])
    by (unfold fresh; cbn [t_data]; rewrite length_mk; unfold n; numel_solve).
  cbn [bind]. unfold sub. rewrite binop_same; [|by rewrite Hw'|cbn; congruence]. cbn [bind].
  unfold wf in HV'w, HU'w. rewrite HV's in HV'w. rewrite HU's in HU'w.
  rewrite (reshape_zshape Vh' [k; in_ch; ks; ks])
    by (rewrite HV'w; unfold n; numel_solve).
  rewrite (reshape_zshape U' [out_ch; k; 1%nat; 1%nat])
    by (rewrite HU'w; numel_solve).
  cbn [bind]. eexists _, _, _. split; [reflexivity|].
  unfold cpu, detach, fresh, wf, view. autorewrite with tensor.
  cbn [t_shape t_data t_device t_dtype t_storage].
  split; [|split; [|split; [|split]]].
  - rewrite Hw'. split; [done|]. split; [rewrite HV'w; unfold n; numel_solve|].
    split; [done|]. split; [rewrite HU'w; numel_solve|]. split; [done|].
    rewrite length_zip_with, length_mk, Hlen. unfold n. numel_solve.
  - rewrite !Forall_cons. repeat split; autorewrite with tensor; try done;
      repeat (apply to_device_storage || apply to_dtype_storage);
      cbn [t_storage]; congruence.
  - intros l j Hl Hj. rewrite <- HV'v by done. apply tget_eq; by autorewrite with tensor.
  - intros i j Hi Hj. rewrite <- HU'v by done. apply tget_eq; by autorewrite with tensor.
  - intros i j Hi Hj. unfold tget at 1. cbn [t_shape t_data]. autorewrite with tensor.
    cbn [t_shape t_data].
    assert (flat_index [out_ch; n] [i; j] < out_ch * n)%nat as Hlt.
    { pose proof (flat_index_lt [out_ch; n] [i; j]) as Hf. cbn [numel fold_right] in Hf.
      rewrite Nat.mul_1_r in Hf. apply Hf. by apply valid_index_2. }
    rewrite nth_zip_with.
    + rewrite nth_mk by by apply valid_index_2. rewrite Hdw'.
      f_equal. apply sum_upto_ext. intros l Hl.
      f_equal; apply tget_eq; by autorewrite with tensor.
    + rewrite Hlen. lia.
    + rewrite length_mk. numel_solve.
Qed.

(** ** The full fallback *)

Lemma spectrum_eq svd w U Sg Vh :
  linalg_svd svd w = Ok (U, Sg, Vh) → spectrum svd w = t_data Sg.
Proof. intros H. unfold spectrum. by rewrite H. Qed.

Lemma extract_linear_full_iff svd weight mode mode_param dev out_ch in_ch r w :
  t_shape weight = [out_ch; in_ch] →
  select_rank mode mode_param (spectrum svd (to_device dev (float weight))) = Ok r →
  extract_linear svd weight mode mode_param dev = Ok (Full w)
  ↔ qn out_ch / 2 ≤ clamp_rank out_ch in_ch r ∧ w = cpu (to_device dev (float weight)).
Proof.
  intros Hw Hsel.
  set (w' := to_device dev (float weight)) in *.
  assert (t_shape w' = [out_ch; in_ch]) as Hw'
    by (unfold w', float; by autorewrite with tensor).
  destruct (linalg_svd_spec svd w' _ _ Hw') as (U & Sg & Vh & Hsvd & _).
  rewrite (spectrum_eq _ _ _ _ _ Hsvd) in Hsel.
  unfold extract_linear. fold w'. rewrite Hw', Hsvd. cbn [bind]. rewrite Hsel. cbn [bind].
  unfold rank_is_full. destruct (qle _ _) eqn:E.
  - apply qle_true in E. split; [intros [= <-]; done | intros [_ ->]; done].
  - apply qle_false in E. split.
    + bind_cases; discriminate.
    + intros [H _]. by apply Qcle_not_lt in H.
Qed.

Lemma extract_conv_full_iff svd weight mode mode_param dev is_cp out_ch in_ch ks r w :
  t_shape weight = [out_ch; in_ch; ks; ks] → wf weight → (1 ≤ out_ch)%nat →
  select_rank mode mode_param
    (spectrum svd (view [out_ch; (in_ch * (ks * ks))%nat] (to_device dev (float weight))))
  = Ok r →
  extract_conv svd weight mode mode_param dev is_cp = Ok (Full w)
  ↔ qn out_ch / 2 ≤ clamp_rank out_ch in_ch r ∧ is_cp = false
    ∧ w = cpu (to_device dev (float weight)).
Proof.
  intros Hw Wf Ho Hsel.
  set (n := (in_ch * (ks * ks))%nat) in *.
  set (w' := to_device dev (float weight)) in *.
  assert (t_shape w' = [out_ch; in_ch; ks; ks]) as Hw'
    by (unfold w', float; by autorewrite with tensor).
  assert (t_data w' = t_data weight) as Hdw' by (unfold w', float; by autorewrite with tensor).
  assert (length (t_data w') = (out_ch * n)%nat) as Hlen.
  { rewrite Hdw', Wf, Hw. unfold n. numel_solve. }
  assert (reshape w' [Z.of_nat out_ch; (-1)%Z] = Ok (view [out_ch; n] w')) as Hres.
  { rewrite reshape_rows; [|done|rewrite Hlen; by rewrite Nat.mul_comm, Nat.Div0.mod_mul].
    unfold view. do 3 f_equal. rewrite Hlen, Nat.mul_comm. by rewrite Nat.div_mul by lia. }
  destruct (linalg_svd_spec svd (view [out_ch; n] w') out_ch n eq_refl)
    as (U & Sg & Vh & Hsvd & _).
  rewrite (spectrum_eq _ _ _ _ _ Hsvd) in Hsel.
  unfold extract_conv. fold w'. rewrite Hw', Hres. cbn [bind]. rewrite Hsvd. cbn [bind].
  rewrite Hsel. cbn [bind].
  unfold rank_is_full. destruct (qle _ _) eqn:E; destruct is_cp; cbn [andb negb].
  - split; [bind_cases; discriminate | intros (_ & ? & _); done].
  - apply qle_true in E. split; [intros [= <-]; done | intros (_ & _ & ->); done].
  - split; [bind_cases; discriminate | intros (_ & ? & _); done].
  - apply qle_false in E. split; [bind_cases; discriminate|].
    intros [H _]. by apply Qcle_not_lt in H.
Qed.

Lemma clamp_rank_clamped out_ch in_ch r :
  (1 ≤ out_ch)%nat → (1 ≤ in_ch)%nat →
  clamp_rank out_ch in_ch r = clamped 1 (qn (out_ch `min` in_ch)) r.
Proof.
  intros Ho Hi. unfold clamp_rank, py_min3, clamped.
  assert (py_min (qn out_ch) (qn in_ch) = qn (out_ch `min` in_ch)) as ->.
  { unfold py_min. destruct (qlt (qn in_ch) (qn out_ch)) eqn:E.
    - apply qlt_true, qn_lt in E. f_equal. lia.
    - apply qlt_false, qn_le in E. f_equal. lia. }
  assert (1 ≤ qn (out_ch `min` in_ch)) as Hm by (rewrite <- qn_1; apply qn_le; lia).
  unfold py_max, py_min. destruct (qlt 1 r) eqn:E1.
  - apply qlt_true in E1. rewrite decide_False by by apply Qclt_not_le.
    destruct (qlt r (qn (out_ch `min` in_ch))) eqn:E2.
    + apply qlt_true in E2. by rewrite decide_False by by apply Qclt_not_le.
    + apply qlt_false in E2. by rewrite decide_True.
  - apply qlt_false in E1. rewrite decide_True by done.
    destruct (qlt 1 (qn (out_ch `min` in_ch))) eqn:E2; [done|].
    apply qlt_false in E2. by apply Qcle_antisym.
Qed.

(** C5, counterexample. A Conv2d weight of shape [2, 1, 1, 2] (a kernel that
    is not square) with [is_cp] true: the rank selection and the clamp
    succeed, and the product of the truncated factors, which has four
    elements, cannot be reshaped to [out_ch, in_ch, kernel_size,
    kernel_size] = [2, 1, 1, 1]; [extract_conv] raises and returns no
    ['low rank'] triple. *)
Lemma full_fallback_counterexample :
  let w := entry Float32 [2; 1; 1; 2]%nat [1; 0; 0; 1]%Z in
  extract_conv svd_diag w "fixed" (qn 1) Cpu true = Raise RuntimeError
  ∧ ¬ ∃ A B diff, extract_conv svd_diag w "fixed" (qn 1) Cpu true = Ok (LowRank A B diff).
Proof.
  cbv zeta.
  assert (extract_conv svd_diag (entry Float32 [2; 1; 1; 2]%nat [1; 0; 0; 1]%Z)
            "fixed" (qn 1) Cpu true = Raise RuntimeError) as E by by_evaluation.
  split; [exact E|]. intros (A & B & diff & H). by rewrite E in H.
Qed.

(** C5, amended. For a Linear weight of shape [ol, il] and a Conv2d weight
    of shape [oc, ic, ks, ks] (a square kernel), all dimensions positive,
    with the ranks [rl] and [rc] selected by the mode: the clamped rank is
    the selected rank clamped to [[1, min(out_ch, in_ch)]] (a rank within
    the interval is kept); [extract_linear] returns ['full'], with the
    float-cast weight, exactly when the clamped rank is at least
    [out_ch / 2]; [extract_conv] returns ['full'] exactly when moreover
    [is_cp] is false; in the other cases, when the clamped rank is an
    integer (so that it can bound a slice), both return a ['low rank']
    triple, [extract_conv] with [is_cp] true always. *)
Theorem rank_clamp_and_full_fallback (svd : svd_oracle) (mode : string)
    (mode_param : Qc) (dev : device) (wl wc : Tensor)
    (ol il oc ic ks : nat) (rl rc : Qc) :
  t_shape wl = [ol; il] → wf wl → (1 ≤ ol)%nat → (1 ≤ il)%nat →
  t_shape wc = [oc; ic; ks; ks] → wf wc →
  (1 ≤ oc)%nat → (1 ≤ ic)%nat → (1 ≤ ks)%nat →
  select_rank mode mode_param (spectrum svd (to_device dev (float wl))) = Ok rl →
  select_rank mode mode_param
    (spectrum svd (view [oc; (ic * (ks * ks))%nat] (to_device dev (float wc))))
  = Ok rc →
  let cl := clamp_rank ol il rl in
  let cc := clamp_rank oc ic rc in
  (cl = clamped 1 (qn (ol `min` il)) rl ∧ 1 ≤ cl ∧ cl ≤ qn (ol `min` il))
  ∧ (cc = clamped 1 (qn (oc `min` ic)) rc ∧ 1 ≤ cc ∧ cc ≤ qn (oc `min` ic))
  ∧ (∀ w, extract_linear svd wl mode mode_param dev = Ok (Full w)
          ↔ qn ol / 2 ≤ cl ∧ w = cpu (to_device dev (float wl)))
  ∧ (∀ is_cp w, extract_conv svd wc mode mode_param dev is_cp = Ok (Full w)
          ↔ qn oc / 2 ≤ cc ∧ is_cp = false ∧ w = cpu (to_device dev (float wc)))
  ∧ ((∃ k, cl = qn k) → cl < qn ol / 2 →
     ∃ A B diff, extract_linear svd wl mode mode_param dev = Ok (LowRank A B diff))
  ∧ ((∃ k, cc = qn k) → ∀ is_cp, cc < qn oc / 2 ∨ is_cp = true →
     ∃ A B diff, extract_conv svd wc mode mode_param dev is_cp = Ok (LowRank A B diff)).
Proof.
  intros Hwl Wl Hol Hil Hwc Wf Ho Hi Hks Hrl Hrc cl cc.
  split; [split; [by apply clamp_rank_clamped|by apply clamp_rank_bounds]|].
  split; [split; [by apply clamp_rank_clamped|by apply clamp_rank_bounds]|].
  split; [intros w; by apply extract_linear_full_iff|].
  split; [intros is_cp w;
          by apply (extract_conv_full_iff svd wc mode mode_param dev is_cp oc ic ks rc w)|].
  split.
  - intros [k Hk] Hlt.
    destruct (linalg_svd_spec svd (to_device dev (float wl)) ol il)
      as (U & Sg & Vh & Hsvd & _); [unfold float; by autorewrite with tensor|].
    rewrite (spectrum_eq _ _ _ _ _ Hsvd) in Hrl.
    destruct (clamp_rank_bounds ol il rl Hol Hil) as [_ Hle]. fold cl in Hle.
    rewrite Hk in Hle, Hlt. apply qn_le in Hle.
    destruct (extract_linear_low_rank svd wl mode mode_param dev ol il U Sg Vh rl k)
      as (A & B & d & H & _); try done; try lia.
    { unfold rank_is_full. by apply qle_false. }
    by exists A, B, d.
  - intros [k Hk] is_cp Hcase.
    set (w2 := view [oc; (ic * (ks * ks))%nat] (to_device dev (float wc))) in *.
    destruct (linalg_svd_spec svd w2 oc (ic * (ks * ks))%nat eq_refl)
      as (U & Sg & Vh & Hsvd & _).
    rewrite (spectrum_eq _ _ _ _ _ Hsvd) in Hrc.
    destruct (clamp_rank_bounds oc ic rc Ho Hi) as [_ Hle]. fold cc in Hle.
    rewrite Hk in Hle, Hcase. apply qn_le in Hle.
    destruct (extract_conv_low_rank svd wc mode mode_param dev is_cp oc ic ks
                U Sg Vh rc k) as (A & B & d & H & _); try done; try lia.
    { destruct Hcase as [Hlt | ->]; [|apply andb_false_r].
      apply andb_false_iff. left. unfold rank_is_full. by apply qle_false. }
    by exists A, B, d.
Qed.

Lemma rank_clamp_and_full_fallback_witness :
  let wl := entry Float32 [2; 2]%nat [2; 0; 0; 1]%Z in
  let wc := entry Float32 [2; 2; 1; 1]%nat [2; 0; 0; 1]%Z in
  let cl := clamp_rank 2 2 (qn 1) in
  let cc := clamp_rank 2 2 (qn 1) in
  ((cl = clamped 1 (qn (2 `min` 2)) (qn 1) ∧ 1 ≤ cl ∧ cl ≤ qn (2 `min` 2))
   ∧ (cc = clamped 1 (qn (2 `min` 2)) (qn 1) ∧ 1 ≤ cc ∧ cc ≤ qn (2 `min` 2))
   ∧ (∀ w, extract_linear svd_diag wl "fixed" (qn 1) Cpu = Ok (Full w)
           ↔ qn 2 / 2 ≤ cl ∧ w = cpu (to_device Cpu (float wl)))
   ∧ (∀ is_cp w, extract_conv svd_diag wc "fixed" (qn 1) Cpu is_cp = Ok (Full w)
           ↔ qn 2 / 2 ≤ cc ∧ is_cp = false ∧ w = cpu (to_device Cpu (float wc)))
   ∧ ((∃ k, cl = qn k) → cl < qn 2 / 2 →
      ∃ A B diff, extract_linear svd_diag wl "fixed" (qn 1) Cpu = Ok (LowRank A B diff))
   ∧ ((∃ k, cc = qn k) → ∀ is_cp, cc < qn 2 / 2 ∨ is_cp = true →
      ∃ A B diff, extract_conv svd_diag wc "fixed" (qn 1) Cpu is_cp = Ok (LowRank A B diff)))
  ∧ extract_linear svd_diag wl "fixed" (qn 1) Cpu = Ok (Full (cpu (to_device Cpu (float wl))))
  ∧ extract_conv svd_diag wc "fixed" (qn 1) Cpu false
    = Ok (Full (cpu (to_device Cpu (float wc))))
  ∧ ∃ A B diff, extract_conv svd_diag wc "fixed" (qn 1) Cpu true = Ok (LowRank A B diff).
Proof.
  intros wl wc cl cc.
  assert (select_rank "fixed" (qn 1) (spectrum svd_diag (to_device Cpu (float wl)))
          = Ok (qn 1)) as Hrl by reflexivity.
  assert (select_rank "fixed" (qn 1)
            (spectrum svd_diag (view [2; (2 * (1 * 1))]%nat (to_device Cpu (float wc))))
          = Ok (qn 1)) as Hrc by reflexivity.
  split.
  { apply (rank_clamp_and_full_fallback svd_diag "fixed" (qn 1) Cpu wl wc
             2 2 2 2 1 (qn 1) (qn 1));
      [reflexivity|reflexivity|lia|lia|reflexivity|reflexivity|lia|lia|lia|
       exact Hrl|exact Hrc]. }
  destruct (rank_clamp_and_full_fallback svd_diag "fixed" (qn 1) Cpu wl wc
              2 2 2 2 1 (qn 1) (qn 1)) as (Hl & Hc & Hfl & Hfc & Hll & Hlc);
    [reflexivity|reflexivity|lia|lia|reflexivity|reflexivity|lia|lia|lia|
     exact Hrl|exact Hrc|].
  split; [apply Hfl; split; [by_evaluation|reflexivity]|].
  split; [apply Hfc; split; [by_evaluation|split; reflexivity]|].
  apply Hlc; [exists 1%nat; by_evaluation|by right].
Defined.

(** ** Reconstruction of the ['full'] kind *)

(** The merged weight of the ['full'] kind is [orig_weight + diff * scale];
    without a base bias the bias stays absent. *)
Lemma rebuild_weight_full_no_bias diff diff_b W scale :
  length (t_data diff) = numel (t_shape W) → t_device diff = t_device W →
  rebuild_weight (FullDiff diff diff_b) (Some W) None scale
  = Ok (Some (fresh (promote (t_dtype W) (t_dtype diff)) (t_device W) (t_shape W)
                (zip_with Qcplus (t_data W) ((fun x => x * scale) <$> t_data diff))),
        None).
Proof.
  intros Hlen Hdev. unfold rebuild_weight.
  rewrite reshape_zshape by done. cbn [bind times mul_number map_tensor].
  unfold add. rewrite binop_same by (cbn; congruence). done.
Qed.

(** With a bias difference and a base bias, the merged bias is
    [orig_bias + diff_b * scale]. *)
Lemma rebuild_weight_full_with_bias diff diff_b W b scale :
  length (t_data diff) = numel (t_shape W) → t_device diff = t_device W →
  length (t_data diff_b) = numel (t_shape b) → t_device diff_b = t_device b →
  rebuild_weight (FullDiff diff (Some diff_b)) (Some W) (Some b) scale
  = Ok (Some (fresh (promote (t_dtype W) (t_dtype diff)) (t_device W) (t_shape W)
                (zip_with Qcplus (t_data W) ((fun x => x * scale) <$> t_data diff))),
        Some (fresh (promote (t_dtype b) (t_dtype diff_b)) (t_device b) (t_shape b)
                (zip_with Qcplus (t_data b) ((fun x => x * scale) <$> t_data diff_b)))).
Proof.
  intros Hlen Hdev Hlenb Hdevb. unfold rebuild_weight.
  rewrite reshape_zshape by done. cbn [bind need fmap result_fmap].
  rewrite reshape_zshape by done. cbn [bind times mul_number map_tensor fmap result_fmap].
  unfold add. rewrite !binop_same by (cbn; congruence). done.
Qed.

(** Without a bias difference, a layer that has a bias cannot be merged:
    the reshape of the missing tensor fails. *)
Lemma rebuild_weight_full_missing_diff_b diff W b scale :
  length (t_data diff) = numel (t_shape W) →
  rebuild_weight (FullDiff diff None) (Some W) (Some b) scale = Raise AttributeError.
Proof. intros Hlen. unfold rebuild_weight. by rewrite reshape_zshape by done. Qed.

(** C7, the failing input. A ['full'] entry carrying only [diff] (which is
    all that [extract_diff] writes), merged into a layer that has a bias:
    [rebuild_weight] raises [AttributeError] instead of returning the base
    bias unchanged. *)
Lemma full_kind_without_bias_diff_raises :
  rebuild_weight
    (FullDiff (entry Float32 [2; 2]%nat [1; 0; 0; 1]%Z) None)
    (Some (param [2; 2]%nat [1; 2; 3; 4]%Z)) (Some (param [2]%nat [5; 6]%Z)) 1
  = Raise AttributeError.
Proof. by_evaluation. Qed.

(** ** Reconstruction of the ['kron'] kind *)

(** A tensor of several elements has no truth value. *)
Lemma truthy_many t : (2 ≤ length (t_data t))%nat → truthy (Some t) = Raise RuntimeError.
Proof.
  intros H. unfold truthy, tensor_bool.
  destruct (t_data t) as [|x [|y l]]; simpl in H; [lia|lia|done].
Qed.

(** Whenever [alpha] and a [w1b] of at least two elements are present, the
    rescaling step of the ['kron'] kind raises. *)
Lemma rebuild_weight_kron_w1b_raises w1 w1a w1b w2 w2a w2b t1 t2 alpha W b scale :
  (2 ≤ length (t_data w1b))%nat →
  rebuild_weight (Kron w1 w1a (Some w1b) w2 w2a w2b t1 t2 (Some alpha)) (Some W) b scale
  = Raise RuntimeError.
Proof.
  intros H. unfold rebuild_weight.
  rewrite bool_decide_eq_true_2 by (left; eauto). by rewrite truthy_many.
Qed.

(** C8, the failing input. A ['kron'] entry with [w1a], [w1b] (2 by 2),
    [w2] and [alpha]: the rescaling step evaluates the truth value of [w1b]
    and raises [RuntimeError], where the rank [w1b.size(0)] was to be used. *)
Lemma kron_alpha_rescale_raises :
  rebuild_weight
    (Kron None
       (Some (entry Float32 [2; 2]%nat [1; 0; 0; 1]%Z))
       (Some (entry Float32 [2; 2]%nat [1; 2; 3; 4]%Z))
       (Some (entry Float32 [2; 2]%nat [1; 1; 1; 1]%Z))
       None None None None
       (Some (entry Float32 [1]%nat [2]%Z)))
    (Some (param [4; 4]%nat [0; 0; 0; 0; 0; 0; 0; 0; 0; 0; 0; 0; 0; 0; 0; 0]%Z)) None 1
  = Raise RuntimeError.
Proof. by_evaluation. Qed.

(** With [w1b] absent the divisor is [w2b.size(0)]. *)
Lemma kron_alpha_rescale_w2b :
  rebuild_weight
    (Kron (Some (entry Float32 [2; 2]%nat [1; 0; 0; 1]%Z)) None None
       None
       (Some (entry Float32 [2; 1]%nat [1; 1]%Z))
       (Some (entry Float32 [1; 2]%nat [1; 1]%Z))
       None None
       (Some (entry Float32 [1]%nat [2]%Z)))
    (Some (param [4; 4]%nat [0; 0; 0; 0; 0; 0; 0; 0; 0; 0; 0; 0; 0; 0; 0; 0]%Z)) None 1
  = Ok (Some (entry Float32 [4; 4]%nat
                [2; 2; 0; 0;  2; 2; 0; 0;  0; 0; 2; 2;  0; 0; 2; 2]%Z), None).
Proof. by_evaluation. Qed.

(** ** Merge: layers without an entry *)

Lemma get_module_missing (d : state_dict) lora_name :
  (∀ s, s ∈ signature_suffixes → d !! (lora_name +:+ s) = None) →
  get_module d lora_name = Ok NoModule.
Proof.
  intros H. unfold get_module, has_key.
  rewrite !bool_decide_eq_false_2; [done|..];
    rewrite H; [by intros [? ?]|unfold signature_suffixes; set_solver..].
Qed.

(** A layer that has a weight and no entry makes [rebuild_weight] raise. *)
Lemma rebuild_weight_missing w b scale :
  rebuild_weight NoModule (Some w) b scale = Raise NotImplementedError.
Proof. done. Qed.

Lemma merge_module_missing (d : state_dict) scale lora_name path root merged child w :
  module_at path root = Some child → m_weight child = Attr (Some w) →
  (∀ s, s ∈ signature_suffixes → d !! (lora_name +:+ s) = None) →
  merge_module d scale lora_name path (root, merged) = Raise NotImplementedError.
Proof.
  intros Hat Hw Hd. unfold merge_module. rewrite Hat, (get_module_missing _ _ Hd).
  cbn [bind]. unfold getattr_weight. by rewrite Hw.
Qed.

(** C1, the failing input. The text encoder has a candidate Linear layer
    (with a weight) for which the state has no key; [merge] does not skip
    the layer but raises [NotImplementedError], so the run does not
    complete. *)
Lemma merge_missing_key_raises :
  get_module example_state_unet_only "lora_te_text_model_self_attn_q_proj" = Ok NoModule
  ∧ merge example_base_model example_state_unet_only 1 Cpu = Raise NotImplementedError.
Proof. split; by_evaluation. Qed.

(** ** Merge: the state dictionary *)

Lemma convert_entry_contents dev base_model v v' :
  convert_entry dev base_model v = Ok v' →
  t_data v' = t_data v ∧ t_shape v' = t_shape v ∧ t_device v' = dev.
Proof.
  unfold convert_entry. destruct dev.
  - intros [= <-]. unfold cpu, float. by autorewrite with tensor.
  - destruct (model_slot base_model 0); cbn [bind]; [|done].
    destruct (parameters _); [done|]. intros [= <-]. by autorewrite with tensor.
Qed.

(** The conversion pass rebinds each key to the converted tensor and touches
    no other key. *)
Lemma convert_pass (conv : Tensor → result Tensor) (l : list (string * Tensor))
    (d0 d1 : state_dict) :
  NoDup l.*1 →
  foldM (fun d '(k, v) => v' <- conv v;; Ok (<[k := v']> d)) l d0 = Ok d1 →
  (∀ k v, (k, v) ∈ l → ∃ v', conv v = Ok v' ∧ d1 !! k = Some v')
  ∧ (∀ k, k ∉ l.*1 → d1 !! k = d0 !! k).
Proof.
  revert d0. induction l as [|[k v] l IH]; intros d0 Hnd H.
  - injection H as <-. split; [|done]. intros k v Hin. by apply elem_of_nil in Hin.
  - cbn [foldM bind] in H. destruct (conv v) as [v'|] eqn:Hc; [|done].
    cbn [bind] in H. apply NoDup_cons in Hnd as [Hk Hnd].
    destruct (IH _ Hnd H) as [IH1 IH2]. split.
    + intros k2 v2 [Heq|Hin]%elem_of_cons.
      * injection Heq as -> ->. exists v'. split; [done|].
        rewrite IH2 by done. apply lookup_insert_eq.
      * by apply IH1.
    + intros k2 Hk2. cbn [fmap list_fmap fst] in Hk2.
      apply not_elem_of_cons in Hk2 as [Hne Hk2].
      rewrite IH2 by done. by apply lookup_insert_ne.
Qed.

Lemma merge_state_after base_model (d : state_dict) scale dev base' d' n :
  merge base_model d scale dev = Ok (base', d', n) →
  foldM (fun d '(k, v) => v' <- convert_entry dev base_model v;; Ok (<[k := v']> d))
    (map_to_list d) d = Ok d'.
Proof.
  unfold merge. destruct (foldM _ _ _) as [d1|]; cbn [bind]; [|done].
  bind_cases; try done. intros [= _ <- _]. done.
Qed.

(** C9, counterexample. The state holds a half-precision tensor under the
    key of the Linear layer; the merge succeeds, and afterwards the key is
    bound to a different tensor (a new single-precision one), so the mapping
    is not the one it was before the call. *)
Lemma merge_rebinds_state_counterexample :
  let d' := (fun v => cpu (float v)) <$> example_state_complete in
  merge example_base_model example_state_complete 1 Cpu
  = Ok (example_merged_model, d', 2%nat)
  ∧ example_state_complete !! "lora_te_text_model_self_attn_q_proj.diff"
    = Some (entry Float16 [2; 2]%nat [1; 0; 0; 1]%Z)
  ∧ d' !! "lora_te_text_model_self_attn_q_proj.diff"
    = Some (entry Float32 [2; 2]%nat [1; 0; 0; 1]%Z)
  ∧ d' ≠ example_state_complete.
Proof. cbv zeta. by_evaluation. Qed.

(** C9, amended. When [merge] returns, the state dictionary has the keys it
    had before the call, and each key is bound to the conversion of the
    tensor it was bound to: a tensor with the same shape on the target
    device (for the device ['cpu']: [v.float().cpu()], of type [float32];
    for another device: [v.to(device, dtype=...)] with the type of the first
    parameter of [base_model[0]]), whose elements are those of the tensor
    when the type converted to holds them exactly (a cast to a narrower type
    rounds the others). [merge] writes nothing else into the dictionary. *)
Theorem merge_converts_state (base_model : list Module) (d : state_dict)
    (scale : Qc) (dev : device) base' (d' : state_dict) (n : nat) :
  merge base_model d scale dev = Ok (base', d', n) →
  dom d' = dom d
  ∧ ∀ k v, d !! k = Some v →
      ∃ v', d' !! k = Some v'
        ∧ convert_entry dev base_model v = Ok v'
        ∧ t_shape v' = t_shape v ∧ t_device v' = dev
        ∧ (dev = Cpu → v' = cpu (float v) ∧ t_dtype v' = Float32)
        ∧ (Forall (representable (t_dtype v')) (t_data v) → t_data v' = t_data v).
Proof.
  intros H%merge_state_after.
  apply convert_pass in H as [H1 H2]; [|apply NoDup_fst_map_to_list].
  assert (∀ k v, d !! k = Some v →
            ∃ v', d' !! k = Some v' ∧ convert_entry dev base_model v = Ok v') as Hk.
  { intros k v Hkv. destruct (H1 k v) as (v' & Hc & Hl); [by apply elem_of_map_to_list|].
    by exists v'. }
  split.
  - apply set_eq. intros k. rewrite !elem_of_dom. split.
    + intros [v' Hv']. destruct (d !! k) as [v|] eqn:E; [by eexists|].
      rewrite H2 in Hv'; [by rewrite E in Hv'|].
      intros Hin. apply list_elem_of_fmap in Hin as ([k2 v2] & -> & Hin).
      apply elem_of_map_to_list in Hin. cbn in E. congruence.
    + intros [v Hv]. destruct (Hk k v Hv) as (v' & ? & _). by eexists.
  - intros k v Hv. destruct (Hk k v Hv) as (v' & Hl & Hc). exists v'.
    destruct (convert_entry_contents _ _ _ _ Hc) as (? & ? & ?).
    do 4 (split; [done|]). split; [|done]. intros ->. cbn in Hc. injection Hc as <-.
    split; [done|]. unfold cpu, float. by autorewrite with tensor.
Qed.

Lemma merge_converts_state_witness :
  let d' := (fun v => cpu (float v)) <$> example_state_complete in
  dom d' = dom example_state_complete
  ∧ ∀ k v, example_state_complete !! k = Some v →
      ∃ v', d' !! k = Some v'
        ∧ convert_entry Cpu example_base_model v = Ok v'
        ∧ t_shape v' = t_shape v ∧ t_device v' = Cpu
        ∧ (Cpu = Cpu → v' = cpu (float v) ∧ t_dtype v' = Float32)
        ∧ (Forall (representable (t_dtype v')) (t_data v) → t_data v' = t_data v).
Proof.
  apply (merge_converts_state example_base_model example_state_complete 1 Cpu
           example_merged_model _ 2%nat).
  by_evaluation.
Defined.

(** ** The residual of the recompressed convolution *)

(** On the recompressed path of [decompose_layer] (the one that returns the
    extra factor) the residual is computed from [root_weight], the weight of
    the fine-tuned layer itself, and not from the weight difference. *)
Lemma decompose_layer_small_conv_residual svd mode lp cp dev small_conv layer
    root_weight diff a b resid c :
  decompose_layer svd mode lp cp dev small_conv layer root_weight diff
  = Ok (LowRank a b resid, Some c) →
  ∃ fa fb e,
    flatten1 a = Ok fa ∧ flatten1 b = Ok fb
    ∧ einsum "i j k l, j r, p i -> p r k l" [c; fa; fb] = Ok e
    ∧ sub root_weight (contiguous (cpu (detach e))) = Ok resid.
Proof.
  unfold decompose_layer.
  destruct (decide (layer = "Linear")); [bind_cases; discriminate|].
  destruct (decide (layer = "Conv2d")); [|discriminate].
  destruct (size root_weight 2) as [s2|]; cbn [bind]; [|discriminate].
  destruct (if decide (s2 = 1%nat) then _ else _) as [is_linear|]; cbn [bind]; [|discriminate].
  destruct (extract_conv _ _ _ _ _ _) as [[w|xa xb xd]|]; cbn [bind]; try discriminate.
  destruct (small_conv && negb is_linear); [|discriminate].
  destruct (size xa 0) as [dim|]; cbn [bind]; [|discriminate].
  destruct (transpose01 xa) as [ta|]; cbn [bind]; [|discriminate].
  destruct (extract_conv _ _ _ _ _ _) as [[w|yc ya yd]|]; cbn [bind]; try discriminate.
  destruct (transpose01 ya) as [za|]; cbn [bind]; [|discriminate].
  destruct (transpose01 yc) as [zc|]; cbn [bind]; [|discriminate].
  destruct (flatten1 za) as [fa|] eqn:Hfa; cbn [bind]; [|discriminate].
  destruct (flatten1 xb) as [fb|] eqn:Hfb; cbn [bind]; [|discriminate].
  destruct (einsum _ _) as [rec|] eqn:He; cbn [bind]; [|discriminate].
  destruct (sub root_weight _) as [res|] eqn:Hr; cbn [bind]; [|discriminate].
  intros [= <- <- <- <-]. exists fa, fb, rec. by rewrite Hfa, Hfb.
Qed.

(** C6, the failing input. The weight difference of the layer has rank one
    and the recompressed factors reconstruct it exactly, so the residual
    "difference minus reconstruction" is zero; the residual that the
    recompressed path carries forward is the fine-tuned weight minus the
    reconstruction, which here is the whole base weight; [extract_diff]
    writes its twelve ones as the sparse bias of the layer. *)
Lemma small_conv_residual_is_not_diff_minus_reconstruction :
  let up := entry Float32 [3; 1; 1; 1]%nat [2; 0; 0]%Z in
  let down := entry Float32 [1; 1; 1; 1]%nat [1]%Z in
  let mid := entry Float32 [1; 1; 2; 2]%nat [1; 0; 0; 0]%Z in
  let carried := entry Float32 [3; 1; 2; 2]%nat [1; 1; 1; 1;  1; 1; 1; 1;  1; 1; 1; 1]%Z in
  let zero := entry Float32 [3; 1; 2; 2]%nat [0; 0; 0; 0;  0; 0; 0; 0;  0; 0; 0; 0]%Z in
  sub conv_finetuned conv_base = Ok conv_diff
  ∧ decompose_layer svd_diag "fixed" 1 1 Cpu true "Conv2d" conv_finetuned conv_diff
    = Ok (LowRank down up carried, Some mid)
  ∧ (fa <- flatten1 down;; fb <- flatten1 up;;
     e <- einsum "i j k l, j r, p i -> p r k l" [mid; fa; fb];; sub conv_diff e)
    = Ok zero
  ∧ carried ≠ zero
  ∧ ((fun loras : state_dict => loras !! "lora_unet_conv_in.bias_values")
       <$> extract_diff svd_diag "fixed" 1 1 Cpu true (qfrac 1 2) true
             example_base_bundle example_finetuned_bundle 0)
    = Ok (Some (entry Float16 [12]%nat [1; 1; 1; 1;  1; 1; 1; 1;  1; 1; 1; 1]%Z)).
Proof. cbv zeta. repeat split; by_evaluation. Qed.

(** On the plain path (no recompression) the same layer carries the zero
    residual. *)
Lemma plain_conv_residual_example :
  decompose_layer svd_diag "fixed" 1 1 Cpu false "Conv2d" conv_finetuned conv_diff
  = Ok (LowRank (entry Float32 [1; 1; 2; 2]%nat [1; 0; 0; 0]%Z)
          (entry Float32 [3; 1; 1; 1]%nat [2; 0; 0]%Z)
          (entry Float32 [3; 1; 2; 2]%nat [0; 0; 0; 0;  0; 0; 0; 0;  0; 0; 0; 0]%Z),
        None).
Proof. by_evaluation. Qed.

(** ** Extraction: where the returned tensors live *)

Lemma slice_cols_storage t r t' : slice_cols t r = Ok t' → t_storage t' = t_storage t.
Proof. unfold slice_cols. destruct (t_shape t) as [|?[|?[|]]]; try done. by intros [= <-]. Qed.

Lemma slice_rows_storage t r t' : slice_rows t r = Ok t' → t_storage t' = t_storage t.
Proof. unfold slice_rows. destruct (t_shape t); try done. by intros [= <-]. Qed.

Lemma transpose01_storage t t' : transpose01 t = Ok t' → t_storage t' = t_storage t.
Proof. unfold transpose01. destruct (t_shape t) as [|?[|]]; try done. by intros [= <-]. Qed.

Lemma reshape_storage t dims t' : reshape t dims = Ok t' → t_storage t' = t_storage t.
Proof. unfold reshape. intros H. inv_bind H. by injection H as <-. Qed.

Lemma matmul_fresh a b t : matmul a b = Ok t → is_fresh t.
Proof.
  unfold matmul. destruct (t_shape a) as [|?[|?[|]]]; try done.
  destruct (t_shape b) as [|?[|?[|]]]; try done. case_decide; [|done]. by intros [= <-].
Qed.

Lemma binop_fresh f a b t : binop f a b = Ok t → is_fresh t.
Proof.
  unfold binop. case_decide; [|done]. intros Hb. inv_bind Hb. by injection Hb as <-.
Qed.

Lemma einsum_fresh eq ops t : einsum eq ops = Ok t → is_fresh t.
Proof.
  unfold einsum. destruct (einsum_parse _ _ _). destruct ops; [done|].
  case_bool_decide; [|done]. intros Hb. inv_bind Hb.
  case_bool_decide; [|done]. by injection Hb as <-.
Qed.

Lemma linalg_svd_fresh svd w U Sg Vh :
  linalg_svd svd w = Ok (U, Sg, Vh) → is_fresh U ∧ is_fresh Sg ∧ is_fresh Vh.
Proof.
  unfold linalg_svd. destruct (t_shape w) as [|?[|?[|]]]; try done.
  destruct (svd _ _ _) as [[? ?] ?]. by intros [= <- <- <-].
Qed.

Lemma truncate_fresh U Sg Vh r k U' Vh' :
  truncate U Sg Vh r = Ok (k, U', Vh') → is_fresh U' ∧ t_storage Vh' = t_storage Vh.
Proof.
  unfold truncate. intros H. inv_bind H. injection H as <- <- <-.
  split; [by eapply matmul_fresh | by eapply slice_rows_storage].
Qed.

Lemma stored_fresh_on_cpu t :
  is_fresh t → fresh_on_cpu (half (contiguous (cpu (detach t)))).
Proof.
  intros H. unfold fresh_on_cpu, is_fresh, half, contiguous, cpu, detach.
  autorewrite with tensor. split; [|done].
  by apply to_dtype_storage, to_device_storage.
Qed.

Lemma kept_fresh dt t : is_fresh t → is_fresh (cpu (to_dtype dt (detach t))).
Proof. intros H. by apply to_device_storage, to_dtype_storage. Qed.

Lemma extract_linear_fresh svd weight mode mode_param dev d :
  is_fresh weight →
  extract_linear svd weight mode mode_param dev = Ok d → decomposition_fresh d.
Proof.
  intros Hf. unfold extract_linear.
  assert (is_fresh (to_device dev (float weight))) as Hw'
    by by apply to_device_storage, to_dtype_storage.
  destruct (t_shape _) as [|?[|?[|]]]; try done.
  intros H. inv_bind H. destruct (rank_is_full _ _).
  - injection H as <-. by apply to_device_storage.
  - inv_bind H. injection H as <-.
    apply linalg_svd_fresh in E as (HU & HS & HV).
    apply truncate_fresh in E1 as [HU' HV'].
    apply reshape_storage in E4, E5. apply binop_fresh in E3.
    cbn [decomposition_fresh]. split; [|split]; apply kept_fresh; unfold is_fresh in *; congruence.
Qed.

Lemma extract_conv_fresh svd weight mode mode_param dev is_cp d :
  is_fresh weight →
  extract_conv svd weight mode mode_param dev is_cp = Ok d → decomposition_fresh d.
Proof.
  intros Hf. unfold extract_conv.
  assert (is_fresh (to_device dev (float weight))) as Hw'
    by by apply to_device_storage, to_dtype_storage.
  destruct (t_shape _) as [|?[|?[|?[|?[|]]]]]; try done.
  intros H. inv_bind H. destruct (_ && _).
  - injection H as <-. by apply to_device_storage.
  - inv_bind H. injection H as <-.
    apply linalg_svd_fresh in E0 as (HU & HS & HV).
    apply truncate_fresh in E2 as [HU' HV'].
    apply reshape_storage in E6, E7. apply binop_fresh in E5.
    cbn [decomposition_fresh]. split; [|split]; apply kept_fresh; unfold is_fresh in *; congruence.
Qed.

Lemma decompose_layer_fresh svd mode lp cp dev small_conv layer root_weight diff d oc :
  is_fresh diff →
  decompose_layer svd mode lp cp dev small_conv layer root_weight diff = Ok (d, oc) →
  decomposition_fresh d ∧ ∀ c, oc = Some c → is_fresh c.
Proof.
  intros Hf. unfold decompose_layer.
  destruct (decide (layer = "Linear")).
  { destruct (extract_linear _ _ _ _ _) as [dl|] eqn:El; cbn [bind]; [|done].
    intros [= <- <-]. split; [by eapply extract_linear_fresh | done]. }
  destruct (decide (layer = "Conv2d")); [|done].
  destruct (size root_weight 2) as [s2|]; cbn [bind]; [|done].
  destruct (if decide (s2 = 1%nat) then _ else _) as [is_linear|]; cbn [bind]; [|done].
  destruct (extract_conv _ _ _ _ _ _) as [dc|] eqn:Ec; cbn [bind]; [|done].
  apply extract_conv_fresh in Ec; [|done].
  destruct dc as [w|xa xb xd]; [intros [= <- <-]; by split|].
  destruct Ec as (Ha & Hb & Hd).
  destruct (small_conv && negb is_linear); [|intros [= <- <-]; by split].
  destruct (size xa 0) as [dim|]; cbn [bind]; [|done].
  destruct (transpose01 xa) as [ta|] eqn:Et; cbn [bind]; [|done].
  apply transpose01_storage in Et.
  destruct (extract_conv _ _ _ _ _ _) as [d2|] eqn:E2; cbn [bind]; [|done].
  apply extract_conv_fresh in E2; [|unfold is_fresh in *; congruence].
  destruct d2 as [w|yc ya yd]; [done|]. destruct E2 as (Hc & Ha' & _).
  destruct (transpose01 ya) as [za|] eqn:Eza; cbn [bind]; [|done].
  destruct (transpose01 yc) as [zc|] eqn:Ezc; cbn [bind]; [|done].
  apply transpose01_storage in Eza, Ezc.
  destruct (flatten1 za) as [fa|]; cbn [bind]; [|done].
  destruct (flatten1 xb) as [fb|]; cbn [bind]; [|done].
  destruct (einsum _ _) as [rec|]; cbn [bind]; [|done].
  destruct (sub root_weight _) as [res|] eqn:Es; cbn [bind]; [|done].
  apply binop_fresh in Es. intros [= <- <-].
  split; [|intros c [= <-]]; unfold is_fresh in *; cbn; repeat split; congruence.
Qed.

Lemma all_fresh_insert (d : state_dict) k t :
  fresh_on_cpu t → all_fresh_on_cpu d → all_fresh_on_cpu (<[k := t]> d).
Proof.
  intros Ht Hd k' t'. rewrite lookup_insert.
  case_decide; [|apply Hd]. intros Heq. by simplify_eq.
Qed.

Lemma all_fresh_union (d1 d2 : state_dict) :
  all_fresh_on_cpu d1 → all_fresh_on_cpu d2 → all_fresh_on_cpu (d1 ∪ d2).
Proof.
  intros H1 H2 k t Hk. apply lookup_union_Some_raw in Hk as [Hk | [_ Hk]]; eauto.
Qed.

Lemma to_int16_fresh_on_cpu t : fresh_on_cpu t → fresh_on_cpu (to_int16 t).
Proof.
  intros [H1 H2]. unfold to_int16. case_decide; [done|]. split; [done|]. exact H2.
Qed.

Lemma half_fresh_on_cpu t : fresh_on_cpu t → fresh_on_cpu (half t).
Proof.
  intros [H1 H2]. unfold fresh_on_cpu, is_fresh, half. autorewrite with tensor.
  split; [by apply to_dtype_storage | done].
Qed.

Lemma emit_layer_fresh use_bias sparsity lora_name d oc loras loras' :
  decomposition_fresh d → (∀ c, oc = Some c → is_fresh c) →
  all_fresh_on_cpu loras →
  emit_layer use_bias sparsity lora_name d oc loras = Ok loras' →
  all_fresh_on_cpu loras'.
Proof.
  intros Hd Hc Hl. unfold emit_layer.
  set (l0 := match oc with Some c => _ | None => loras end).
  assert (all_fresh_on_cpu l0) as Hl0.
  { unfold l0. destruct oc; [|done]. apply all_fresh_insert; [|done].
    by apply stored_fresh_on_cpu, Hc. }
  clearbody l0. destruct d as [w|a b r].
  - intros [= <-]. apply all_fresh_insert; [|done]. by apply stored_fresh_on_cpu.
  - destruct Hd as (Ha & Hb & Hr).
    destruct (size a 0) as [a0|]; cbn [bind]; [|done].
    assert (all_fresh_on_cpu
              (<[lora_name +:+ ".alpha" := half (tensor_of_number a0)]>
                 (<[lora_name +:+ ".lora_up.weight" := half (contiguous (cpu (detach b)))]>
                    (<[lora_name +:+ ".lora_down.weight" := half (contiguous (cpu (detach a)))]>
                       l0)))) as Hl1.
    { repeat apply all_fresh_insert; try done; by apply stored_fresh_on_cpu. }
    destruct use_bias; [|intros [= <-]; exact Hl1].
    destruct (size b 0) as [b0|]; cbn [bind]; [|done].
    destruct (reshape _ _) as [rd|] eqn:Er; cbn [bind]; [|done].
    destruct (make_sparse _ _) as [sp|] eqn:Es; cbn [bind]; [|done].
    intros [= <-].
    assert (t_device sp = Cpu) as Hdev.
    { unfold make_sparse in Es.
      destruct (np_quantile _ _); cbn [bind] in Es; [|done]. injection Es as <-. cbn.
      unfold reshape in Er.
      destruct (infer_shape _ _); cbn [bind] in Er; [|done]. injection Er as <-. cbn.
      unfold cpu. by autorewrite with tensor. }
    apply all_fresh_insert; [|apply all_fresh_insert; [|apply all_fresh_insert; [|exact Hl1]]];
      first [apply to_int16_fresh_on_cpu | apply half_fresh_on_cpu];
      unfold fresh_on_cpu, is_fresh, sparse_indices, sparse_values, tensor_of_shape;
      cbn; done.
Qed.

Lemma extract_lora_fresh svd mode lp cp dev use_bias sparsity small_conv
    prefix module child_module name child_name loras min_diff loras' :
  all_fresh_on_cpu loras →
  extract_lora svd mode lp cp dev use_bias sparsity small_conv
    prefix module child_module name child_name loras min_diff = Ok loras' →
  all_fresh_on_cpu loras'.
Proof.
  intros Hl. unfold extract_lora.
  destruct (getattr_weight module) as [rw|]; cbn [bind]; [|done].
  destruct (getattr_weight child_module) as [cw|]; cbn [bind]; [|done].
  destruct (operand rw) as [root_weight|]; cbn [bind]; [|done].
  destruct (operand cw) as [child_weight|]; cbn [bind]; [|done].
  destruct (allclose _ _) as [[|]|]; cbn [bind]; [by intros [= <-]| |done].
  destruct (sub root_weight child_weight) as [diff|] eqn:Ed; cbn [bind]; [|done].
  apply binop_fresh in Ed.
  destruct (if qlt 0 min_diff then _ else _) as [[|]|]; cbn [bind]; [by intros [= <-]| |done].
  destruct (decompose_layer _ _ _ _ _ _ _ _ _) as [[d oc]|] eqn:Edl; cbn [bind]; [|done].
  apply decompose_layer_fresh in Edl as [Hd Hoc]; [|done].
  by apply emit_layer_fresh.
Qed.

(** An invariant of the state is kept by a loop whose body keeps it. *)
Lemma foldM_invariant {A B} (P : B → Prop) (f : B → A → result B) l b b' :
  (∀ b a b', P b → f b a = Ok b' → P b') →
  P b → foldM f l b = Ok b' → P b'.
Proof.
  intros Hf. revert b. induction l as [|a l IH]; intros b Hb; cbn [foldM].
  - by intros [= <-].
  - destruct (f b a) as [b1|] eqn:E; cbn [bind]; [|done]. apply IH. by eapply Hf.
Qed.

Lemma make_state_dict_fresh svd mode lp cp dev use_bias sparsity small_conv
    prefix root_module target_module mods names min_diff loras :
  make_state_dict svd mode lp cp dev use_bias sparsity small_conv
    prefix root_module target_module mods names min_diff = Ok loras →
  all_fresh_on_cpu loras.
Proof.
  unfold make_state_dict. destruct (foldl _ _ _) as [temp temp_name].
  apply foldM_invariant; [|intros k t Hk; by rewrite lookup_empty in Hk].
  intros l [[name path] module] l' Hl.
  destruct (temp !! name) as [child_modules|].
  - apply foldM_invariant; [|done].
    intros l1 [[child_name cpath] child_module] l1' Hl1.
    destruct (is_layer child_module); [|by intros [= <-]].
    destruct (child_modules !! child_name); [|done].
    by apply extract_lora_fresh.
  - destruct (temp_name !! name); [|by intros [= <-]].
    destruct (is_layer module); [|by intros [= <-]].
    by apply extract_lora_fresh.
Qed.

(** Every tensor of the mapping that [extract_diff] computes has a buffer of
    its own and is on the CPU. *)
Lemma extract_diff_fresh (svd : svd_oracle) (mode : string)
    (linear_mode_param conv_mode_param : Qc) (extract_device : device)
    (use_bias : bool) (sparsity : Qc) (small_conv : bool)
    (base_model db_model : list Module) (min_diff : Qc) (loras : state_dict) :
  extract_diff svd mode linear_mode_param conv_mode_param extract_device use_bias
    sparsity small_conv base_model db_model min_diff = Ok loras →
  all_fresh_on_cpu loras.
Proof.
  unfold extract_diff.
  destruct (model_slot base_model 0) as [b0|]; cbn [bind]; [|done].
  destruct (if bool_decide _ then _ else _) as [b1|]; cbn [bind]; [|done].
  destruct (model_slot base_model _) as [b2|]; cbn [bind]; [|done].
  destruct (model_slot db_model 0) as [d0|]; cbn [bind]; [|done].
  destruct (if bool_decide _ then _ else _) as [d1|]; cbn [bind]; [|done].
  destruct (model_slot db_model _) as [d2|]; cbn [bind]; [|done].
  destruct (make_state_dict _ _ _ _ _ _ _ _ _ b0 d0 _ _ _) as [te|] eqn:E1;
    cbn [bind]; [|done].
  apply make_state_dict_fresh in E1.
  destruct (match b1 with Some _ => _ | None => _ end) as [te2|] eqn:E2; cbn [bind]; [|done].
  assert (all_fresh_on_cpu te2) as H2.
  { destruct b1 as [b1|]; [destruct d1 as [d1|]|].
    - by apply make_state_dict_fresh in E2.
    - injection E2 as <-. intros k t Hk. by rewrite lookup_empty in Hk.
    - injection E2 as <-. intros k t Hk. by rewrite lookup_empty in Hk. }
  destruct (make_state_dict _ _ _ _ _ _ _ _ _ b2 d2 _ _ _) as [un|] eqn:E3;
    cbn [bind]; [|done].
  apply make_state_dict_fresh in E3.
  intros [= <-]. by repeat apply all_fresh_union.
Qed.

Lemma example_extract_diff :
  extract_diff svd_diag "fixed" 1 1 Cpu true (qfrac 1 2) true
    example_base_bundle example_finetuned_bundle 0
  = Ok example_extracted.
Proof. by_evaluation. Qed.

(** ** The call of [extract_diff]: what it leaves of the heap *)

Lemma keeps_refl h : keeps h h.
Proof. by intros a l. Qed.

Lemma keeps_length h0 h : keeps h0 h → (length h0 ≤ length h)%nat.
Proof.
  intros H. destruct (decide (length h0 = 0)%nat) as [->|Hn]; [lia|].
  destruct (lookup_lt_is_Some_2 h0 (length h0 - 1)) as [l Hl]; [lia|].
  apply H in Hl. apply lookup_lt_Some in Hl. lia.
Qed.

Lemma keeps_new_list h0 h l : keeps h0 h → keeps h0 (new_list h l).1.
Proof. intros H a l' Hl. cbn. apply lookup_app_l_Some. by apply H. Qed.

(** An assignment to a slot of a list that was made after [h0] leaves the
    lists of [h0] as they are. *)
Lemma keeps_setitem h0 h h' a i x :
  keeps h0 h → (length h0 ≤ a)%nat → list_setitem h a i x = Ok h' → keeps h0 h'.
Proof.
  intros H Ha. unfold list_setitem. destruct (h !! a) as [l|]; [|done].
  case_decide; [|done]. intros [= <-] b lb Hb.
  rewrite list_lookup_insert_ne; [by apply H|].
  apply lookup_lt_Some in Hb. lia.
Qed.

Lemma make_state_dict_of_fresh svd mode lp cp dev use_bias sparsity small_conv
    prefix root_module target_module mods names min_diff loras :
  make_state_dict_of svd mode lp cp dev use_bias sparsity small_conv
    prefix root_module target_module mods names min_diff = Ok loras →
  all_fresh_on_cpu loras.
Proof.
  unfold make_state_dict_of. destruct root_module; cbn [as_model bind]; [|done].
  destruct target_module; cbn [as_model bind]; [|done]. apply make_state_dict_fresh.
Qed.

(** Reading a slot after an assignment. *)
Lemma list_getitem_setitem h h' a b i j x :
  list_setitem h a i x = Ok h' →
  list_getitem h' b j
  = if decide (a = b ∧ i = j) then Ok x else list_getitem h b j.
Proof.
  unfold list_setitem, list_getitem. destruct (h !! a) as [l|] eqn:E; [|done].
  case_decide as Hi; [|done]. intros [= <-].
  pose proof (lookup_lt_Some _ _ _ E) as La.
  destruct (decide (a = b)) as [<-|Hab].
  - rewrite list_lookup_insert_eq by done.
    destruct (decide (i = j)) as [<-|Hij].
    + rewrite decide_True by done. by rewrite list_lookup_insert_eq by done.
    + rewrite decide_False by (intros [_ ?]; done).
      rewrite list_lookup_insert_ne by done. by rewrite E.
  - rewrite decide_False by (intros [? _]; done). by rewrite list_lookup_insert_ne by done.
Qed.

(** An assignment succeeds where a read does. *)
Lemma list_setitem_ok h a i x y :
  list_getitem h a i = Ok y → ∃ h', list_setitem h a i x = Ok h'.
Proof.
  unfold list_setitem, list_getitem. destruct (h !! a) as [l|]; [|done].
  destruct (l !! i) eqn:E; [|done]. intros _.
  apply lookup_lt_Some in E. rewrite decide_True by done. by eexists.
Qed.

Lemma list_getitem_new h l i :
  list_getitem (h ++ [l]) (length h) i
  = match l !! i with Some x => Ok x | None => Raise IndexError end.
Proof. unfold list_getitem. by rewrite list_lookup_middle. Qed.

Lemma list_getitem_old h l a i :
  (a < length h)%nat → list_getitem (h ++ [l]) a i = list_getitem h a i.
Proof. intros Ha. unfold list_getitem. by rewrite lookup_app_l. Qed.

Lemma list_getitem_models (h : heap) a (l : list Module) i :
  h !! a = Some (Some <$> l) → list_getitem h a i = Some <$> model_slot l i.
Proof.
  intros H. unfold list_getitem, model_slot.
  rewrite H, list_lookup_fmap.
  by destruct (l !! i).
Qed.

(** The mapping that the call returns is the one that [extract_diff]
    computes from the models of the two bundles. *)
Lemma extract_diff_call_value (svd : svd_oracle) (mode : string)
    (linear_mode_param conv_mode_param : Qc) (extract_device : device)
    (use_bias : bool) (sparsity : Qc) (small_conv : bool)
    (h : heap) (base_model db_model : nat) (bl dl : list Module) (min_diff : Qc) :
  h !! base_model = Some (Some <$> bl) → h !! db_model = Some (Some <$> dl) →
  fst <$> extract_diff_call svd mode linear_mode_param conv_mode_param extract_device
            use_bias sparsity small_conv h base_model db_model min_diff
  = extract_diff svd mode linear_mode_param conv_mode_param extract_device use_bias
      sparsity small_conv bl dl min_diff.
Proof.
  intros Hb Hd. unfold extract_diff_call, extract_diff, new_list.
  pose proof (lookup_lt_Some _ _ _ Hd) as Ld.
  unfold list_len. rewrite Hb, length_fmap. cbn [bind].
  set (isxl := bool_decide (length bl = 6%nat)).
  rewrite !(list_getitem_models h base_model bl) by done.
  destruct (model_slot bl 0) as [b0|]; cbn [bind fmap result_fmap]; [|done].
  assert ((if isxl then Some <$> model_slot bl 1 else Ok None)
          = ((if isxl then Some <$> model_slot bl 1 else Ok None) : result (option Module)))
    as _ by done.
  destruct (if isxl then Some <$> model_slot bl 1 else Ok None) as [b1|] eqn:Eb1;
    cbn [bind]; [|done].
  destruct (model_slot bl (if isxl then 3%nat else 2%nat)) as [b2|];
    cbn [bind fmap result_fmap]; [|done].
  set (h1 := h ++ [[Some b0; b1; Some b2]]).
  assert (h1 !! db_model = Some (Some <$> dl)) as Hd1
    by (unfold h1; by rewrite lookup_app_l).
  rewrite !(list_getitem_models h1 db_model dl) by done.
  destruct (model_slot dl 0) as [d0|]; cbn [bind fmap result_fmap]; [|done].
  destruct (if isxl then Some <$> model_slot dl 1 else Ok None) as [d1|] eqn:Ed1;
    cbn [bind]; [|done].
  destruct (model_slot dl (if isxl then 3%nat else 2%nat)) as [d2|];
    cbn [bind fmap result_fmap]; [|done].
  set (L1 := [Some b0; b1; Some b2]) in *. set (L2 := [Some d0; d1; Some d2]).
  set (h2 := h1 ++ [L2]).
  assert (length h < length h1)%nat as Lh by (unfold h1; rewrite length_app; cbn; lia).
  assert (∀ i, list_getitem h2 (length h) i
               = match L1 !! i with Some x => Ok x | None => Raise IndexError end) as G1.
  { intros i. unfold h2. rewrite list_getitem_old by done. apply list_getitem_new. }
  assert (∀ i, list_getitem h2 (length h1) i
               = match L2 !! i with Some x => Ok x | None => Raise IndexError end) as G2.
  { intros i. apply list_getitem_new. }
  assert (length h ≠ length h1) as Hne by lia.
  rewrite G1, G2. cbn [L1 L2 lookup list_lookup bind].
  unfold make_state_dict_of at 1. cbn [as_model bind].
  destruct (make_state_dict _ _ _ _ _ _ _ _ _ b0 d0 _ _ _) as [te|]; cbn [bind]; [|done].
  destruct (list_setitem_ok h2 (length h) 0 None (Some b0)) as [h3 S3];
    [by rewrite G1|].
  rewrite S3. cbn [bind].
  destruct (list_setitem_ok h3 (length h1) 0 None (Some d0)) as [h4 S4].
  { rewrite (list_getitem_setitem _ _ _ _ _ _ _ S3), decide_False by (intros [? _]; done).
    by rewrite G2. }
  rewrite S4. cbn [bind].
  assert (∀ i, i ≠ 0%nat → list_getitem h4 (length h) i
               = match L1 !! i with Some x => Ok x | None => Raise IndexError end) as G1'.
  { intros i Hi. rewrite (list_getitem_setitem _ _ _ _ _ _ _ S4),
      decide_False by (intros [? _]; done).
    rewrite (list_getitem_setitem _ _ _ _ _ _ _ S3), decide_False by (intros [_ ?]; done).
    apply G1. }
  assert (∀ i, i ≠ 0%nat → list_getitem h4 (length h1) i
               = match L2 !! i with Some x => Ok x | None => Raise IndexError end) as G2'.
  { intros i Hi. rewrite (list_getitem_setitem _ _ _ _ _ _ _ S4),
      decide_False by (intros [_ ?]; done).
    rewrite (list_getitem_setitem _ _ _ _ _ _ _ S3), decide_False by (intros [? _]; done).
    apply G2. }
  destruct isxl.
  - destruct (model_slot bl 1) as [m1|]; cbn [fmap result_fmap] in Eb1; [|done].
    destruct (model_slot dl 1) as [n1|]; cbn [fmap result_fmap] in Ed1; [|done].
    injection Eb1 as <-. injection Ed1 as <-.
    rewrite G1', G2' by done. cbn [L1 L2 lookup list_lookup bind].
    unfold make_state_dict_of at 1. cbn [as_model bind].
    destruct (make_state_dict _ _ _ _ _ _ _ _ _ m1 n1 _ _ _) as [te2|]; cbn [bind]; [|done].
    destruct (list_setitem_ok h4 (length h) 1 None (Some m1)) as [h5 S5];
      [by rewrite G1'|].
    rewrite S5. cbn [bind].
    destruct (list_setitem_ok h5 (length h1) 1 None (Some n1)) as [h6 S6].
    { rewrite (list_getitem_setitem _ _ _ _ _ _ _ S5), decide_False by (intros [? _]; done).
      by rewrite G2'. }
    rewrite S6. cbn [bind].
    rewrite !(list_getitem_setitem _ _ _ _ _ _ _ S6).
    rewrite decide_False by (intros [? _]; done).
    rewrite decide_False by (intros [_ ?]; done).
    rewrite !(list_getitem_setitem _ _ _ _ _ _ _ S5).
    rewrite decide_False by (intros [_ ?]; done).
    rewrite decide_False by (intros [? _]; done).
    rewrite G1', G2' by done. cbn [L1 L2 lookup list_lookup bind].
    unfold make_state_dict_of. cbn [as_model bind].
    by destruct (make_state_dict _ _ _ _ _ _ _ _ _ b2 d2 _ _ _).
  - injection Eb1 as <-. injection Ed1 as <-. cbn [bind].
    rewrite G1', G2' by done. cbn [L1 L2 lookup list_lookup bind].
    unfold make_state_dict_of. cbn [as_model bind].
    by destruct (make_state_dict _ _ _ _ _ _ _ _ _ b2 d2 _ _ _).
Qed.

(** C10. [extract_diff] is read-only on its two model arguments, and what it
    returns shares no buffer with them. When the call returns, every list
    object that existed before the call (the two bundles passed in among
    them) holds the models it held, each with the weights and biases it
    had: the assignments [base_model[0] = None], [db_model[0] = None] and
    the like reach only the lists that the function has made itself, and no
    operation of the extraction writes into a tensor. Every tensor of the
    returned mapping has a buffer that no parameter of either model uses
    and is on the CPU. *)
Theorem extract_diff_is_read_only (svd : svd_oracle) (mode : string)
    (linear_mode_param conv_mode_param : Qc) (extract_device : device)
    (use_bias : bool) (sparsity : Qc) (small_conv : bool)
    (h h' : heap) (base_model db_model : nat) (min_diff : Qc) (loras : state_dict) :
  extract_diff_call svd mode linear_mode_param conv_mode_param extract_device use_bias
    sparsity small_conv h base_model db_model min_diff = Ok (loras, h') →
  (∀ a l, h !! a = Some l → h' !! a = Some l)
  ∧ (∀ k t, loras !! k = Some t → t_storage t = FreshStorage ∧ t_device t = Cpu).
Proof.
  unfold extract_diff_call, new_list. intros H.
  destruct (list_len h base_model) as [n|]; cbn [bind] in H; [|done].
  destruct (list_getitem h base_model 0) as [b0|]; cbn [bind] in H; [|done].
  destruct (if bool_decide (n = 6%nat) then list_getitem h base_model 1 else Ok None)
    as [b1|]; cbn [bind] in H; [|done].
  destruct (list_getitem h base_model _) as [b2|]; cbn [bind] in H; [|done].
  set (h1 := h ++ [[b0; b1; b2]]) in *.
  assert (keeps h h1) as K1 by apply (keeps_new_list h h [b0; b1; b2]), keeps_refl.
  destruct (list_getitem h1 db_model 0) as [d0|]; cbn [bind] in H; [|done].
  destruct (if bool_decide (n = 6%nat) then list_getitem h1 db_model 1 else Ok None)
    as [d1|]; cbn [bind] in H; [|done].
  destruct (list_getitem h1 db_model _) as [d2|]; cbn [bind] in H; [|done].
  set (h2 := h1 ++ [[d0; d1; d2]]) in *.
  assert (keeps h h2) as K2 by apply (keeps_new_list h h1 [d0; d1; d2]), K1.
  assert (length h ≤ length h1)%nat as L1 by (unfold h1; rewrite length_app; lia).
  destruct (list_getitem h2 (length h) 0) as [b|]; cbn [bind] in H; [|done].
  destruct (list_getitem h2 (length h1) 0) as [d|]; cbn [bind] in H; [|done].
  destruct (make_state_dict_of _ _ _ _ _ _ _ _ _ b d _ _ _) as [te|] eqn:E1;
    cbn [bind] in H; [|done].
  apply make_state_dict_of_fresh in E1.
  destruct (list_setitem h2 (length h) 0 None) as [h3|] eqn:S3; cbn [bind] in H; [|done].
  assert (keeps h h3) as K3 by (eapply keeps_setitem; [exact K2| |exact S3]; lia).
  destruct (list_setitem h3 (length h1) 0 None) as [h4|] eqn:S4; cbn [bind] in H; [|done].
  assert (keeps h h4) as K4 by (eapply keeps_setitem; [exact K3| |exact S4]; lia).
  destruct (if bool_decide (n = 6%nat) then _ else _) as [[te2 h5]|] eqn:E2;
    cbn [bind] in H; [|done].
  assert (keeps h h5 ∧ all_fresh_on_cpu te2) as [K5 F2].
  { destruct (bool_decide (n = 6%nat)).
    - destruct (list_getitem h4 (length h) 1) as [b'|]; cbn [bind] in E2; [|done].
      destruct (list_getitem h4 (length h1) 1) as [d'|]; cbn [bind] in E2; [|done].
      destruct (make_state_dict_of _ _ _ _ _ _ _ _ _ b' d' _ _ _) as [t2|] eqn:E3;
        cbn [bind] in E2; [|done].
      apply make_state_dict_of_fresh in E3.
      destruct (list_setitem h4 (length h) 1 None) as [h6|] eqn:S6;
        cbn [bind] in E2; [|done].
      assert (keeps h h6) as K6 by (eapply keeps_setitem; [exact K4| |exact S6]; lia).
      destruct (list_setitem h6 (length h1) 1 None) as [h7|] eqn:S7;
        cbn [bind] in E2; [|done].
      injection E2 as <- <-.
      split; [eapply keeps_setitem; [exact K6| |exact S7]; lia|done].
    - injection E2 as <- <-. split; [done|].
      intros k t Hk. by rewrite lookup_empty in Hk. }
  destruct (list_getitem h5 (length h) 2) as [b''|]; cbn [bind] in H; [|done].
  destruct (list_getitem h5 (length h1) 2) as [d''|]; cbn [bind] in H; [|done].
  destruct (make_state_dict_of _ _ _ _ _ _ _ _ _ b'' d'' _ _ _) as [un|] eqn:E4;
    cbn [bind] in H; [|done].
  apply make_state_dict_of_fresh in E4.
  injection H as <- <-. split; [exact K5|].
  by repeat apply all_fresh_union.
Qed.

Lemma extract_diff_is_read_only_witness :
  let h : heap := [Some <$> example_base_bundle; Some <$> example_finetuned_bundle] in
  let h' : heap :=
    h ++ [[None; None; Some (example_unet conv_base)];
          [None; None; Some (example_unet conv_finetuned)]] in
  extract_diff_call svd_diag "fixed" 1 1 Cpu true (qfrac 1 2) true h 0 1 0
  = Ok (example_extracted, h')
  ∧ (∀ a l, h !! a = Some l → h' !! a = Some l)
  ∧ (∀ k t, example_extracted !! k = Some t → t_storage t = FreshStorage ∧ t_device t = Cpu).
Proof.
  intros h h'.
  assert (extract_diff_call svd_diag "fixed" 1 1 Cpu true (qfrac 1 2) true h 0 1 0
          = Ok (example_extracted, h')) as E by by_evaluation.
  split; [exact E|].
  exact (extract_diff_is_read_only svd_diag "fixed" 1 1 Cpu true (qfrac 1 2) true
           h h' 0 1 0 example_extracted E).
Defined.

(** ** The round trip in exact arithmetic *)

Lemma qsum_app l1 l2 : qsum (l1 ++ l2) = qsum l1 + qsum l2.
Proof.
  induction l1 as [|x l1 IH]; simpl; [ring|]. rewrite IH. ring.
Qed.

Lemma qsum_zero l : (∀ x, x ∈ l → x = 0) → qsum l = 0.
Proof.
  induction l as [|x l IH]; intros H; simpl; [done|].
  rewrite (H x) by (apply elem_of_cons; by left).
  rewrite IH; [ring|]. intros y Hy. apply H, elem_of_cons. by right.
Qed.

(** Terms that vanish from the index [r] on do not contribute. *)
Lemma sum_upto_extend r p f :
  (r ≤ p)%nat → (∀ l, (r ≤ l < p)%nat → f l = 0) → sum_upto p f = sum_upto r f.
Proof.
  intros Hrp Hf. unfold sum_upto.
  replace p with (r + (p - r))%nat at 1 by lia.
  rewrite seq_app, fmap_app, qsum_app.
  rewrite (qsum_zero (f <$> seq (0 + r) (p - r))); [ring|].
  intros x Hx. apply list_elem_of_fmap in Hx as (l & -> & Hl).
  apply elem_of_seq in Hl. apply Hf. lia.
Qed.

Lemma mk_tget_id t : wf t → mk (t_shape t) (tget t) = t_data t.
Proof. intros H. by apply (of_contents_id (t_shape t) (t_data t)). Qed.

Lemma tget_view sh t idx : t_shape t = sh → tget (view sh t) idx = tget t idx.
Proof. intros <-. done. Qed.

(** The product of the factors of a truncated decomposition is the matrix
    itself when the singular values from the index [r] on are zero. *)
Lemma low_rank_product (D U Sg Vh A B : Tensor) (m n p r : nat) :
  t_shape D = [m; n] → wf D →
  t_shape A = [r; n] → t_shape B = [m; r] →
  t_device A = t_device B → t_dtype A = t_dtype B →
  (r ≤ p)%nat →
  (∀ i j, (i < m)%nat → (j < n)%nat →
     tget D [i; j] = sum_upto p (fun l => tget U [i; l] * tget Sg [l] * tget Vh [l; j])) →
  (∀ l, (r ≤ l < p)%nat → tget Sg [l] = 0) →
  (∀ l j, (l < r)%nat → (j < n)%nat → tget A [l; j] = tget Vh [l; j]) →
  (∀ i j, (i < m)%nat → (j < r)%nat → tget B [i; j] = tget U [i; j] * tget Sg [j]) →
  ∃ R, matmul B A = Ok R ∧ t_shape R = [m; n] ∧ t_data R = t_data D
       ∧ t_device R = t_device B ∧ t_dtype R = t_dtype B.
Proof.
  intros HD WD HA HB Hdev Hty Hrp Hex Hrk HAv HBv.
  rewrite (matmul_eq B A m r n) by done.
  eexists. split; [reflexivity|]. unfold fresh. cbn [t_shape t_data t_device t_dtype].
  split; [done|]. split; [|done].
  rewrite <- (mk_tget_id D WD), HD. apply mk_ext. intros idx Hidx.
  destruct idx as [|i [|j [|]]]; try (by inversion Hidx as [|? ? ? ? ? Hr]; inversion Hr as [|? ? ? ? ? Hr2]; inversion Hr2).
  apply valid_index_2 in Hidx as [Hi Hj].
  rewrite Hex by done. rewrite (sum_upto_extend r p) by
    (try done; intros l Hl; rewrite (Hrk l Hl); ring).
  apply sum_upto_ext. intros l Hl. by rewrite HBv, HAv.
Qed.

Lemma Ok_inj {A} (a b : A) : Ok a = Ok b → a = b.
Proof. congruence. Qed.

Lemma broadcast_shapes_one sh : sh ≠ [] → broadcast_shapes sh [1%nat] = Ok sh.
Proof.
  intros Hsh. unfold broadcast_shapes.
  assert (reverse sh ≠ []) as Hr.
  { intros E. apply (f_equal reverse) in E. by rewrite reverse_involutive in E. }
  rewrite <- (reverse_involutive sh) at 2. revert Hr. generalize (reverse sh) as l.
  intros [|x rest] Hl; [done|].
  change (reverse [1%nat]) with [1%nat]. cbn [broadcast_rev].
  assert (broadcast_rev rest [] = Ok rest) as -> by by destruct rest.
  cbn [bind].
  destruct (decide (x = 1%nat)) as [->|]; [done|]. by rewrite decide_True.
Qed.

Lemma zip_with_valid sh idx :
  valid_index sh idx →
  zip_with (fun d i => if decide (d = 1%nat) then 0%nat else i) sh idx = idx.
Proof.
  intros H. induction H as [|i d idx sh Hi _ IH]; [done|].
  cbn [zip_with]. rewrite IH. f_equal. case_decide; lia.
Qed.

Lemma bget_self t idx : valid_index (t_shape t) idx → bget t idx = tget t idx.
Proof.
  intros H. unfold bget. rewrite (Forall2_length _ _ _ H), Nat.sub_diag, drop_0.
  by rewrite zip_with_valid.
Qed.

Lemma bget_one dt dev x idx :
  idx ≠ [] → bget (fresh dt dev [1%nat] [x]) idx = x.
Proof.
  intros Hidx. unfold bget, fresh. cbn [t_shape length].
  destruct (drop (length idx - 1) idx) as [|y l] eqn:E.
  - apply (f_equal length) in E. rewrite length_drop in E. cbn in E.
    destruct idx; [done|]. cbn in E. lia.
  - cbn [zip_with]. unfold tget. cbn. by rewrite decide_True.
Qed.

(** Multiplying by the one-element tensor [[1]] changes no element. *)
Lemma mul_unit x dt :
  wf x → t_shape x ≠ [] →
  mul x (fresh dt (t_device x) [1%nat] [1])
  = Ok (fresh (promote (t_dtype x) dt) (t_device x) (t_shape x) (t_data x)).
Proof.
  intros Wx Hsh. unfold mul, binop. cbn [t_device t_shape t_dtype t_data fresh].
  rewrite decide_True by done. rewrite broadcast_shapes_one by done. cbn [bind].
  do 2 f_equal. case_decide as Hd.
  - unfold wf in Wx. rewrite Hd in Wx. cbn in Wx.
    destruct (t_data x) as [|d [|]]; try done. cbn. f_equal. ring.
  - transitivity (mk (t_shape x) (tget x)); [|by apply mk_tget_id].
    apply mk_ext. intros idx Hidx.
    rewrite bget_self by done.
    rewrite (bget_one dt (t_device x) 1 idx); [ring|].
    intros ->. by apply Forall2_nil_inv_l in Hidx.
Qed.

Lemma qn_div_self r : (1 ≤ r)%nat → qn r / qn r * 1 = 1.
Proof.
  intros Hr. assert (qn r ≠ 0) as Hne.
  { intros H. unfold qn, qz in H. rewrite <- Z2Qc_inj_0 in H. apply Z2Qc_inj in H. lia. }
  field. done.
Qed.

Lemma as_matrix_view t m r rest :
  t_shape t = m :: rest → (1 ≤ m)%nat → length (t_data t) = (m * r)%nat →
  as_matrix t = Ok (view [m; r] t).
Proof.
  intros Hs Hm Hl. unfold as_matrix, size. rewrite Hs. cbn [lookup list_lookup bind].
  rewrite reshape_rows; [|done|by rewrite Hl, Nat.mul_comm, Nat.Div0.mod_mul].
  unfold view. do 3 f_equal. rewrite Hl, Nat.mul_comm. by rewrite Nat.div_mul by lia.
Qed.

(** Merging a low-rank pair whose [alpha] is its rank, with scale 1, adds the
    product of the two factors to the weight. *)
Lemma rebuild_weight_locon_exact (up down W R : Tensor) bias (m r n : nat) rest_up rest_down :
  t_shape up = m :: r :: rest_up → length (t_data up) = (m * r)%nat →
  t_shape down = r :: rest_down → length (t_data down) = (r * n)%nat →
  (1 ≤ m)%nat → (1 ≤ r)%nat →
  matmul (view [m; r] up) (view [r; n] down) = Ok R →
  wf W → t_shape W ≠ [] → numel (t_shape W) = (m * n)%nat → t_device W = Cpu →
  t_device up = Cpu →
  ∃ M, rebuild_weight (Locon up down None (Some (tensor_of_number r))) (Some W) bias 1
       = Ok (Some M, bias)
     ∧ t_shape M = t_shape W
     ∧ t_data M = zip_with Qcplus (t_data W) (t_data R)
     ∧ t_device M = Cpu.
Proof.
  intros Hup Lup Hdn Ldn Hm Hr HR WW HW NW DW Dup.
  unfold rebuild_weight.
  unfold size at 1. rewrite Hup. cbn [lookup list_lookup bind].
  unfold rescale, div_int, tensor_of_number. rewrite decide_False by lia.
  cbn [bind is_floating fresh t_dtype t_device t_shape t_data fmap list_fmap mul_number map_tensor].
  rewrite (as_matrix_view up m r _ Hup Hm Lup). cbn [bind].
  rewrite (as_matrix_view down r n _ Hdn Hr Ldn). cbn [bind].
  rewrite HR. cbn [bind].
  assert (t_shape R = [m; n] ∧ length (t_data R) = (m * n)%nat ∧ t_device R = Cpu)
    as (HRs & HRl & HRd).
  { assert (t_device up = t_device down ∧ t_dtype up = t_dtype down) as [Hdd Htt].
    { unfold matmul in HR. cbn [view t_shape t_device t_dtype] in HR.
      case_decide as Hd; [by destruct Hd|done]. }
    rewrite (matmul_eq (view [m; r] up) (view [r; n] down) m r n eq_refl eq_refl Hdd Htt) in HR.
    apply Ok_inj in HR. subst R.
    unfold fresh. cbn [t_shape t_data t_device view]. rewrite length_mk.
    split; [done|]. split; [numel_solve|done]. }
  unfold add_scaled. rewrite reshape_zshape by (rewrite HRl; done). cbn [bind times].
  unfold mul_number, map_tensor, fresh.
  cbn [t_dtype t_device t_shape t_data fmap list_fmap].
  rewrite qn_div_self by done.
  set (Rv := mkTensor _ _ _ (t_shape W) (t_data R)).
  assert (mul Rv (fresh Float32 Cpu [1%nat] [1])
          = Ok (fresh (promote (t_dtype Rv) Float32) (t_device Rv) (t_shape Rv) (t_data Rv)))
    as Hmul.
  { replace Cpu with (t_device Rv) at 1 by (unfold Rv; cbn; done).
    apply mul_unit; [unfold wf, Rv; cbn [t_data t_shape]; congruence | exact HW]. }
  unfold fresh in Hmul at 1. rewrite Hmul. cbn [bind].
  unfold add. rewrite binop_same by (unfold Rv, fresh; cbn; congruence).
  eexists. split; [reflexivity|]. unfold fresh, Rv. cbn. done.
Qed.

Lemma fixed_rank_kept out_ch in_ch r :
  (1 ≤ r)%nat → (r ≤ in_ch)%nat → (2 * r < out_ch)%nat →
  clamp_rank out_ch in_ch (qn r) = qn r ∧ rank_is_full out_ch (qn r) = false.
Proof.
  intros H1 Hi Ho. split.
  - rewrite clamp_rank_qn. f_equal. lia.
  - unfold rank_is_full. apply qle_false. apply Qcnot_le_lt. rewrite half_le. lia.
Qed.

Lemma linear_round_trip svd D W bias dev out_ch in_ch r U Sg Vh :
  t_shape D = [out_ch; in_ch] → wf D →
  (1 ≤ r)%nat → (r ≤ in_ch)%nat → (2 * r < out_ch)%nat →
  linalg_svd svd (to_device dev (float D)) = Ok (U, Sg, Vh) →
  exact_svd D U Sg Vh out_ch in_ch → rank_at_most r Sg (out_ch `min` in_ch) →
  t_shape W = [out_ch; in_ch] → wf W → t_device W = Cpu →
  round_trip (extract_linear svd D "fixed" (qn r) dev) D W bias r.
Proof.
  intros HD WD H1 Hi Ho Hsvd Hex Hrk HW WW DW.
  destruct (fixed_rank_kept out_ch in_ch r H1 Hi Ho) as [Hc Hf].
  destruct (extract_linear_low_rank svd D "fixed" (qn r) dev out_ch in_ch U Sg Vh (qn r) r)
    as (A & B & diff & Hext & (HA & WA & HB & WB & _) & Hall & HAv & HBv & _);
    try done; try lia.
  apply Forall_cons in Hall as [(_ & DA & TA) Hall].
  apply Forall_cons in Hall as [(_ & DB & TB) _].
  unfold wf in WA, WB. rewrite HA in WA. rewrite HB in WB.
  cbn [numel fold_right] in WA, WB. rewrite Nat.mul_1_r in WA, WB.
  destruct (low_rank_product D U Sg Vh (view [r; in_ch] A) (view [out_ch; r] B)
              out_ch in_ch (out_ch `min` in_ch) r)
    as (R & HR & HRs & HRd & _); try done; try lia.
  { cbn. congruence. }
  { cbn. congruence. }
  { intros l j Hl Hj. rewrite tget_view by done. by apply HAv. }
  { intros i j Hi' Hj. rewrite tget_view by done. by apply HBv. }
  destruct (rebuild_weight_locon_exact B A W R bias out_ch r in_ch [] [in_ch])
    as (M & HM & HMs & HMd & _); try done; try lia;
    try (rewrite HW; numel_solve).
  unfold round_trip. eexists _, _, _, _, _. split; [exact Hext|]. split.
  { rewrite (as_matrix_view B out_ch r [r]) by (try done; lia). cbn [bind].
    rewrite (as_matrix_view A r in_ch [in_ch]) by (try done; lia). done. }
  split; [exact HRd|]. split; [exact HM|]. split; [done|]. by rewrite HMd, HRd.
Qed.

Lemma conv_round_trip svd D W bias dev out_ch in_ch ks r U Sg Vh :
  let n := (in_ch * (ks * ks))%nat in
  t_shape D = [out_ch; in_ch; ks; ks] → wf D → (1 ≤ ks)%nat →
  (1 ≤ r)%nat → (r ≤ in_ch)%nat → (2 * r < out_ch)%nat →
  linalg_svd svd (view [out_ch; n] (to_device dev (float D))) = Ok (U, Sg, Vh) →
  exact_svd (view [out_ch; n] D) U Sg Vh out_ch n → rank_at_most r Sg (out_ch `min` n) →
  t_shape W = [out_ch; in_ch; ks; ks] → wf W → t_device W = Cpu →
  round_trip (extract_conv svd D "fixed" (qn r) dev false) D W bias r.
Proof.
  intros n HD WD Hks H1 Hi Ho Hsvd Hex Hrk HW WW DW.
  destruct (fixed_rank_kept out_ch in_ch r H1 Hi Ho) as [Hc Hf].
  assert (r ≤ n)%nat as Hrn.
  { unfold n. assert (1 ≤ ks * ks)%nat by nia.
    assert (in_ch * 1 ≤ in_ch * (ks * ks))%nat by (apply Nat.mul_le_mono_l; done). lia. }
  destruct (extract_conv_low_rank svd D "fixed" (qn r) dev false out_ch in_ch ks
              U Sg Vh (qn r) r)
    as (A & B & diff & Hext & (HA & WA & HB & WB & _) & Hall & HAv & HBv & _);
    try done; try lia.
  { by rewrite Hf. }
  fold n in HAv.
  apply Forall_cons in Hall as [(_ & DA & TA) Hall].
  apply Forall_cons in Hall as [(_ & DB & TB) _].
  unfold wf in WA, WB, WD. rewrite HA in WA. rewrite HB in WB. rewrite HD in WD.
  cbn [numel fold_right] in WA, WB, WD. rewrite ?Nat.mul_1_r in WA, WB, WD.
  assert (length (t_data A) = (r * n)%nat) as LA by (unfold n; lia).
  assert (length (t_data D) = (out_ch * n)%nat) as LD by (unfold n; lia).
  destruct (low_rank_product (view [out_ch; n] D) U Sg Vh (view [r; n] A) (view [out_ch; r] B)
              out_ch n (out_ch `min` n) r)
    as (R & HR & HRs & HRd & _); try done; try lia.
  { unfold wf. cbn [view t_data t_shape]. rewrite LD. numel_solve. }
  { cbn. congruence. }
  { cbn. congruence. }
  destruct (rebuild_weight_locon_exact B A W R bias out_ch r n [1; 1]%nat [in_ch; ks; ks])
    as (M & HM & HMs & HMd & _); try done; try lia;
    try (rewrite HW; unfold n; numel_solve).
  unfold round_trip. eexists _, _, _, _, _. split; [exact Hext|]. split.
  { rewrite (as_matrix_view B out_ch r [r; 1; 1]%nat) by (try done; lia). cbn [bind].
    rewrite (as_matrix_view A r n [in_ch; ks; ks]) by (try done; lia). exact HR. }
  split; [exact HRd|]. split; [exact HM|]. split; [done|]. by rewrite HMd, HRd.
Qed.

(** ** The rank of a product *)

Lemma sum_upto_S n f : sum_upto (S n) f = sum_upto n f + f n.
Proof. unfold sum_upto. rewrite seq_S, fmap_app, qsum_app. simpl. ring. Qed.

Lemma sum_upto_plus n f g :
  sum_upto n (fun i => f i + g i) = sum_upto n f + sum_upto n g.
Proof.
  induction n as [|n IH]; [unfold sum_upto; simpl; ring|].
  rewrite !sum_upto_S, IH. ring.
Qed.

Lemma sum_upto_scale n c f : sum_upto n (fun i => c * f i) = c * sum_upto n f.
Proof.
  induction n as [|n IH]; [unfold sum_upto; simpl; ring|].
  rewrite !sum_upto_S, IH. ring.
Qed.

Lemma sum_upto_swap n m (f : nat → nat → Qc) :
  sum_upto n (fun i => sum_upto m (f i))
  = sum_upto m (fun j => sum_upto n (fun i => f i j)).
Proof.
  induction n as [|n IH].
  - unfold sum_upto at 1. simpl. symmetry.
    rewrite (sum_upto_ext m _ (fun _ => 0 * 0)) by (intros; unfold sum_upto; simpl; ring).
    rewrite sum_upto_scale. ring.
  - rewrite sum_upto_S, IH, <- sum_upto_plus. apply sum_upto_ext.
    intros j _. by rewrite sum_upto_S.
Qed.

Lemma comb_app c1 c2 L1 L2 a :
  length c1 = length L1 →
  comb (c1 ++ c2) (L1 ++ L2) a = comb c1 L1 a + comb c2 L2 a.
Proof. intros H. unfold comb. by rewrite zip_with_app, qsum_app. Qed.

Lemma comb_zero c L a : Forall (fun v => v a = 0) L → comb c L a = 0.
Proof.
  intros H. revert c. induction H as [|v L Hv _ IH]; intros [|x c]; try done.
  unfold comb in *. simpl. rewrite Hv, IH. ring.
Qed.

Lemma comb_eliminate r v0 c L a :
  comb c (eliminate r v0 <$> L) a
  = comb c L a - qsum (zip_with (fun x v => x * (v r / v0 r)) c L) * v0 a.
Proof.
  revert L. induction c as [|x c IH]; intros [|v L]; unfold comb in *; simpl;
    try ring.
  rewrite IH. unfold eliminate. ring.
Qed.

(** More vectors than coordinates: a combination with coefficients that are
    not all zero vanishes. *)
Lemma dependent r (L : list (nat → Qc)) :
  length L = S r →
  ∃ c, length c = S r ∧ Exists (fun x => x ≠ 0) c
       ∧ ∀ a, (a < r)%nat → comb c L a = 0.
Proof.
  revert L. induction r as [|r IH]; intros L HL.
  - exists [1]. split; [done|]. split; [|intros; lia].
    apply Exists_cons_hd. discriminate.
  - destruct (Forall_Exists_dec (fun v => v r = 0) (fun v => v r ≠ 0)
                (fun v => Qc_eq_dec (v r) 0) L) as [Hall|Hex].
    + destruct L as [|v L']; [done|].
      destruct (IH L') as (c' & Hc' & Hne & Hz); [simpl in HL; lia|].
      exists (0 :: c'). split; [simpl; lia|]. split; [by apply Exists_cons_tl|].
      intros a Ha. destruct (decide (a = r)) as [->|Har]; [by apply comb_zero|].
      unfold comb. simpl. fold (comb c' L' a). rewrite Hz by lia. ring.
    + apply Exists_exists in Hex as (v0 & Hin & Hv0).
      apply list_elem_of_split in Hin as (L1 & L2 & ->).
      rewrite length_app in HL. simpl in HL.
      destruct (IH (eliminate r v0 <$> (L1 ++ L2))) as (c' & Hc' & Hne & Hz).
      { rewrite length_fmap, length_app. lia. }
      set (K := qsum (zip_with (fun x v => x * (v r / v0 r)) c' (L1 ++ L2))).
      exists (take (length L1) c' ++ (- K) :: drop (length L1) c').
      split. { rewrite length_app, length_take. simpl. rewrite length_drop. lia. }
      split.
      { rewrite <- (take_drop (length L1) c') in Hne.
        apply Exists_app in Hne as [Hne|Hne]; apply Exists_app; [by left|].
        right. by apply Exists_cons_tl. }
      intros a Ha.
      assert (comb (take (length L1) c' ++ - K :: drop (length L1) c') (L1 ++ v0 :: L2) a
              = comb c' (eliminate r v0 <$> (L1 ++ L2)) a) as ->.
      { rewrite comb_eliminate. fold K.
        rewrite <- (take_drop (length L1) c') at 3.
        rewrite !comb_app by (rewrite length_take; lia).
        unfold comb at 2. simpl. fold (comb (drop (length L1) c') L2 a). ring. }
      destruct (decide (a = r)) as [->|Har]; [|apply Hz; lia].
      apply comb_zero. apply Forall_fmap, Forall_forall. intros v _.
      unfold eliminate. simpl. field. exact Hv0.
Qed.

Lemma zip_with_seq {A} (g : Qc → A → Qc) (f : nat → A) c s n :
  length c = n →
  zip_with g c (f <$> seq s n) = (fun k => g (nth (k - s) c 0) (f k)) <$> seq s n.
Proof.
  revert s n. induction c as [|x c IH]; intros s [|n] Hn; try done.
  cbn [seq]. rewrite !fmap_cons. cbn [zip_with]. rewrite Nat.sub_diag. f_equal.
  rewrite (IH (S s) n) by (simpl in Hn; lia).
  apply list_fmap_ext. intros i k Hk. apply lookup_seq in Hk as [-> _].
  by replace (S s + i - s)%nat with (S (S s + i - S s)) by lia.
Qed.

Lemma comb_seq c (P : nat → nat → Qc) n a :
  length c = n →
  comb c (P <$> seq 0 n) a = sum_upto n (fun k => nth k c 0 * P k a).
Proof.
  intros Hn. unfold comb, sum_upto. rewrite (zip_with_seq _ P c 0 n Hn).
  f_equal. apply list_fmap_ext. intros i k _. by rewrite Nat.sub_0_r.
Qed.

(** A product of an [(r+1)] by [r] and an [r] by [(r+1)] matrix is not a
    diagonal matrix with a diagonal free of zeros. *)
Lemma product_rank (P Q : nat → nat → Qc) (s : nat → Qc) r :
  (∀ k k', (k ≤ r)%nat → (k' ≤ r)%nat →
     sum_upto r (fun a => P k a * Q a k') = if decide (k = k') then s k else 0) →
  ∃ k, (k ≤ r)%nat ∧ s k = 0.
Proof.
  intros H.
  destruct (dependent r (P <$> seq 0 (S r))) as (c & Hc & Hne & Hz).
  { by rewrite length_fmap, length_seq. }
  apply Exists_exists in Hne as (x & Hx & Hx0).
  apply list_elem_of_lookup in Hx as (k0 & Hk0).
  assert (k0 < S r)%nat as Hlt by (rewrite <- Hc; by eapply lookup_lt_Some).
  exists k0. split; [lia|].
  assert (nth k0 c 0 = x) as Hn by (by apply nth_lookup_Some with (d := 0) in Hk0).
  assert (nth k0 c 0 * s k0 = 0) as Hprod.
  { rewrite <- (sum_upto_single (S r) k0 (fun k => nth k c 0 * s k)) by done.
    rewrite (sum_upto_ext (S r) _
               (fun k => sum_upto r (fun a => nth k c 0 * P k a * Q a k0))).
    2:{ intros k Hk. destruct (decide (k = k0)) as [->|Hkk].
        - rewrite <- (decide_True (s k0) 0 (eq_refl k0)) at 1.
          rewrite <- H by lia. rewrite <- sum_upto_scale.
          apply sum_upto_ext. intros; ring.
        - transitivity (nth k c 0 * (if decide (k = k0) then s k else 0)).
          { rewrite decide_False by done. ring. }
          rewrite <- H by lia. rewrite <- sum_upto_scale.
          apply sum_upto_ext. intros; ring. }
    rewrite sum_upto_swap.
    rewrite (sum_upto_ext r _ (fun _ => 0 * 0)).
    { rewrite sum_upto_scale. ring. }
    intros a Ha.
    rewrite (sum_upto_ext (S r) _ (fun k => Q a k0 * (nth k c 0 * P k a)))
      by (intros; ring).
    rewrite sum_upto_scale, <- comb_seq by done. rewrite Hz by done. ring. }
  rewrite Hn in Hprod. apply Qcmult_integral in Hprod as [?|?]; done.
Qed.

Lemma sum_upto_prod n m c (u v : nat → Qc) :
  c * sum_upto n u * sum_upto m v
  = sum_upto n (fun i => sum_upto m (fun j => c * u i * v j)).
Proof.
  symmetry. rewrite (sum_upto_ext n _ (fun i => (c * sum_upto m v) * u i)).
  - rewrite sum_upto_scale. ring.
  - intros i _. rewrite sum_upto_scale. ring.
Qed.

Lemma sum_upto_rotate n m p (f : nat → nat → nat → Qc) :
  sum_upto n (fun i => sum_upto m (fun j => sum_upto p (fun c => f i j c)))
  = sum_upto p (fun c => sum_upto n (fun i => sum_upto m (fun j => f i j c))).
Proof.
  transitivity
    (sum_upto n (fun i => sum_upto p (fun c => sum_upto m (fun j => f i j c)))).
  - apply sum_upto_ext. intros i _. apply (sum_upto_swap m p (f i)).
  - apply (sum_upto_swap n p (fun i c => sum_upto m (fun j => f i j c))).
Qed.

Lemma svd_diagonal D U Sg Vh m n k k' :
  singular_value_decomposition D U Sg Vh m n →
  (k < m `min` n)%nat → (k' < m `min` n)%nat →
  sum_upto m (fun i => sum_upto n (fun j => tget U [i; k] * tget D [i; j] * tget Vh [k'; j]))
  = if decide (k = k') then tget Sg [k] else 0.
Proof.
  intros (Hex & HU & HV & _) Hk Hk'.
  rewrite (sum_upto_ext m _
    (fun i => sum_upto n (fun j => sum_upto (m `min` n) (fun c =>
       tget Sg [c] * (tget U [i; k] * tget U [i; c]) * (tget Vh [c; j] * tget Vh [k'; j]))))).
  2:{ intros i Hi. apply sum_upto_ext. intros j Hj. rewrite Hex by done.
      match goal with
      | |- _ * ?s * _ = _ => transitivity ((tget U [i; k] * tget Vh [k'; j]) * s); [ring|]
      end.
      rewrite <- sum_upto_scale. apply sum_upto_ext. intros; ring. }
  rewrite sum_upto_rotate.
  rewrite (sum_upto_ext _ _
    (fun c => if decide (c = k) then (if decide (c = k') then tget Sg [c] else 0) else 0)).
  - rewrite sum_upto_single by done. destruct (decide (k = k')); done.
  - intros c Hc. rewrite <- sum_upto_prod. rewrite HU, HV by done.
    destruct (decide (k = c)) as [->|Hne].
    + rewrite (decide_True (P := c = c)) by done. destruct (decide (c = k')); ring.
    + rewrite (decide_False (P := c = k)) by congruence. ring.
Qed.

Lemma product_diagonal D U0 V0 U Vh m r n k k' :
  is_product D U0 V0 m r n →
  sum_upto m (fun i => sum_upto n (fun j => tget U [i; k] * tget D [i; j] * tget Vh [k'; j]))
  = sum_upto r (fun a =>
      sum_upto m (fun i => tget U [i; k] * tget U0 [i; a])
      * sum_upto n (fun j => tget V0 [a; j] * tget Vh [k'; j])).
Proof.
  intros HD.
  rewrite (sum_upto_ext m _
    (fun i => sum_upto n (fun j => sum_upto r (fun a =>
       1 * (tget U [i; k] * tget U0 [i; a]) * (tget V0 [a; j] * tget Vh [k'; j]))))).
  2:{ intros i Hi. apply sum_upto_ext. intros j Hj. rewrite HD by done.
      match goal with
      | |- _ * ?s * _ = _ => transitivity ((tget U [i; k] * tget Vh [k'; j]) * s); [ring|]
      end.
      rewrite <- sum_upto_scale. apply sum_upto_ext. intros; ring. }
  rewrite sum_upto_rotate. apply sum_upto_ext. intros a _.
  rewrite <- sum_upto_prod. ring.
Qed.

(** A product with inner dimension [r] has at most [r] singular values that
    are not zero. *)
Lemma rank_of_product D U0 V0 U Sg Vh m r n :
  is_product D U0 V0 m r n →
  singular_value_decomposition D U Sg Vh m n →
  rank_at_most r Sg (m `min` n).
Proof.
  intros HD Hsvd l [Hrl Hlp].
  destruct (product_rank
              (fun k a => sum_upto m (fun i => tget U [i; k] * tget U0 [i; a]))
              (fun a k' => sum_upto n (fun j => tget V0 [a; j] * tget Vh [k'; j]))
              (fun k => tget Sg [k]) r) as (k & Hk & Hz).
  { intros k k' Hk Hk'. rewrite <- (product_diagonal D U0 V0 U Vh m r n k k' HD).
    apply (svd_diagonal D U Sg Vh m n k k' Hsvd); lia. }
  destruct Hsvd as (_ & _ & _ & Hdesc).
  destruct (Hdesc k l) as [H0 Hle]; [lia|done|].
  rewrite Hz in Hle. by apply Qcle_antisym.
Qed.

Lemma forallb_seq2 (P : nat → nat → Prop) `{∀ i j, Decision (P i j)} m n :
  forallb (fun i => forallb (fun j => bool_decide (P i j)) (seq 0 n)) (seq 0 m) = true →
  ∀ i j, (i < m)%nat → (j < n)%nat → P i j.
Proof.
  rewrite forallb_forall. intros Hf i j Hi Hj.
  specialize (Hf i). rewrite forallb_forall in Hf.
  eapply bool_decide_eq_true_1. apply Hf; apply in_seq; lia.
Qed.

Lemma check_is_product_spec D U0 V0 m r n :
  check_is_product D U0 V0 m r n = true → is_product D U0 V0 m r n.
Proof. intros Hc i j. revert Hc i j. apply forallb_seq2. Qed.

Lemma check_singular_value_decomposition_spec D U Sg Vh m n :
  check_singular_value_decomposition D U Sg Vh m n = true →
  singular_value_decomposition D U Sg Vh m n.
Proof.
  unfold check_singular_value_decomposition. rewrite !andb_true_iff.
  intros [[[H1 H2] H3] H4]. repeat split.
  - intros i j. revert H1 i j. apply forallb_seq2.
  - intros k k'. revert H2 k k'. apply forallb_seq2.
  - intros k k'. revert H3 k k'. apply forallb_seq2.
  - unfold check_descending in H4. rewrite forallb_forall in H4.
    specialize (H4 l). rewrite forallb_forall in H4.
    specialize (H4 ltac:(apply in_seq; lia) k ltac:(apply in_seq; lia)).
    apply andb_true_iff in H4 as [H4 _]. by apply qle_true.
  - unfold check_descending in H4. rewrite forallb_forall in H4.
    specialize (H4 l). rewrite forallb_forall in H4.
    specialize (H4 ltac:(apply in_seq; lia) k ltac:(apply in_seq; lia)).
    apply andb_true_iff in H4 as [_ H4]. by apply qle_true.
Qed.

(** C2, counterexample. [diff_conv] is the product of a 5 by 2 and a 2 by 4
    matrix, the oracle returns a singular value decomposition of it
    (singular values 2, 1, 0, 0), and [r = 2 < 5/2]. Yet [extract_conv] with
    [mode = 'fixed'] and [mode_param = 2] clamps the rank to [in_ch = 1] and
    returns a pair whose product lacks the second singular component: the
    round trip fails. For [extract_linear], a zero difference of a 2 by 2
    layer with [r = 0 < 2/2] is returned as ['full'], not as a low-rank
    pair. *)
Lemma round_trip_counterexample :
  t_shape diff_conv = [5; 1; 2; 2]%nat
  ∧ (t_data <$> matmul diff_conv_U diff_conv_V) = Ok (t_data diff_conv)
  ∧ is_product (view [5; 4]%nat diff_conv) diff_conv_U diff_conv_V 5 2 4
  ∧ (let '(U, Sg, Vh) := svd_of svd_diag (view [5; 4]%nat diff_conv) in
     singular_value_decomposition (view [5; 4]%nat diff_conv) U Sg Vh 5 4
     ∧ t_data Sg = [qz 2; qz 1; qz 0; qz 0])
  ∧ extract_conv svd_diag diff_conv "fixed" (qn 2) Cpu false
    = Ok (LowRank (entry Float32 [1; 1; 2; 2]%nat [1; 0; 0; 0]%Z)
            (entry Float32 [5; 1; 1; 1]%nat [2; 0; 0; 0; 0]%Z)
            (entry Float32 [5; 1; 2; 2]%nat
               [0; 0; 0; 0;  0; 1; 0; 0;  0; 0; 0; 0;  0; 0; 0; 0;  0; 0; 0; 0]%Z))
  ∧ (∀ W bias, ¬ round_trip (extract_conv svd_diag diff_conv "fixed" (qn 2) Cpu false)
                   diff_conv W bias 2)
  ∧ extract_linear svd_diag (entry Float32 [2; 2]%nat [0; 0; 0; 0]%Z) "fixed" (qn 0) Cpu
    = Ok (Full (entry Float32 [2; 2]%nat [0; 0; 0; 0]%Z)).
Proof.
  split; [reflexivity|]. split; [by_evaluation|].
  split; [apply check_is_product_spec; vm_compute; reflexivity|].
  split.
  { split; [|by_evaluation].
    apply check_singular_value_decomposition_spec. vm_compute. reflexivity. }
  assert (extract_conv svd_diag diff_conv "fixed" (qn 2) Cpu false
    = Ok (LowRank (entry Float32 [1; 1; 2; 2]%nat [1; 0; 0; 0]%Z)
            (entry Float32 [5; 1; 1; 1]%nat [2; 0; 0; 0; 0]%Z)
            (entry Float32 [5; 1; 2; 2]%nat
               [0; 0; 0; 0;  0; 1; 0; 0;  0; 0; 0; 0;  0; 0; 0; 0;  0; 0; 0; 0]%Z))) as E
    by by_evaluation.
  split; [exact E|]. split; [|by_evaluation].
  intros W bias (A & B & resid & R & M & H1 & H2 & H3 & _).
  rewrite E in H1. apply Ok_inj in H1. injection H1 as <- <- <-.
  assert ((u <- as_matrix (entry Float32 [5; 1; 1; 1]%nat [2; 0; 0; 0; 0]%Z);;
           d <- as_matrix (entry Float32 [1; 1; 2; 2]%nat [1; 0; 0; 0]%Z);;
           matmul u d)
          = Ok (entry Float32 [5; 4]%nat
                  [2; 0; 0; 0;  0; 0; 0; 0;  0; 0; 0; 0;  0; 0; 0; 0;  0; 0; 0; 0]%Z)) as E2
    by by_evaluation.
  rewrite E2 in H2. apply Ok_inj in H2. subst R. revert H3. by_evaluation.
Qed.

(** ** The round trip within a tolerance *)

Lemma qabs_within x c : - c ≤ x → x ≤ c → qabs x ≤ c.
Proof.
  intros H1 H2. unfold qabs. destruct (qlt x 0); [|done].
  apply Qcopp_le_compat in H1. by rewrite Qcopp_involutive in H1.
Qed.

Lemma within_qabs x c : qabs x ≤ c → - c ≤ x ∧ x ≤ c.
Proof.
  unfold qabs. destruct (qlt x 0) eqn:E; intros H.
  - apply qlt_true in E. split.
    + apply Qcopp_le_compat in H. by rewrite Qcopp_involutive in H.
    + eapply Qcle_trans; [|exact H]. apply Qclt_le_weak in E.
      eapply Qcle_trans; [exact E|]. apply Qcopp_le_compat in E.
      by replace (- 0) with 0 in E by ring.
  - apply qlt_false in E. split; [|done].
    eapply Qcle_trans; [|exact E].
    assert (0 ≤ c) as Hc by by eapply Qcle_trans.
    apply Qcopp_le_compat in Hc. by replace (- 0) with 0 in Hc by ring.
Qed.

Lemma qabs_plus_le a b ea eb : qabs a ≤ ea → qabs b ≤ eb → qabs (a + b) ≤ ea + eb.
Proof.
  intros [A1 A2]%within_qabs [B1 B2]%within_qabs. apply qabs_within.
  - replace (- (ea + eb)) with (- ea + - eb) by ring. by apply Qcplus_le_compat.
  - by apply Qcplus_le_compat.
Qed.

(** The product of the factors of a truncated decomposition is the sum of
    the terms of the kept singular values. *)
Lemma truncated_product (U Sg Vh A B : Tensor) (m n r : nat) :
  t_shape A = [r; n] → t_shape B = [m; r] →
  t_device A = t_device B → t_dtype A = t_dtype B →
  (∀ l j, (l < r)%nat → (j < n)%nat → tget A [l; j] = tget Vh [l; j]) →
  (∀ i j, (i < m)%nat → (j < r)%nat → tget B [i; j] = tget U [i; j] * tget Sg [j]) →
  ∃ R, matmul B A = Ok R ∧ t_shape R = [m; n] ∧ length (t_data R) = (m * n)%nat
       ∧ ∀ i j, (i < m)%nat → (j < n)%nat → tget R [i; j] = svd_terms U Sg Vh r i j.
Proof.
  intros HA HB Hdev Hty HAv HBv.
  rewrite (matmul_eq B A m r n) by done.
  eexists. split; [reflexivity|]. unfold fresh. cbn [t_shape t_data].
  split; [done|]. split; [rewrite length_mk; numel_solve|].
  intros i j Hi Hj. rewrite tget_mk by by apply valid_index_2.
  apply sum_upto_ext. intros l Hl. by rewrite HBv, HAv.
Qed.

(** What the truncation misses of [D] is what the decomposition misses of it
    and what the dropped singular values carry. *)
Lemma truncation_within eps delta (D U Sg Vh R : Tensor) (m n r : nat) :
  svd_within eps D U Sg Vh m n → tail_within delta U Sg Vh m n r →
  (∀ i j, (i < m)%nat → (j < n)%nat → tget R [i; j] = svd_terms U Sg Vh r i j) →
  ∀ i j, (i < m)%nat → (j < n)%nat → qabs (tget D [i; j] - tget R [i; j]) ≤ eps + delta.
Proof.
  intros He Hd HR i j Hi Hj. rewrite HR by done.
  replace (tget D [i; j] - svd_terms U Sg Vh r i j)
    with ((tget D [i; j] - svd_terms U Sg Vh (m `min` n) i j)
          + (svd_terms U Sg Vh (m `min` n) i j - svd_terms U Sg Vh r i j)) by ring.
  apply qabs_plus_le; [by apply He|by apply Hd].
Qed.

(** The elements of a sum of two tensors, read as a matrix. *)
Lemma tget_sum (W R M : Tensor) (m n i j : nat) :
  length (t_data W) = (m * n)%nat → length (t_data R) = (m * n)%nat → t_shape R = [m; n] →
  t_data M = zip_with Qcplus (t_data W) (t_data R) →
  (i < m)%nat → (j < n)%nat →
  tget (view [m; n] M) [i; j] = tget (view [m; n] W) [i; j] + tget R [i; j].
Proof.
  intros LW LR HR HM Hi Hj. unfold tget, view. cbn [t_shape t_data]. rewrite HR, HM.
  assert (flat_index [m; n] [i; j] < m * n)%nat as Hlt.
  { pose proof (flat_index_lt [m; n] [i; j]) as Hf. cbn [numel fold_right] in Hf.
    rewrite Nat.mul_1_r in Hf. apply Hf. by apply valid_index_2. }
  apply nth_zip_with; lia.
Qed.

Lemma linear_round_trip_within svd eps delta D W bias dev out_ch in_ch r U Sg Vh :
  t_shape D = [out_ch; in_ch] → wf D →
  (1 ≤ r)%nat → (r ≤ in_ch)%nat → (2 * r < out_ch)%nat →
  linalg_svd svd (to_device dev (float D)) = Ok (U, Sg, Vh) →
  svd_within eps D U Sg Vh out_ch in_ch → tail_within delta U Sg Vh out_ch in_ch r →
  t_shape W = [out_ch; in_ch] → wf W → t_device W = Cpu →
  round_trip_within (eps + delta) (extract_linear svd D "fixed" (qn r) dev) D W bias
    r out_ch in_ch.
Proof.
  intros HD WD H1 Hi Ho Hsvd Hex Htl HW WW DW.
  destruct (fixed_rank_kept out_ch in_ch r H1 Hi Ho) as [Hc Hf].
  destruct (extract_linear_low_rank svd D "fixed" (qn r) dev out_ch in_ch U Sg Vh (qn r) r)
    as (A & B & diff & Hext & (HA & WA & HB & WB & _) & Hall & HAv & HBv & _);
    try done; try lia.
  apply Forall_cons in Hall as [(_ & DA & TA) Hall].
  apply Forall_cons in Hall as [(_ & DB & TB) _].
  unfold wf in WA, WB, WW. rewrite HA in WA. rewrite HB in WB. rewrite HW in WW.
  cbn [numel fold_right] in WA, WB, WW. rewrite Nat.mul_1_r in WA, WB, WW.
  destruct (truncated_product U Sg Vh (view [r; in_ch] A) (view [out_ch; r] B)
              out_ch in_ch r)
    as (R & HR & HRs & HRl & HRv); try done.
  { cbn. congruence. }
  { cbn. congruence. }
  { intros l j Hl Hj. rewrite tget_view by done. by apply HAv. }
  { intros i j Hi' Hj. rewrite tget_view by done. by apply HBv. }
  destruct (rebuild_weight_locon_exact B A W R bias out_ch r in_ch [] [in_ch])
    as (M & HM & HMs & HMd & _); try done; try lia;
    try (rewrite HW; numel_solve).
  { unfold wf. rewrite HW. numel_solve. }
  assert (∀ i j, (i < out_ch)%nat → (j < in_ch)%nat →
            qabs (tget D [i; j] - tget R [i; j]) ≤ eps + delta) as Hclose
    by by eapply truncation_within.
  unfold round_trip_within. eexists _, _, _, _, _. split; [exact Hext|]. split.
  { rewrite (as_matrix_view B out_ch r [r]) by (try done; lia). cbn [bind].
    rewrite (as_matrix_view A r in_ch [in_ch]) by (try done; lia). done. }
  split; [exact HRs|]. split.
  { intros i j Hi' Hj. rewrite tget_view by done. by apply Hclose. }
  split; [exact HM|]. split; [done|].
  intros i j Hi' Hj. rewrite (tget_sum W R M out_ch in_ch i j) by done.
  rewrite (tget_view _ D) by done.
  replace (tget (view [out_ch; in_ch] W) [i; j] + tget D [i; j]
           - (tget (view [out_ch; in_ch] W) [i; j] + tget R [i; j]))
    with (tget D [i; j] - tget R [i; j]) by ring.
  by apply Hclose.
Qed.

Lemma conv_round_trip_within svd eps delta D W bias dev out_ch in_ch ks r U Sg Vh :
  let n := (in_ch * (ks * ks))%nat in
  t_shape D = [out_ch; in_ch; ks; ks] → wf D → (1 ≤ ks)%nat →
  (1 ≤ r)%nat → (r ≤ in_ch)%nat → (2 * r < out_ch)%nat →
  linalg_svd svd (view [out_ch; n] (to_device dev (float D))) = Ok (U, Sg, Vh) →
  svd_within eps (view [out_ch; n] D) U Sg Vh out_ch n →
  tail_within delta U Sg Vh out_ch n r →
  t_shape W = [out_ch; in_ch; ks; ks] → wf W → t_device W = Cpu →
  round_trip_within (eps + delta) (extract_conv svd D "fixed" (qn r) dev false) D W bias
    r out_ch n.
Proof.
  intros n HD WD Hks H1 Hi Ho Hsvd Hex Htl HW WW DW.
  destruct (fixed_rank_kept out_ch in_ch r H1 Hi Ho) as [Hc Hf].
  assert (r ≤ n)%nat as Hrn.
  { unfold n. assert (1 ≤ ks * ks)%nat by nia.
    assert (in_ch * 1 ≤ in_ch * (ks * ks))%nat by (apply Nat.mul_le_mono_l; done). lia. }
  destruct (extract_conv_low_rank svd D "fixed" (qn r) dev false out_ch in_ch ks
              U Sg Vh (qn r) r)
    as (A & B & diff & Hext & (HA & WA & HB & WB & _) & Hall & HAv & HBv & _);
    try done; try lia.
  { by rewrite Hf. }
  fold n in HAv.
  apply Forall_cons in Hall as [(_ & DA & TA) Hall].
  apply Forall_cons in Hall as [(_ & DB & TB) _].
  unfold wf in WA, WB, WD, WW. rewrite HA in WA. rewrite HB in WB. rewrite HD in WD.
  rewrite HW in WW.
  cbn [numel fold_right] in WA, WB, WD, WW. rewrite ?Nat.mul_1_r in WA, WB, WD, WW.
  assert (length (t_data A) = (r * n)%nat) as LA by (unfold n; lia).
  assert (length (t_data W) = (out_ch * n)%nat) as LW by (unfold n; lia).
  destruct (truncated_product U Sg Vh (view [r; n] A) (view [out_ch; r] B) out_ch n r)
    as (R & HR & HRs & HRl & HRv); try done.
  { cbn. congruence. }
  { cbn. congruence. }
  destruct (rebuild_weight_locon_exact B A W R bias out_ch r n [1; 1]%nat [in_ch; ks; ks])
    as (M & HM & HMs & HMd & _); try done; try lia;
    try (rewrite HW; unfold n; numel_solve).
  { unfold wf. rewrite HW. unfold n in LW. rewrite LW. numel_solve. }
  assert (∀ i j, (i < out_ch)%nat → (j < n)%nat →
            qabs (tget (view [out_ch; n] D) [i; j] - tget R [i; j]) ≤ eps + delta) as Hclose
    by by eapply truncation_within.
  unfold round_trip_within. eexists _, _, _, _, _. split; [exact Hext|]. split.
  { rewrite (as_matrix_view B out_ch r [r; 1; 1]%nat) by (try done; lia). cbn [bind].
    rewrite (as_matrix_view A r n [in_ch; ks; ks]) by (try done; lia). exact HR. }
  split; [exact HRs|]. split; [exact Hclose|].
  split; [exact HM|]. split; [done|].
  intros i j Hi' Hj. rewrite (tget_sum W R M out_ch n i j) by done.
  replace (tget (view [out_ch; n] W) [i; j] + tget (view [out_ch; n] D) [i; j]
           - (tget (view [out_ch; n] W) [i; j] + tget R [i; j]))
    with (tget (view [out_ch; n] D) [i; j] - tget R [i; j]) by ring.
  by apply Hclose.
Qed.

Lemma check_svd_within_spec eps D U Sg Vh m n :
  check_svd_within eps D U Sg Vh m n = true → svd_within eps D U Sg Vh m n.
Proof. intros Hc i j. revert Hc i j. apply forallb_seq2. Qed.

Lemma check_tail_within_spec delta U Sg Vh m n r :
  check_tail_within delta U Sg Vh m n r = true → tail_within delta U Sg Vh m n r.
Proof. intros Hc i j. revert Hc i j. apply forallb_seq2. Qed.

(** C2, amended. In exact arithmetic on the factors that [torch.linalg.svd]
    returns, for a difference [D] and a rank [r] with [1 <= r <= in_ch] and
    [r < out_ch / 2]: when the returned factors reproduce [D] within [eps]
    element by element and the singular values of index [r] and above
    contribute at most [delta] (both are zero for an exact decomposition of
    a difference of rank [r], and of the order of the rounding for a
    computed one), [extract_linear] (for a weight of shape [out_ch, in_ch])
    and [extract_conv] (for a weight of shape [out_ch, in_ch, ks, ks],
    flattened to [out_ch] rows; here [in_ch], not [in_ch * ks * ks], bounds
    [r]) with [mode = 'fixed'] and [mode_param = r] return a ['low rank']
    pair whose product [lora_up @ lora_down] is within [eps + delta] of
    [D], and [rebuild_weight] on the ['locon'] entry with [scale = 1] and
    [alpha = r] returns a weight within [eps + delta] of [W + D]. *)
Theorem low_rank_round_trip (svd : svd_oracle) (dev : device) (r : nat) (eps delta : Qc)
    (Dl Wl Dc Wc : Tensor) (bl bc : option Tensor) (ol il oc ic ks : nat)
    (Ul Sl Vl Uc Sc Vc : Tensor) :
  (1 ≤ r)%nat →
  t_shape Dl = [ol; il] → wf Dl → (r ≤ il)%nat → (2 * r < ol)%nat →
  linalg_svd svd (to_device dev (float Dl)) = Ok (Ul, Sl, Vl) →
  svd_within eps Dl Ul Sl Vl ol il → tail_within delta Ul Sl Vl ol il r →
  t_shape Wl = [ol; il] → wf Wl → t_device Wl = Cpu →
  t_shape Dc = [oc; ic; ks; ks] → wf Dc → (1 ≤ ks)%nat → (r ≤ ic)%nat → (2 * r < oc)%nat →
  linalg_svd svd (view [oc; (ic * (ks * ks))%nat] (to_device dev (float Dc))) = Ok (Uc, Sc, Vc) →
  svd_within eps (view [oc; (ic * (ks * ks))%nat] Dc) Uc Sc Vc oc (ic * (ks * ks)) →
  tail_within delta Uc Sc Vc oc (ic * (ks * ks)) r →
  t_shape Wc = [oc; ic; ks; ks] → wf Wc → t_device Wc = Cpu →
  round_trip_within (eps + delta) (extract_linear svd Dl "fixed" (qn r) dev) Dl Wl bl
    r ol il
  ∧ round_trip_within (eps + delta) (extract_conv svd Dc "fixed" (qn r) dev false) Dc Wc bc
      r oc (ic * (ks * ks)).
Proof.
  intros H1 HDl WDl Hil Hol Hsl Hel Htl HWl WWl DWl
         HDc WDc Hks Hic Hoc Hsc Hec Htc HWc WWc DWc.
  split.
  - by eapply linear_round_trip_within.
  - by eapply (conv_round_trip_within svd eps delta Dc Wc bc dev oc ic ks r Uc Sc Vc).
Qed.

Lemma low_rank_round_trip_witness :
  round_trip_within (qfrac 1 1024 + qfrac 1 1024)
    (extract_linear svd_rounded diff_rotated "fixed" (qn 1) Cpu)
    diff_rotated weight_linear None 1 4 3
  ∧ round_trip_within (qfrac 1 1024 + qfrac 1 1024)
      (extract_conv svd_rounded conv_diff "fixed" (qn 1) Cpu false)
      conv_diff conv_base None 1 3 (1 * (2 * 2)).
Proof.
  apply (low_rank_round_trip svd_rounded Cpu 1 (qfrac 1 1024) (qfrac 1 1024)
           diff_rotated weight_linear conv_diff conv_base
           None None 4 3 3 1 2
           (svd_of svd_rounded diff_rotated).1.1 (svd_of svd_rounded diff_rotated).1.2
           (svd_of svd_rounded diff_rotated).2
           (svd_of svd_rounded (view [3; 4]%nat conv_diff)).1.1
           (svd_of svd_rounded (view [3; 4]%nat conv_diff)).1.2
           (svd_of svd_rounded (view [3; 4]%nat conv_diff)).2);
    try reflexivity; try lia;
    try (apply check_svd_within_spec; vm_compute; reflexivity);
    try (apply check_tail_within_spec; vm_compute; reflexivity);
    by_evaluation.
Defined.

(** * Further properties *)

#[local] Set Warnings "-clear-no-such-hyp".

(** ** Dispatch of [get_module] *)

Lemma has_key_true (d : state_dict) k : has_key d k = true ↔ is_Some (d !! k).
Proof. unfold has_key. apply bool_decide_eq_true. Qed.

Lemma has_key_false (d : state_dict) k : has_key d k = false ↔ d !! k = None.
Proof.
  unfold has_key. rewrite bool_decide_eq_false. split.
  - intros H. destruct (d !! k); [destruct H; eauto|done].
  - intros ->. by intros [? ?].
Qed.

Lemma getitem_Some (d : state_dict) k : is_Some (d !! k) → ∃ t, getitem d k = Ok t ∧ d !! k = Some t.
Proof. intros [t Ht]. exists t. unfold getitem. by rewrite Ht. Qed.

Lemma getitem_None (d : state_dict) k : d !! k = None → getitem d k = Raise KeyError.
Proof. intros H. unfold getitem. by rewrite H. Qed.

(** X1. [get_module] answers ['None'] exactly when the state holds none of
    the seven keys by which it tells the kinds apart. *)
Theorem get_module_none_iff (d : state_dict) (lora_name : string) :
  get_module d lora_name = Ok NoModule
  ↔ ∀ s, s ∈ signature_suffixes → d !! (lora_name +:+ s) = None.
Proof.
  split; [|apply get_module_missing].
  unfold get_module.
  destruct (has_key d (lora_name +:+ ".lora_up.weight")) eqn:E1; [bind_cases; discriminate|].
  destruct (has_key d (lora_name +:+ ".hada_w1_a")) eqn:E2; [bind_cases; discriminate|].
  destruct (has_key d (lora_name +:+ ".weight")) eqn:E3; [bind_cases; discriminate|].
  destruct (has_key d (lora_name +:+ ".lokr_w1")) eqn:E4; [discriminate|].
  destruct (has_key d (lora_name +:+ ".lokr_w1_a")) eqn:E5; [discriminate|].
  destruct (has_key d (lora_name +:+ ".diff")) eqn:E6; [bind_cases; discriminate|].
  destruct (has_key d (lora_name +:+ ".w_norm")) eqn:E7; [bind_cases; discriminate|].
  intros _ s Hs. apply has_key_false.
  unfold signature_suffixes in Hs. repeat (apply elem_of_cons in Hs as [->|Hs]; [done|]).
  by apply elem_of_nil in Hs.
Qed.

(** X2. The only exception of [get_module] is [KeyError], and it is raised
    exactly when the key that selects the kind is there without one of the
    keys subscripted next: [lora_up.weight] without [lora_down.weight], or
    (no [lora_up.weight] and) [hada_w1_a] without one of [hada_w1_b],
    [hada_w2_a], [hada_w2_b]. *)
Theorem get_module_raises_iff (d : state_dict) (lora_name : string) (e : error) :
  get_module d lora_name = Raise e
  ↔ e = KeyError
    ∧ ((is_Some (d !! (lora_name +:+ ".lora_up.weight"))
        ∧ d !! (lora_name +:+ ".lora_down.weight") = None)
       ∨ (d !! (lora_name +:+ ".lora_up.weight") = None
          ∧ is_Some (d !! (lora_name +:+ ".hada_w1_a"))
          ∧ (d !! (lora_name +:+ ".hada_w1_b") = None
             ∨ d !! (lora_name +:+ ".hada_w2_a") = None
             ∨ d !! (lora_name +:+ ".hada_w2_b") = None))).
Proof.
  unfold get_module.
  destruct (has_key d (lora_name +:+ ".lora_up.weight")) eqn:E1.
  { apply has_key_true in E1. destruct (getitem_Some _ _ E1) as (up & -> & Hup). cbn [bind].
    destruct (d !! (lora_name +:+ ".lora_down.weight")) as [down|] eqn:Hd.
    - unfold getitem. rewrite Hd. cbn [bind]. split; [discriminate|].
      intros [_ [[_ ?]|[H _]]]; [done|]. rewrite H in E1. by destruct E1.
    - rewrite (getitem_None _ _ Hd). cbn [bind]. split.
      + intros [= <-]. split; [done|]. by left.
      + by intros [-> _]. }
  apply has_key_false in E1.
  destruct (has_key d (lora_name +:+ ".hada_w1_a")) eqn:E2.
  { apply has_key_true in E2. destruct (getitem_Some _ _ E2) as (w1a & -> & Hw1a). cbn [bind].
    unfold getitem.
    destruct (d !! (lora_name +:+ ".hada_w1_b")) as [w1b|] eqn:H1; cbn [bind].
    2:{ split; [intros [= <-]; split; [done|]; right; eauto|by intros [-> _]]. }
    destruct (d !! (lora_name +:+ ".hada_w2_a")) as [w2a|] eqn:H2; cbn [bind].
    2:{ split; [intros [= <-]; split; [done|]; right; eauto|by intros [-> _]]. }
    destruct (d !! (lora_name +:+ ".hada_w2_b")) as [w2b|] eqn:H3; cbn [bind].
    2:{ split; [intros [= <-]; split; [done|]; right; eauto|by intros [-> _]]. }
    split; [discriminate|].
    intros [_ [[H _]|(_ & _ & [?|[?|?]])]]; [|done..]. rewrite E1 in H. by destruct H. }
  apply has_key_false in E2.
  assert (¬ ((is_Some (d !! (lora_name +:+ ".lora_up.weight"))
              ∧ d !! (lora_name +:+ ".lora_down.weight") = None)
             ∨ (d !! (lora_name +:+ ".lora_up.weight") = None
                ∧ is_Some (d !! (lora_name +:+ ".hada_w1_a"))
                ∧ (d !! (lora_name +:+ ".hada_w1_b") = None
                   ∨ d !! (lora_name +:+ ".hada_w2_a") = None
                   ∨ d !! (lora_name +:+ ".hada_w2_b") = None)))) as Hno.
  { intros [[H _]|(_ & H & _)].
    - rewrite E1 in H. by destruct H.
    - rewrite E2 in H. by destruct H. }
  destruct (has_key d (lora_name +:+ ".weight")) eqn:E3.
  { apply has_key_true in E3. destruct (getitem_Some _ _ E3) as (w & -> & _). cbn [bind].
    split; [discriminate|]. by intros [_ ?]. }
  destruct (has_key d (lora_name +:+ ".lokr_w1") || has_key d (lora_name +:+ ".lokr_w1_a")).
  { split; [discriminate|]. by intros [_ ?]. }
  destruct (has_key d (lora_name +:+ ".diff")) eqn:E6.
  { apply has_key_true in E6. destruct (getitem_Some _ _ E6) as (w & -> & _). cbn [bind].
    split; [discriminate|]. by intros [_ ?]. }
  destruct (has_key d (lora_name +:+ ".w_norm")) eqn:E7.
  { apply has_key_true in E7. destruct (getitem_Some _ _ E7) as (w & -> & _). cbn [bind].
    split; [discriminate|]. by intros [_ ?]. }
  split; [discriminate|]. by intros [_ ?].
Qed.

(** ** What extraction writes, [get_module] reads *)

Lemma key_ne (n s1 s2 : string) : s1 ≠ s2 → n +:+ s1 ≠ n +:+ s2.
Proof. intros H E. apply H. by apply (inj (String.append n)) in E. Qed.

Ltac lookup_keys :=
  repeat first
    [ rewrite lookup_insert_eq
    | rewrite lookup_insert_ne by (apply key_ne; discriminate) ].

(** X3. The keys that [extract_lora] writes for a low-rank layer are read
    back by [get_module] as a ['locon'] entry: the stored up and down
    factors, the stored middle factor when the convolution was recompressed,
    and an [alpha] that holds the rank, the first dimension of the down
    factor. Keys of other kinds that the mapping may hold for the name do not
    change this. *)
Theorem emit_layer_low_rank_read_back (use_bias : bool) (sparsity : Qc)
    (lora_name : string) (a b diff : Tensor) (c : option Tensor)
    (loras loras' : state_dict) :
  emit_layer use_bias sparsity lora_name (LowRank a b diff) c loras = Ok loras' →
  ∃ rank,
    size a 0 = Ok rank
    ∧ get_module loras' lora_name
      = Ok (Locon (half (contiguous (cpu (detach b))))
              (half (contiguous (cpu (detach a))))
              (match c with
               | Some c => Some (half (contiguous (cpu (detach c))))
               | None => loras !! (lora_name +:+ ".lora_mid.weight")
               end)
              (Some (half (tensor_of_number rank)))).
Proof.
  unfold emit_layer.
  destruct (size a 0) as [rank|]; cbn [bind]; [|done].
  intros H. exists rank. split; [done|].
  assert (∃ extra : state_dict → state_dict,
            loras' = extra
              (<[lora_name +:+ ".alpha" := half (tensor_of_number rank)]>
                 (<[lora_name +:+ ".lora_up.weight" := half (contiguous (cpu (detach b)))]>
                    (<[lora_name +:+ ".lora_down.weight" := half (contiguous (cpu (detach a)))]>
                       (match c with
                        | Some c => <[lora_name +:+ ".lora_mid.weight"
                                       := half (contiguous (cpu (detach c)))]> loras
                        | None => loras
                        end))))
            ∧ ∀ m s, s ∈ [".lora_up.weight"; ".lora_down.weight"; ".lora_mid.weight"; ".alpha"] →
                extra m !! (lora_name +:+ s) = m !! (lora_name +:+ s))
    as (extra & -> & Hextra).
  { destruct use_bias.
    - destruct (size b 0) as [b0|]; cbn [bind] in H; [|done].
      destruct (reshape _ _) as [rd|]; cbn [bind] in H; [|done].
      destruct (make_sparse _ _) as [sp|]; cbn [bind] in H; [|done].
      injection H as <-.
      eexists (fun m => <[lora_name +:+ ".bias_size" := _]>
                          (<[lora_name +:+ ".bias_values" := _]>
                             (<[lora_name +:+ ".bias_indices" := _]> m))).
      split; [reflexivity|]. intros m s Hs.
      repeat (apply elem_of_cons in Hs as [->|Hs]; [by lookup_keys|]).
      by apply elem_of_nil in Hs.
    - injection H as <-. exists (fun m => m). done. }
  unfold get_module, has_key.
  rewrite !Hextra by set_solver. lookup_keys.
  rewrite bool_decide_eq_true_2 by eauto.
  unfold getitem. rewrite !Hextra by set_solver. lookup_keys. cbn [bind].
  do 2 f_equal. destruct c; by lookup_keys.
Qed.

Lemma emit_layer_low_rank_read_back_witness :
  let store t := half (contiguous (cpu (detach t))) in
  let down := entry Float32 [1; 1; 1; 1]%nat [1]%Z in
  let up := entry Float32 [3; 1; 1; 1]%nat [2; 0; 0]%Z in
  let mid := entry Float32 [1; 1; 2; 2]%nat [1; 0; 0; 0]%Z in
  let loras' : state_dict :=
    <[ "lora_unet_conv_in.alpha" := half (tensor_of_number 1) ]>
      (<[ "lora_unet_conv_in.lora_up.weight" := store up ]>
         (<[ "lora_unet_conv_in.lora_down.weight" := store down ]>
            {[ "lora_unet_conv_in.lora_mid.weight" := store mid ]})) in
  emit_layer false 0 "lora_unet_conv_in" (LowRank down up conv_diff) (Some mid) ∅ = Ok loras'
  ∧ ∃ rank,
      size down 0 = Ok rank
      ∧ get_module loras' "lora_unet_conv_in"
        = Ok (Locon (store up) (store down) (Some (store mid))
                (Some (half (tensor_of_number rank)))).
Proof.
  split; [by_evaluation|].
  apply (emit_layer_low_rank_read_back false 0 "lora_unet_conv_in"
           (entry Float32 [1; 1; 1; 1]%nat [1]%Z) (entry Float32 [3; 1; 1; 1]%nat [2; 0; 0]%Z)
           conv_diff (Some (entry Float32 [1; 1; 2; 2]%nat [1; 0; 0; 0]%Z)) ∅).
  by_evaluation.
Defined.

(** X4. A layer extracted as ['full'] is read back by [get_module] as a
    ['full'] entry holding the stored difference, provided that the mapping
    has none of the keys that select a kind of higher priority for the name;
    the bias difference is whatever the mapping already had under [diff_b]:
    the extraction writes none. *)
Theorem emit_layer_full_read_back (use_bias : bool) (sparsity : Qc)
    (lora_name : string) (w : Tensor) (loras : state_dict) :
  (∀ s, s ∈ [".lora_up.weight"; ".hada_w1_a"; ".weight"; ".lokr_w1"; ".lokr_w1_a"] →
     loras !! (lora_name +:+ s) = None) →
  ∃ loras',
    emit_layer use_bias sparsity lora_name (Full w) None loras = Ok loras'
    ∧ get_module loras' lora_name
      = Ok (FullDiff (half (contiguous (cpu (detach w))))
              (loras !! (lora_name +:+ ".diff_b"))).
Proof.
  intros H. eexists. split; [reflexivity|].
  unfold get_module, has_key. lookup_keys.
  rewrite (H ".lora_up.weight"), (H ".hada_w1_a"), (H ".weight"), (H ".lokr_w1"),
    (H ".lokr_w1_a") by set_solver.
  rewrite !bool_decide_eq_false_2 by (by intros [? ?]). cbn [orb].
  rewrite bool_decide_eq_true_2 by eauto.
  unfold getitem. by lookup_keys.
Qed.

Lemma emit_layer_full_read_back_witness :
  let loras : state_dict := {[ "lora_te_q.diff_b" := entry Float16 [4]%nat [1; 1; 1; 1]%Z ]} in
  (∀ s, s ∈ [".lora_up.weight"; ".hada_w1_a"; ".weight"; ".lokr_w1"; ".lokr_w1_a"] →
     loras !! ("lora_te_q" +:+ s) = None)
  ∧ ∃ loras',
      emit_layer false 0 "lora_te_q" (Full diff_linear) None loras = Ok loras'
      ∧ get_module loras' "lora_te_q"
        = Ok (FullDiff (half (contiguous (cpu (detach diff_linear))))
                (Some (entry Float16 [4]%nat [1; 1; 1; 1]%Z))).
Proof.
  assert (∀ s, s ∈ [".lora_up.weight"; ".hada_w1_a"; ".weight"; ".lokr_w1"; ".lokr_w1_a"] →
            ({[ "lora_te_q.diff_b" := entry Float16 [4]%nat [1; 1; 1; 1]%Z ]} : state_dict)
              !! ("lora_te_q" +:+ s) = None) as H
    by (apply Forall_forall; by_evaluation).
  split; [exact H|].
  apply (emit_layer_full_read_back false 0 "lora_te_q" diff_linear _ H).
Defined.

(** ** The keys written by the extraction *)

Lemma written_emitted use_bias d oc s :
  s ∈ written_suffixes use_bias d oc → s ∈ emitted_suffixes.
Proof.
  unfold written_suffixes, emitted_suffixes.
  destruct oc, d, use_bias; set_solver.
Qed.

(** [emit_layer] adds to the mapping exactly the keys of the layer. *)
Lemma emit_layer_dom use_bias sparsity lora_name d oc (loras loras' : state_dict) :
  emit_layer use_bias sparsity lora_name d oc loras = Ok loras' →
  dom loras' = dom loras ∪ list_to_set ((fun s => lora_name +:+ s) <$>
                                          written_suffixes use_bias d oc).
Proof.
  unfold emit_layer, written_suffixes.
  set (l0 := match oc with Some c => _ | None => loras end).
  assert (dom l0 = dom loras ∪ list_to_set ((fun s => lora_name +:+ s) <$>
            match oc with Some _ => [".lora_mid.weight"] | None => [] end)) as Hl0.
  { unfold l0. destruct oc; [|set_solver]. rewrite dom_insert_L. set_solver. }
  clearbody l0. rewrite fmap_app, list_to_set_app_L.
  destruct d as [w|a b r].
  - intros [= <-]. rewrite dom_insert_L, Hl0. set_solver.
  - destruct (size a 0) as [a0|]; cbn [bind]; [|done].
    destruct use_bias.
    + destruct (size b 0) as [b0|]; cbn [bind]; [|done].
      destruct (reshape _ _) as [rd|]; cbn [bind]; [|done].
      destruct (make_sparse _ _) as [sp|]; cbn [bind]; [|done].
      intros [= <-]. rewrite !dom_insert_L, Hl0. set_solver.
    + intros [= <-]. rewrite !dom_insert_L, Hl0. set_solver.
Qed.

Lemma replace_dots_no_dot s : has_dot (replace_dots s) = false.
Proof.
  induction s as [|c s IH]; [done|]. cbn [replace_dots has_dot]. rewrite IH.
  case_decide as Hc; [done|]. by rewrite bool_decide_eq_false_2.
Qed.

(** A name without dots followed by a suffix that starts with a dot is split
    in one way only. *)
Lemma split_at_dot n1 n2 s1 s2 :
  has_dot n1 = false → has_dot n2 = false →
  n1 +:+ String "." s1 = n2 +:+ String "." s2 → n1 = n2 ∧ s1 = s2.
Proof.
  revert n2. induction n1 as [|c n1 IH]; intros [|c2 n2] H1 H2 E; cbn in *.
  - by injection E as ->.
  - injection E as <- _. by rewrite bool_decide_eq_true_2 in H2.
  - injection E as -> _. by rewrite bool_decide_eq_true_2 in H1.
  - injection E as -> E. apply orb_false_elim in H1 as [_ H1].
    apply orb_false_elim in H2 as [_ H2].
    destruct (IH n2 H1 H2 E) as [-> ->]. done.
Qed.

Lemma extract_lora_steps svd mode lp cp dev use_bias sparsity small_conv
    prefix module child_module name child_name loras min_diff loras' :
  extract_lora svd mode lp cp dev use_bias sparsity small_conv
    prefix module child_module name child_name loras min_diff = Ok loras' →
  loras' = loras
  ∨ ∃ rest d oc,
      emit_layer use_bias sparsity (replace_dots (prefix +:+ "." +:+ rest)) d oc loras
      = Ok loras'.
Proof.
  unfold extract_lora.
  destruct (getattr_weight module) as [rw|]; cbn [bind]; [|done].
  destruct (getattr_weight child_module) as [cw|]; cbn [bind]; [|done].
  destruct (operand rw) as [root_weight|]; cbn [bind]; [|done].
  destruct (operand cw) as [child_weight|]; cbn [bind]; [|done].
  destruct (allclose _ _) as [[|]|]; cbn [bind]; [intros [= <-]; by left| |done].
  destruct (sub root_weight child_weight) as [diff|]; cbn [bind]; [|done].
  destruct (if qlt 0 min_diff then _ else _) as [[|]|]; cbn [bind];
    [intros [= <-]; by left| |done].
  destruct (decompose_layer _ _ _ _ _ _ _ _ _) as [[d oc]|]; cbn [bind]; [|done].
  intros H. right. eexists _, d, oc. exact H.
Qed.

(** An invariant of the mapping that every written layer keeps holds of the
    mapping that [make_state_dict] returns. *)
Lemma make_state_dict_invariant (P : state_dict → Prop)
    svd mode lp cp dev use_bias sparsity small_conv
    prefix root_module target_module mods names min_diff loras :
  P ∅ →
  (∀ rest d oc l l',
     P l → emit_layer use_bias sparsity (replace_dots (prefix +:+ "." +:+ rest)) d oc l = Ok l' →
     P l') →
  make_state_dict svd mode lp cp dev use_bias sparsity small_conv
    prefix root_module target_module mods names min_diff = Ok loras →
  P loras.
Proof.
  intros H0 Hstep.
  assert (∀ module child name child_name l l',
            P l →
            extract_lora svd mode lp cp dev use_bias sparsity small_conv
              prefix module child name child_name l min_diff = Ok l' → P l') as Hx.
  { intros ?????? Hl [->|(rest & d & oc & He)]%extract_lora_steps; [done|].
    by eapply Hstep. }
  unfold make_state_dict. destruct (foldl _ _ _) as [temp temp_name].
  apply foldM_invariant; [|done].
  intros l [[name path] module] l' Hl.
  destruct (temp !! name) as [child_modules|].
  - apply foldM_invariant; [|done].
    intros l1 [[child_name cpath] child_module] l1' Hl1.
    destruct (is_layer child_module); [|by intros [= <-]].
    destruct (child_modules !! child_name); [|done].
    by apply Hx.
  - destruct (temp_name !! name); [|by intros [= <-]].
    destruct (is_layer module); [|by intros [= <-]].
    by apply Hx.
Qed.

(** The three mappings of [extract_diff], and their union, in terms of an
    invariant for each prefix. *)
Lemma extract_diff_invariant (P : state_dict → Prop)
    svd mode lp cp dev use_bias sparsity small_conv base_model db_model min_diff loras :
  P ∅ →
  (∀ prefix rest d oc l l',
     prefix ∈ LORA_PREFIXES → P l →
     emit_layer use_bias sparsity (replace_dots (prefix +:+ "." +:+ rest)) d oc l = Ok l' →
     P l') →
  (∀ l1 l2, P l1 → P l2 → P (l1 ∪ l2)) →
  extract_diff svd mode lp cp dev use_bias sparsity small_conv base_model db_model min_diff
  = Ok loras →
  P loras.
Proof.
  intros H0 Hstep Hunion. unfold extract_diff.
  destruct (model_slot base_model 0) as [b0|]; cbn [bind]; [|done].
  destruct (if bool_decide _ then _ else _) as [b1|]; cbn [bind]; [|done].
  destruct (model_slot base_model _) as [b2|]; cbn [bind]; [|done].
  destruct (model_slot db_model 0) as [d0|]; cbn [bind]; [|done].
  destruct (if bool_decide _ then _ else _) as [d1|]; cbn [bind]; [|done].
  destruct (model_slot db_model _) as [d2|]; cbn [bind]; [|done].
  destruct (make_state_dict _ _ _ _ _ _ _ _ _ b0 d0 _ _ _) as [te|] eqn:E1;
    cbn [bind]; [|done].
  apply (make_state_dict_invariant P) in E1; [|done|].
  2:{ intros rest d oc l l'. apply Hstep.
      unfold LORA_PREFIXES. destruct (bool_decide _); set_solver. }
  destruct (match b1 with Some _ => _ | None => _ end) as [te2|] eqn:E2; cbn [bind]; [|done].
  assert (P te2) as H2.
  { destruct b1 as [b1|]; [destruct d1 as [d1|]|]; try (by injection E2 as <-).
    apply (make_state_dict_invariant P) in E2; [done|done|].
    intros rest d oc l l'. apply Hstep. unfold LORA_PREFIXES. set_solver. }
  destruct (make_state_dict _ _ _ _ _ _ _ _ _ b2 d2 _ _ _) as [un|] eqn:E3;
    cbn [bind]; [|done].
  apply (make_state_dict_invariant P) in E3; [|done|].
  2:{ intros rest d oc l l'. apply Hstep. unfold LORA_PREFIXES. set_solver. }
  intros [= <-]. auto.
Qed.

(** X5. Every key of the mapping returned by [extract_diff] is the name of a
    layer below one of the prefixes [lora_te], [lora_te1], [lora_te2],
    [lora_unet], with every dot replaced by an underscore, followed by one of
    the eight suffixes that the extraction writes. *)
Theorem extract_diff_keys (svd : svd_oracle) (mode : string)
    (linear_mode_param conv_mode_param : Qc) (extract_device : device)
    (use_bias : bool) (sparsity : Qc) (small_conv : bool)
    (base_model db_model : list Module) (min_diff : Qc) (loras : state_dict) :
  extract_diff svd mode linear_mode_param conv_mode_param extract_device use_bias
    sparsity small_conv base_model db_model min_diff = Ok loras →
  ∀ k, is_Some (loras !! k) → extracted_key k.
Proof.
  apply (extract_diff_invariant (fun l => ∀ k, is_Some (l !! k) → extracted_key k)).
  - intros k [? Hk]. by rewrite lookup_empty in Hk.
  - intros prefix rest d oc l l' Hp Hl He k Hk.
    apply emit_layer_dom in He. apply elem_of_dom in Hk. rewrite He in Hk.
    apply elem_of_union in Hk as [Hk|Hk]; [by apply Hl, elem_of_dom|].
    apply elem_of_list_to_set, list_elem_of_fmap in Hk as (s & -> & Hs).
    exists prefix, rest, s. split; [done|]. split; [|done]. by eapply written_emitted.
  - intros l1 l2 H1 H2 k [t Hk]. apply lookup_union_Some_raw in Hk as [Hk|[_ Hk]]; eauto.
Qed.

Lemma extract_diff_keys_witness :
  extract_diff svd_diag "fixed" 1 1 Cpu true (qfrac 1 2) true
    example_base_bundle example_finetuned_bundle 0
  = Ok example_extracted
  ∧ ∀ k, is_Some (example_extracted !! k) → extracted_key k.
Proof.
  split; [by_evaluation|].
  apply (extract_diff_keys svd_diag "fixed" 1 1 Cpu true (qfrac 1 2) true
           example_base_bundle example_finetuned_bundle 0 example_extracted).
  by_evaluation.
Defined.

Lemma emitted_starts_with_dot s : s ∈ emitted_suffixes → ∃ s', s = String "." s'.
Proof.
  unfold emitted_suffixes. intros Hs.
  repeat (apply elem_of_cons in Hs as [->|Hs]; [by eexists|]).
  by apply elem_of_nil in Hs.
Qed.

Lemma up_written use_bias d oc :
  ".lora_up.weight" ∈ written_suffixes use_bias d oc →
  ".lora_down.weight" ∈ written_suffixes use_bias d oc
  ∧ ".alpha" ∈ written_suffixes use_bias d oc.
Proof.
  unfold written_suffixes. intros H. apply elem_of_app in H as [H|H].
  { destruct oc; [|by apply elem_of_nil in H].
    apply list_elem_of_singleton in H. discriminate. }
  destruct d.
  { apply list_elem_of_singleton in H. discriminate. }
  split; apply elem_of_app; right; apply elem_of_app; left.
  - apply elem_of_cons. by left.
  - do 2 (apply elem_of_cons; right). apply elem_of_cons. by left.
Qed.

Lemma readable_emit use_bias sparsity rest prefix d oc l l' :
  readable l →
  emit_layer use_bias sparsity (replace_dots (prefix +:+ "." +:+ rest)) d oc l = Ok l' →
  readable l'.
Proof.
  set (lname := replace_dots _). intros [H1 H2] He.
  apply emit_layer_dom in He.
  assert (∀ k, is_Some (l' !! k) ↔
               is_Some (l !! k) ∨ ∃ s, s ∈ written_suffixes use_bias d oc ∧ k = lname +:+ s)
    as Hdom.
  { intros k. rewrite <- !elem_of_dom, He, elem_of_union, elem_of_list_to_set,
      list_elem_of_fmap. split; (intros [?|(s & ? & ?)]; [by left|right; by exists s]). }
  split.
  - intros k [Hk|(s & Hs & ->)]%Hdom; [by apply H1|].
    exists lname, s. split; [apply replace_dots_no_dot|]. split; [|done].
    by eapply written_emitted.
  - intros n Hn [Hk|(s & Hs & Hk)]%Hdom.
    + destruct (H2 n Hn Hk) as [Hd Ha]. split; apply Hdom; by left.
    + destruct (emitted_starts_with_dot s) as [s' ->]; [by eapply written_emitted|].
      destruct (split_at_dot n lname "lora_up.weight" s' Hn (replace_dots_no_dot _) Hk)
        as [-> <-].
      destruct (up_written _ _ _ Hs) as [Hd Ha].
      split; apply Hdom; right; eauto.
Qed.

Lemma readable_union l1 l2 : readable l1 → readable l2 → readable (l1 ∪ l2).
Proof.
  assert (∀ k, is_Some ((l1 ∪ l2) !! k) ↔ is_Some (l1 !! k) ∨ is_Some (l2 !! k)) as Hu.
  { intros k. rewrite <- !elem_of_dom, dom_union. apply elem_of_union. }
  intros [A1 A2] [B1 B2]. split.
  - intros k [?|?]%Hu; eauto.
  - intros n Hn [Hk|Hk]%Hu.
    + destruct (A2 n Hn Hk). split; apply Hu; by left.
    + destruct (B2 n Hn Hk). split; apply Hu; by right.
Qed.

(** X6. [get_module] reads the mapping returned by [extract_diff] without
    raising, for every layer name as [merge] forms it (dots replaced), and
    finds only three things: a ['locon'] entry with its [alpha], a ['full']
    entry without bias difference, or no entry. *)
Theorem extract_diff_read_back (svd : svd_oracle) (mode : string)
    (linear_mode_param conv_mode_param : Qc) (extract_device : device)
    (use_bias : bool) (sparsity : Qc) (small_conv : bool)
    (base_model db_model : list Module) (min_diff : Qc) (loras : state_dict) :
  extract_diff svd mode linear_mode_param conv_mode_param extract_device use_bias
    sparsity small_conv base_model db_model min_diff = Ok loras →
  ∀ name,
    let lora_name := replace_dots name in
    (∃ up down alpha,
       get_module loras lora_name
       = Ok (Locon up down (loras !! (lora_name +:+ ".lora_mid.weight")) (Some alpha)))
    ∨ (∃ diff, get_module loras lora_name = Ok (FullDiff diff None))
    ∨ get_module loras lora_name = Ok NoModule.
Proof.
  intros H name lora_name.
  assert (readable loras) as Hr.
  { revert H. apply (extract_diff_invariant readable).
    - split; intros ? ; [|intros _]; intros [? Hk]; by rewrite lookup_empty in Hk.
    - intros prefix rest d oc l l' _. apply readable_emit.
    - apply readable_union. }
  assert (has_dot lora_name = false) as Hn by apply replace_dots_no_dot.
  assert (∀ s', String "." s' ∉ emitted_suffixes →
                loras !! (lora_name +:+ String "." s') = None) as Habs.
  { intros s' Hs'. destruct Hr as [H1 _].
    destruct (loras !! (lora_name +:+ String "." s')) as [t|] eqn:E; [|done].
    destruct (H1 _ (mk_is_Some _ _ E)) as (n2 & s2 & Hn2 & Hs2 & Hk).
    destruct (emitted_starts_with_dot s2 Hs2) as [s2' ->].
    destruct (split_at_dot _ _ _ _ Hn Hn2 Hk) as [_ ->]. done. }
  assert (∀ s, s ∈ [".hada_w1_a"; ".weight"; ".lokr_w1"; ".lokr_w1_a"; ".w_norm"; ".diff_b"] →
               loras !! (lora_name +:+ s) = None) as Hnone.
  { intros s Hs.
    repeat (apply elem_of_cons in Hs as [->|Hs];
            [apply Habs; unfold emitted_suffixes; intros Hin;
             repeat (apply elem_of_cons in Hin as [Hin|Hin]; [discriminate|]);
             by apply elem_of_nil in Hin|]).
    by apply elem_of_nil in Hs. }
  unfold get_module.
  destruct (has_key loras (lora_name +:+ ".lora_up.weight")) eqn:E1.
  { apply has_key_true in E1. destruct Hr as [_ H2].
    destruct (H2 _ Hn E1) as [[down Hd] [alpha Ha]]. destruct E1 as [up Hu].
    left. exists up, down, alpha. unfold getitem. by rewrite Hu, Hd, Ha. }
  rewrite (proj2 (has_key_false _ _) (Hnone ".hada_w1_a" ltac:(set_solver))).
  rewrite (proj2 (has_key_false _ _) (Hnone ".weight" ltac:(set_solver))).
  rewrite (proj2 (has_key_false _ _) (Hnone ".lokr_w1" ltac:(set_solver))).
  rewrite (proj2 (has_key_false _ _) (Hnone ".lokr_w1_a" ltac:(set_solver))).
  cbn [orb].
  destruct (has_key loras (lora_name +:+ ".diff")) eqn:E6.
  { apply has_key_true in E6 as [diff Hdiff]. right. left. exists diff.
    unfold getitem. rewrite Hdiff. cbn [bind].
    by rewrite (Hnone ".diff_b" ltac:(set_solver)). }
  rewrite (proj2 (has_key_false _ _) (Hnone ".w_norm" ltac:(set_solver))).
  by right; right.
Qed.

Lemma extract_diff_read_back_witness :
  extract_diff svd_diag "fixed" 1 1 Cpu true (qfrac 1 2) true
    example_base_bundle example_finetuned_bundle 0
  = Ok example_extracted
  ∧ ∀ name,
      let lora_name := replace_dots name in
      (∃ up down alpha,
         get_module example_extracted lora_name
         = Ok (Locon up down (example_extracted !! (lora_name +:+ ".lora_mid.weight"))
                 (Some alpha)))
      ∨ (∃ diff, get_module example_extracted lora_name = Ok (FullDiff diff None))
      ∨ get_module example_extracted lora_name = Ok NoModule.
Proof.
  split; [by_evaluation|].
  apply (extract_diff_read_back svd_diag "fixed" 1 1 Cpu true (qfrac 1 2) true
           example_base_bundle example_finetuned_bundle 0 example_extracted).
  by_evaluation.
Defined.

(** ** The decomposition with its residual *)

Lemma as_index_inv q k : as_index q = Ok k → 0 ≤ q → q = qn k.
Proof.
  unfold as_index. case_bool_decide as Hd; [|done]. intros [= <-] H0.
  apply Qc_is_canon. unfold qn, qz, Qc_of_Z. cbn [this].
  destruct q as [[num den] Hc]. cbn [this Qnum Qden] in *. subst den.
  unfold Qcle in H0. cbn in H0. unfold Qle in H0. cbn in H0.
  change (Qnum (Qred 0)) with 0%Z in H0. change (QDen (Qred 0)) with 1%Z in H0.
  unfold Qeq, inject_Z. cbn. rewrite Z2Nat.id by lia. done.
Qed.

(** The rank that a successful low-rank decomposition worked with. *)
Lemma truncate_index U Sg Vh lora_rank k U' Vh' :
  truncate U Sg Vh lora_rank = Ok (k, U', Vh') → as_index lora_rank = Ok k.
Proof.
  unfold truncate. destruct (as_index lora_rank) as [k'|]; cbn [bind]; [|done].
  destruct (slice_cols U k'); cbn [bind]; [|done].
  destruct (slice_rows Sg k'); cbn [bind]; [|done].
  destruct (diag _); cbn [bind]; [|done].
  destruct (matmul _ _); cbn [bind]; [|done].
  destruct (slice_rows Vh k'); cbn [bind]; [|done].
  by intros [= -> _ _].
Qed.

Lemma clamped_index out_ch in_ch r k :
  (1 ≤ out_ch)%nat → (1 ≤ in_ch)%nat →
  as_index (clamp_rank out_ch in_ch r) = Ok k →
  clamp_rank out_ch in_ch r = qn k ∧ (1 ≤ k ≤ out_ch `min` in_ch)%nat.
Proof.
  intros Ho Hi Hk. destruct (clamp_rank_bounds out_ch in_ch r Ho Hi) as [H1 H2].
  assert (clamp_rank out_ch in_ch r = qn k) as E.
  { apply as_index_inv; [done|]. eapply Qcle_trans; [|exact H1]. by_evaluation. }
  split; [done|]. rewrite E in H1, H2. rewrite <- qn_1 in H1.
  apply qn_le in H1, H2. lia.
Qed.

(** X7. Whenever [extract_linear] returns a ['low rank'] triple for a weight
    of shape [out_ch, in_ch], whatever the mode, the triple has a rank [k]
    with [1 <= k <= min(out_ch, in_ch)] and [k < out_ch / 2], the factors
    have the shapes [k, in_ch] and [out_ch, k], and the residual is what the
    product of the factors misses of the weight: element by element,
    weight = residual + up @ down. *)
Theorem extract_linear_lossless (svd : svd_oracle) (weight : Tensor) (mode : string)
    (mode_param : Qc) (dev : device) (out_ch in_ch : nat) (A B diff : Tensor) :
  t_shape weight = [out_ch; in_ch] → wf weight → (1 ≤ out_ch)%nat → (1 ≤ in_ch)%nat →
  extract_linear svd weight mode mode_param dev = Ok (LowRank A B diff) →
  ∃ k, (1 ≤ k ≤ out_ch `min` in_ch)%nat ∧ (2 * k < out_ch)%nat
       ∧ t_shape A = [k; in_ch] ∧ t_shape B = [out_ch; k]
       ∧ t_shape diff = [out_ch; in_ch]
       ∧ ∀ i j, (i < out_ch)%nat → (j < in_ch)%nat →
           tget weight [i; j]
           = tget diff [i; j] + sum_upto k (fun l => tget B [i; l] * tget A [l; j]).
Proof.
  intros Hw Wf Ho Hi H.
  assert (t_shape (to_device dev (float weight)) = [out_ch; in_ch]) as Hw'
    by (unfold float; by autorewrite with tensor).
  destruct (linalg_svd_spec svd _ _ _ Hw') as (U & Sg & Vh & Hsvd & _).
  pose proof H as H'. unfold extract_linear in H'. rewrite Hw', Hsvd in H'. cbn [bind] in H'.
  destruct (select_rank mode mode_param (t_data Sg)) as [r|] eqn:Hsel; cbn [bind] in H'; [|done].
  destruct (rank_is_full out_ch (clamp_rank out_ch in_ch r)) eqn:Hfull; [done|].
  destruct (truncate U Sg Vh (clamp_rank out_ch in_ch r)) as [[[k U'] Vh']|] eqn:Ht;
    cbn [bind] in H'; [|done].
  apply truncate_index in Ht.
  destruct (clamped_index out_ch in_ch r k Ho Hi Ht) as [Hc Hk].
  rewrite Hc in Hfull.
  destruct (extract_linear_low_rank svd weight mode mode_param dev out_ch in_ch U Sg Vh r k)
    as (A' & B' & diff' & Hext & (HA & _ & HB & _ & Hd & _) & _ & _ & _ & Hres);
    try done; try lia.
  rewrite H in Hext. apply Ok_inj in Hext. injection Hext as <- <- <-.
  exists k. split; [done|]. split.
  { apply qle_false in Hfull. apply Qclt_not_le in Hfull. rewrite half_le in Hfull. lia. }
  do 3 (split; [done|]). intros i j Hi' Hj. rewrite (Hres i j Hi' Hj). ring.
Qed.

Lemma extract_linear_lossless_witness :
  ∃ A B diff,
    extract_linear svd_diag diff_linear "fixed" 1 Cpu = Ok (LowRank A B diff)
    ∧ ∃ k, (1 ≤ k ≤ 4 `min` 3)%nat ∧ (2 * k < 4)%nat
         ∧ t_shape A = [k; 3%nat] ∧ t_shape B = [4%nat; k]
         ∧ t_shape diff = [4; 3]%nat
         ∧ ∀ i j, (i < 4)%nat → (j < 3)%nat →
             tget diff_linear [i; j]
             = tget diff [i; j] + sum_upto k (fun l => tget B [i; l] * tget A [l; j]).
Proof.
  do 3 eexists. split; [vm_compute; reflexivity|].
  eapply (extract_linear_lossless svd_diag diff_linear "fixed" 1 Cpu 4 3);
    [reflexivity|reflexivity|lia|lia|by_evaluation].
Defined.

(** X8. The same for [extract_conv] on a weight of shape
    [out_ch, in_ch, ks, ks], read as a matrix with [out_ch] rows: the rank
    [k] is at most [min(out_ch, in_ch)] (below [out_ch / 2] unless [is_cp]),
    the factors have the shapes [k, in_ch, ks, ks] and [out_ch, k, 1, 1], and
    weight = residual + up @ down element by element. *)
Theorem extract_conv_lossless (svd : svd_oracle) (weight : Tensor) (mode : string)
    (mode_param : Qc) (dev : device) (is_cp : bool) (out_ch in_ch ks : nat)
    (A B diff : Tensor) :
  let n := (in_ch * (ks * ks))%nat in
  t_shape weight = [out_ch; in_ch; ks; ks] → wf weight →
  (1 ≤ out_ch)%nat → (1 ≤ in_ch)%nat → (1 ≤ ks)%nat →
  extract_conv svd weight mode mode_param dev is_cp = Ok (LowRank A B diff) →
  ∃ k, (1 ≤ k ≤ out_ch `min` in_ch)%nat ∧ (is_cp = false → (2 * k < out_ch)%nat)
       ∧ t_shape A = [k; in_ch; ks; ks] ∧ t_shape B = [out_ch; k; 1%nat; 1%nat]
       ∧ t_shape diff = [out_ch; in_ch; ks; ks]
       ∧ ∀ i j, (i < out_ch)%nat → (j < n)%nat →
           tget (view [out_ch; n] weight) [i; j]
           = tget (view [out_ch; n] diff) [i; j]
             + sum_upto k (fun l => tget (view [out_ch; k] B) [i; l]
                                    * tget (view [k; n] A) [l; j]).
Proof.
  intros n Hw Wf Ho Hi Hks H.
  set (w' := to_device dev (float weight)).
  assert (t_shape w' = [out_ch; in_ch; ks; ks]) as Hw'
    by (unfold w', float; by autorewrite with tensor).
  assert (length (t_data w') = (out_ch * n)%nat) as Hlen.
  { unfold w', float. autorewrite with tensor. unfold wf in Wf. rewrite Wf, Hw.
    unfold n. cbn [numel fold_right]. lia. }
  assert (reshape w' [Z.of_nat out_ch; (-1)%Z] = Ok (view [out_ch; n] w')) as Hre.
  { rewrite reshape_rows; [|done|by rewrite Hlen, Nat.mul_comm, Nat.Div0.mod_mul].
    unfold view. do 3 f_equal. rewrite Hlen, Nat.mul_comm. by rewrite Nat.div_mul by lia. }
  destruct (linalg_svd_spec svd (view [out_ch; n] w') out_ch n eq_refl)
    as (U & Sg & Vh & Hsvd & _).
  pose proof H as H'. unfold extract_conv in H'. fold w' in H'.
  rewrite Hw', Hre in H'. cbn [bind] in H'. rewrite Hsvd in H'. cbn [bind] in H'.
  destruct (select_rank mode mode_param (t_data Sg)) as [r|] eqn:Hsel; cbn [bind] in H'; [|done].
  destruct (rank_is_full out_ch (clamp_rank out_ch in_ch r) && negb is_cp) eqn:Hfull; [done|].
  destruct (truncate U Sg Vh (clamp_rank out_ch in_ch r)) as [[[k U'] Vh']|] eqn:Ht;
    cbn [bind] in H'; [|done].
  apply truncate_index in Ht.
  destruct (clamped_index out_ch in_ch r k Ho Hi Ht) as [Hc Hk].
  rewrite Hc in Hfull.
  destruct (extract_conv_low_rank svd weight mode mode_param dev is_cp out_ch in_ch ks
              U Sg Vh r k)
    as (A' & B' & diff' & Hext & (HA & _ & HB & _ & Hd & _) & _ & _ & _ & Hres);
    try done; try lia.
  rewrite H in Hext. apply Ok_inj in Hext. injection Hext as <- <- <-.
  exists k. split; [done|]. split.
  { intros ->. rewrite andb_true_r in Hfull.
    apply qle_false in Hfull. apply Qclt_not_le in Hfull. rewrite half_le in Hfull. lia. }
  do 3 (split; [done|]). intros i j Hi' Hj. fold n in Hres. rewrite (Hres i j Hi' Hj). ring.
Qed.

Lemma extract_conv_lossless_witness :
  ∃ A B diff,
    extract_conv svd_diag diff_conv "fixed" 1 Cpu false = Ok (LowRank A B diff)
    ∧ ∃ k, (1 ≤ k ≤ 5 `min` 1)%nat ∧ (false = false → (2 * k < 5)%nat)
         ∧ t_shape A = [k; 1; 2; 2]%nat ∧ t_shape B = [5%nat; k; 1%nat; 1%nat]
         ∧ t_shape diff = [5; 1; 2; 2]%nat
         ∧ ∀ i j, (i < 5)%nat → (j < 4)%nat →
             tget (view [5; 4]%nat diff_conv) [i; j]
             = tget (view [5; 4]%nat diff) [i; j]
               + sum_upto k (fun l => tget (view [5%nat; k] B) [i; l]
                                      * tget (view [k; 4%nat] A) [l; j]).
Proof.
  do 3 eexists. split; [vm_compute; reflexivity|].
  eapply (extract_conv_lossless svd_diag diff_conv "fixed" 1 Cpu false 5 1 2);
    [reflexivity|reflexivity|lia|lia|lia|by_evaluation].
Defined.

(** ** Validation of the mode and of its parameter *)

Lemma select_rank_not_implemented mode p Sg :
  select_rank mode p Sg = Raise NotImplementedError ↔ mode ∉ known_modes.
Proof.
  unfold select_rank, known_modes.
  destruct (decide (mode = "fixed")) as [->|H1].
  { split; [discriminate|]. intros H. exfalso. apply H. set_solver. }
  destruct (decide (mode = "threshold")) as [->|H2].
  { split; [|intros H; exfalso; apply H; set_solver].
    destruct (qle 0 p); cbn; discriminate. }
  destruct (decide (mode = "ratio")) as [->|H3].
  { split; [|intros H; exfalso; apply H; set_solver].
    destruct (qle p 1 && qle 0 p); cbn; [|discriminate].
    destruct Sg; cbn; discriminate. }
  destruct (decide (mode = "quantile" ∨ mode = "percentile")) as [H4|H4].
  { split; [|intros H; exfalso; apply H; destruct H4 as [-> | ->]; set_solver].
    destruct (qle p 1 && qle 0 p); cbn; discriminate. }
  split; [|done]. intros _ Hin.
  repeat (apply elem_of_cons in Hin as [->|Hin]; [tauto|]). by apply elem_of_nil in Hin.
Qed.

Lemma range_rejected p : qle p 1 && qle 0 p = false ↔ p < 0 ∨ 1 < p.
Proof.
  rewrite andb_false_iff, !qle_false. tauto.
Qed.

Lemma select_rank_assertion mode p Sg :
  select_rank mode p Sg = Raise AssertionError ↔ rejected_param mode p.
Proof.
  unfold select_rank, rejected_param.
  destruct (decide (mode = "fixed")) as [->|H1].
  { split; [discriminate|]. intros [[? _]|[H _]]; [done|].
    repeat (apply elem_of_cons in H as [?|H]; [done|]). by apply elem_of_nil in H. }
  destruct (decide (mode = "threshold")) as [->|H2].
  { destruct (qle 0 p) eqn:E; cbn.
    - split; [discriminate|]. apply qle_true in E.
      intros [[_ H]|[H _]]; [by apply Qclt_not_le in H|].
      repeat (apply elem_of_cons in H as [?|H]; [done|]). by apply elem_of_nil in H.
    - split; [|done]. intros _. left. split; [done|]. by apply qle_false. }
  destruct (decide (mode = "ratio")) as [->|H3].
  { destruct (qle p 1 && qle 0 p) eqn:E; cbn.
    - split.
      + destruct Sg; cbn; discriminate.
      + intros [[? _]|[_ H]]; [done|]. apply range_rejected in H. congruence.
    - split; [|done]. intros _. right. split; [set_solver|]. by apply range_rejected. }
  destruct (decide (mode = "quantile" ∨ mode = "percentile")) as [H4|H4].
  { destruct (qle p 1 && qle 0 p) eqn:E; cbn.
    - split; [discriminate|].
      intros [[? _]|[_ H]]; [done|]. apply range_rejected in H. congruence.
    - split; [|done]. intros _. right. split; [|by apply range_rejected].
      destruct H4 as [-> | ->]; set_solver. }
  split; [discriminate|].
  intros [[? _]|[H _]]; [done|].
  repeat (apply elem_of_cons in H as [->|H]; [tauto|]). by apply elem_of_nil in H.
Qed.

Lemma reshape_failure t dims e : reshape t dims = Raise e → runtime_failure e.
Proof.
  unfold reshape, infer_shape.
  repeat (case_bool_decide || case_decide || case_match); cbn [bind];
    intros [= <-]; by split.
Qed.

Lemma broadcast_rev_failure a b e : broadcast_rev a b = Raise e → runtime_failure e.
Proof.
  revert b. induction a as [|x a IH]; intros [|y b]; cbn [broadcast_rev]; try done.
  destruct (broadcast_rev a b) as [r|e'] eqn:E; cbn [bind].
  - repeat case_decide; intros [= <-]; by split.
  - intros [= <-]. by eapply IH.
Qed.

Lemma binop_failure f a b e : binop f a b = Raise e → runtime_failure e.
Proof.
  unfold binop, broadcast_shapes. case_decide; [|intros [= <-]; by split].
  destruct (broadcast_rev _ _) as [r|e'] eqn:E; cbn [bind]; [done|].
  intros [= <-]. by eapply broadcast_rev_failure.
Qed.

Lemma matmul_failure a b e : matmul a b = Raise e → runtime_failure e.
Proof.
  unfold matmul. repeat (case_match || case_decide); intros [= <-]; by split.
Qed.

Lemma truncate_failure U Sg Vh r e : truncate U Sg Vh r = Raise e → runtime_failure e.
Proof.
  unfold truncate, as_index, slice_cols, slice_rows, diag.
  case_bool_decide; cbn [bind]; [|intros [= <-]; by split].
  destruct (t_shape U) as [|? [|? [|]]]; cbn [bind]; try (intros [= <-]; by split).
  destruct (t_shape Sg) as [|? [|]]; cbn [bind t_shape]; try (intros [= <-]; by split).
  destruct (matmul _ _) as [m|e'] eqn:E; cbn [bind].
  - destruct (t_shape Vh); cbn [bind]; [|done]. intros [= <-]; by split.
  - intros [= <-]. by eapply matmul_failure.
Qed.

(** On a weight of shape [out_ch, in_ch], [extract_linear] fails with an
    error of the mode dispatch exactly when the rank selection does. *)
Lemma extract_linear_dispatch_error svd w mode p dev out_ch in_ch e :
  t_shape w = [out_ch; in_ch] → ¬ runtime_failure e →
  extract_linear svd w mode p dev = Raise e
  ↔ select_rank mode p (spectrum svd (to_device dev (float w))) = Raise e.
Proof.
  intros Hw He.
  assert (t_shape (to_device dev (float w)) = [out_ch; in_ch]) as Hw'
    by (unfold float; by autorewrite with tensor).
  destruct (linalg_svd_spec svd _ _ _ Hw') as (U & Sg & Vh & Hsvd & _).
  rewrite (spectrum_eq _ _ _ _ _ Hsvd).
  unfold extract_linear. rewrite Hw', Hsvd. cbn [bind].
  destruct (select_rank mode p (t_data Sg)) as [r|e'] eqn:Hsel; cbn [bind];
    [|split; intros [= ->]; done].
  split; [|done]. intros H. exfalso. apply He.
  destruct (rank_is_full _ _); [done|].
  destruct (truncate _ _ _ _) as [[[k U'] Vh']|e'] eqn:Ht; cbn [bind] in H;
    [|injection H as <-; by eapply truncate_failure].
  destruct (matmul U' Vh') as [UV|e'] eqn:Hm; cbn [bind] in H;
    [|injection H as <-; by eapply matmul_failure].
  destruct (sub _ UV) as [d|e'] eqn:Hs; cbn [bind] in H;
    [|injection H as <-; by eapply binop_failure].
  destruct (reshape Vh' _) as [A|e'] eqn:HA; cbn [bind] in H;
    [|injection H as <-; by eapply reshape_failure].
  destruct (reshape U' _) as [B|e'] eqn:HB; cbn [bind] in H;
    [|injection H as <-; by eapply reshape_failure].
  done.
Qed.

(** The same for [extract_conv] on a well-formed weight of four dimensions
    with at least one output channel. *)
Lemma extract_conv_dispatch_error svd w mode p dev is_cp out_ch in_ch ks ks' e :
  t_shape w = [out_ch; in_ch; ks; ks'] → wf w → (1 ≤ out_ch)%nat → ¬ runtime_failure e →
  extract_conv svd w mode p dev is_cp = Raise e
  ↔ select_rank mode p
      (spectrum svd (view [out_ch; (in_ch * (ks * ks'))%nat] (to_device dev (float w))))
    = Raise e.
Proof.
  intros Hw Wf Ho He.
  set (w' := to_device dev (float w)). set (n := (in_ch * (ks * ks'))%nat).
  assert (t_shape w' = [out_ch; in_ch; ks; ks']) as Hw'
    by (unfold w', float; by autorewrite with tensor).
  assert (length (t_data w') = (out_ch * n)%nat) as Hlen.
  { unfold w', float. autorewrite with tensor. unfold wf in Wf. rewrite Wf, Hw.
    unfold n. cbn [numel fold_right]. lia. }
  assert (reshape w' [Z.of_nat out_ch; (-1)%Z] = Ok (view [out_ch; n] w')) as Hre.
  { rewrite reshape_rows; [|done|by rewrite Hlen, Nat.mul_comm, Nat.Div0.mod_mul].
    unfold view. do 3 f_equal. rewrite Hlen, Nat.mul_comm. by rewrite Nat.div_mul by lia. }
  destruct (linalg_svd_spec svd (view [out_ch; n] w') out_ch n eq_refl)
    as (U & Sg & Vh & Hsvd & _).
  rewrite (spectrum_eq _ _ _ _ _ Hsvd).
  unfold extract_conv. fold w'. rewrite Hw', Hre. cbn [bind]. rewrite Hsvd. cbn [bind].
  destruct (select_rank mode p (t_data Sg)) as [r|e'] eqn:Hsel; cbn [bind];
    [|split; intros [= ->]; done].
  split; [|done]. intros H. exfalso. apply He.
  destruct (_ && _); [done|].
  destruct (truncate _ _ _ _) as [[[k U'] Vh']|e'] eqn:Ht; cbn [bind] in H;
    [|injection H as <-; by eapply truncate_failure].
  destruct (matmul U' Vh') as [UV|e'] eqn:Hm; cbn [bind] in H;
    [|injection H as <-; by eapply matmul_failure].
  destruct (reshape UV _) as [UV'|e'] eqn:Hr; cbn [bind] in H;
    [|injection H as <-; by eapply reshape_failure].
  destruct (sub _ UV') as [d|e'] eqn:Hs; cbn [bind] in H;
    [|injection H as <-; by eapply binop_failure].
  destruct (reshape Vh' _) as [A|e'] eqn:HA; cbn [bind] in H;
    [|injection H as <-; by eapply reshape_failure].
  destruct (reshape U' _) as [B|e'] eqn:HB; cbn [bind] in H;
    [|injection H as <-; by eapply reshape_failure].
  done.
Qed.

(** X9. On weights of the expected shapes, [extract_linear] and
    [extract_conv] raise [NotImplementedError] exactly when the mode is none
    of ['fixed'], ['threshold'], ['ratio'], ['quantile'], ['percentile']. *)
Theorem unknown_mode_is_rejected (svd : svd_oracle) (mode : string) (mode_param : Qc)
    (dev : device) (is_cp : bool) (wl wc : Tensor) (ol il oc ic ks ks' : nat) :
  t_shape wl = [ol; il] →
  t_shape wc = [oc; ic; ks; ks'] → wf wc → (1 ≤ oc)%nat →
  (extract_linear svd wl mode mode_param dev = Raise NotImplementedError
   ↔ mode ∉ known_modes)
  ∧ (extract_conv svd wc mode mode_param dev is_cp = Raise NotImplementedError
     ↔ mode ∉ known_modes).
Proof.
  intros Hl Hc Wc Ho. split.
  - rewrite (extract_linear_dispatch_error svd wl mode mode_param dev ol il) by
      (try done; intros [? ?]; done).
    apply select_rank_not_implemented.
  - rewrite (extract_conv_dispatch_error svd wc mode mode_param dev is_cp oc ic ks ks') by
      (try done; intros [? ?]; done).
    apply select_rank_not_implemented.
Qed.

Lemma unknown_mode_is_rejected_witness :
  (extract_linear svd_diag diff_linear "rank" 1 Cpu = Raise NotImplementedError
   ↔ "rank" ∉ known_modes)
  ∧ (extract_conv svd_diag diff_conv "rank" 1 Cpu false = Raise NotImplementedError
     ↔ "rank" ∉ known_modes).
Proof.
  apply (unknown_mode_is_rejected svd_diag "rank" 1 Cpu false diff_linear diff_conv
           4 3 5 1 2 2); [reflexivity|reflexivity|reflexivity|lia].
Defined.

(** X10. On weights of the expected shapes, [extract_linear] and
    [extract_conv] raise [AssertionError] exactly when the parameter is out
    of the range of the mode: negative in ['threshold'] mode, outside
    [[0, 1]] in the ['ratio'], ['quantile'] and ['percentile'] modes. The
    ['fixed'] mode accepts every parameter. *)
Theorem mode_param_is_validated (svd : svd_oracle) (mode : string) (mode_param : Qc)
    (dev : device) (is_cp : bool) (wl wc : Tensor) (ol il oc ic ks ks' : nat) :
  t_shape wl = [ol; il] →
  t_shape wc = [oc; ic; ks; ks'] → wf wc → (1 ≤ oc)%nat →
  (extract_linear svd wl mode mode_param dev = Raise AssertionError
   ↔ rejected_param mode mode_param)
  ∧ (extract_conv svd wc mode mode_param dev is_cp = Raise AssertionError
     ↔ rejected_param mode mode_param).
Proof.
  intros Hl Hc Wc Ho. split.
  - rewrite (extract_linear_dispatch_error svd wl mode mode_param dev ol il) by
      (try done; intros [? ?]; done).
    apply select_rank_assertion.
  - rewrite (extract_conv_dispatch_error svd wc mode mode_param dev is_cp oc ic ks ks') by
      (try done; intros [? ?]; done).
    apply select_rank_assertion.
Qed.

Lemma mode_param_is_validated_witness :
  (extract_linear svd_diag diff_linear "ratio" 2 Cpu = Raise AssertionError
   ↔ rejected_param "ratio" 2)
  ∧ (extract_conv svd_diag diff_conv "ratio" 2 Cpu false = Raise AssertionError
     ↔ rejected_param "ratio" 2).
Proof.
  apply (mode_param_is_validated svd_diag "ratio" 2 Cpu false diff_linear diff_conv
           4 3 5 1 2 2); [reflexivity|reflexivity|reflexivity|lia].
Defined.

(** ** The rank as a function of the parameter *)

Lemma count_where_mono (P Q : Qc → bool) l :
  (∀ x, P x = true → Q x = true) → (count_where P l ≤ count_where Q l)%nat.
Proof.
  intros H. unfold count_where. induction l as [|x l IH]; [done|].
  rewrite !filter_cons. destruct (decide (P x = true)) as [HP|HP].
  - rewrite decide_True by by apply H. cbn. lia.
  - case_decide; cbn; lia.
Qed.

Lemma count_where_le (P : Qc → bool) l : (count_where P l ≤ length l)%nat.
Proof. unfold count_where. apply length_filter. Qed.

Lemma select_rank_quantile mode p Sg :
  mode = "quantile" ∨ mode = "percentile" → 0 ≤ p → p ≤ 1 →
  select_rank mode p Sg
  = Ok (qn (count_where (fun c => qlt c (p * qsum Sg)) (cumsum Sg))).
Proof.
  intros Hmode H0 H1. unfold select_rank.
  assert (mode ≠ "fixed" ∧ mode ≠ "threshold" ∧ mode ≠ "ratio") as (?&?&?).
  { by destruct Hmode as [-> | ->]. }
  rewrite !decide_False by done. rewrite decide_True by done.
  apply qle_true in H0, H1. by rewrite H0, H1.
Qed.

(** X11. In ['threshold'] mode with a parameter [p >= 0] the selected rank is
    the number of singular values strictly above [p], which is at most the
    number of singular values; for a spectrum in descending order these are
    exactly its leading entries. *)
Theorem threshold_rank_counts_above (Sg : list Qc) (p : Qc) :
  0 ≤ p →
  let k := length (filter (fun s => p < s) Sg) in
  select_rank "threshold" p Sg = Ok (qn k)
  ∧ (k ≤ length Sg)%nat
  ∧ (StronglySorted (flip Qcle) Sg → take k Sg = filter (fun s => p < s) Sg).
Proof.
  intros H0 k. split; [|split].
  - unfold select_rank. simpl. apply qle_true in H0. rewrite H0. simpl.
    do 2 f_equal. apply count_where_filter. intros s. apply qlt_true.
  - apply length_filter.
  - intros Hs. symmetry. by apply filter_above_sorted.
Qed.

Lemma threshold_rank_counts_above_witness :
  let Sg : list Qc := [qn 3; qn 2; qn 1] in
  let k := length (filter (fun s => 1 < s) Sg) in
  (0 : Qc) ≤ 1
  ∧ select_rank "threshold" 1 Sg = Ok (qn k)
  ∧ (k ≤ length Sg)%nat
  ∧ (StronglySorted (flip Qcle) Sg → take k Sg = filter (fun s => 1 < s) Sg).
Proof.
  split; [by_evaluation|].
  apply (threshold_rank_counts_above [qn 3; qn 2; qn 1] 1). by_evaluation.
Defined.

(** X12. The selected rank is monotone in the parameter: in ['threshold']
    and ['ratio'] mode a larger parameter selects a rank that is not larger,
    in ['quantile'] and ['percentile'] mode one that is not smaller (for a
    spectrum of non-negative singular values and parameters in range). *)
Theorem rank_is_monotone_in_param (Sg : list Qc) (p1 p2 : Qc) :
  0 ≤ p1 → p1 ≤ p2 → (∀ s, s ∈ Sg → 0 ≤ s) →
  (∃ k1 k2, select_rank "threshold" p1 Sg = Ok (qn k1)
            ∧ select_rank "threshold" p2 Sg = Ok (qn k2) ∧ (k2 ≤ k1)%nat)
  ∧ (p2 ≤ 1 →
     (Sg ≠ [] →
      ∃ k1 k2, select_rank "ratio" p1 Sg = Ok (qn k1)
               ∧ select_rank "ratio" p2 Sg = Ok (qn k2) ∧ (k2 ≤ k1)%nat)
     ∧ (∀ mode, mode = "quantile" ∨ mode = "percentile" →
        ∃ k1 k2, select_rank mode p1 Sg = Ok (qn k1)
                 ∧ select_rank mode p2 Sg = Ok (qn k2) ∧ (k1 ≤ k2)%nat)).
Proof.
  intros H0 H12 Hnn.
  assert (0 ≤ p2) as H02 by by eapply Qcle_trans.
  split; [|intros H21; assert (p1 ≤ 1) as H11 by (by eapply Qcle_trans); split].
  - eexists _, _. unfold select_rank. simpl.
    rewrite (proj2 (qle_true 0 p1) H0), (proj2 (qle_true 0 p2) H02). simpl.
    split; [reflexivity|]. split; [reflexivity|].
    apply count_where_mono. intros s Hs. apply qlt_true in Hs. apply qlt_true.
    by eapply Qcle_lt_trans.
  - intros Hne. destruct Sg as [|x Sg]; [done|].
    destruct (torch_max (x :: Sg)) as [m|] eqn:Hm; [|done].
    pose proof Hm as Hm'. apply torch_max_spec in Hm' as (_ & Hin & _).
    eexists _, _. unfold select_rank. simpl decide. cbn match.
    rewrite (proj2 (qle_true 0 p1) H0), (proj2 (qle_true 0 p2) H02),
      (proj2 (qle_true p1 1) H11), (proj2 (qle_true p2 1) H21).
    cbn [andb py_assert bind]. rewrite Hm. cbn [bind].
    split; [reflexivity|]. split; [reflexivity|].
    apply count_where_mono. intros s Hs. apply qlt_true in Hs. apply qlt_true.
    eapply Qcle_lt_trans; [|exact Hs].
    rewrite !(Qcmult_comm m). apply Qcmult_le_compat_r; [done|]. by apply Hnn.
  - intros mode Hmode. eexists _, _.
    rewrite !select_rank_quantile by done.
    split; [reflexivity|]. split; [reflexivity|].
    apply count_where_mono. intros c Hc. apply qlt_true in Hc. apply qlt_true.
    eapply Qclt_le_trans; [exact Hc|].
    apply Qcmult_le_compat_r; [done|]. by apply qsum_nonneg.
Qed.

Lemma rank_is_monotone_in_param_witness :
  let Sg : list Qc := [qn 3; qn 2; qn 1] in
  let p1 := qfrac 1 4 in
  let p2 := qfrac 1 2 in
  (0 ≤ p1 ∧ p1 ≤ p2 ∧ ∀ s, s ∈ Sg → 0 ≤ s)
  ∧ (∃ k1 k2, select_rank "threshold" p1 Sg = Ok (qn k1)
              ∧ select_rank "threshold" p2 Sg = Ok (qn k2) ∧ (k2 ≤ k1)%nat)
  ∧ (p2 ≤ 1 →
     (Sg ≠ [] →
      ∃ k1 k2, select_rank "ratio" p1 Sg = Ok (qn k1)
               ∧ select_rank "ratio" p2 Sg = Ok (qn k2) ∧ (k2 ≤ k1)%nat)
     ∧ (∀ mode, mode = "quantile" ∨ mode = "percentile" →
        ∃ k1 k2, select_rank mode p1 Sg = Ok (qn k1)
                 ∧ select_rank mode p2 Sg = Ok (qn k2) ∧ (k1 ≤ k2)%nat)).
Proof.
  assert (∀ s : Qc, s ∈ [qn 3; qn 2; qn 1] → 0 ≤ s) as H by (apply Forall_forall; by_evaluation).
  split; [split; [by_evaluation|split; [by_evaluation|exact H]]|].
  apply (rank_is_monotone_in_param [qn 3; qn 2; qn 1] (qfrac 1 4) (qfrac 1 2));
    [by_evaluation|by_evaluation|exact H].
Defined.

(** ** Sparsification of the residual *)

Lemma qfloor_bounds q : 0 ≤ q → (0 ≤ qfloor q)%Z ∧ qz (qfloor q) ≤ q.
Proof.
  intros H0. assert (qfloor q = Qfloor (this q)) as -> by by destruct q as [[? ?] ?].
  split.
  - change 0%Z with (Qfloor 0%Q). apply Qfloor_resp_le. exact H0.
  - unfold Qcle, qz, Qc_of_Z. cbn [this]. apply Qfloor_le.
Qed.

Lemma qfloor_above q : q < qz (qfloor q) + 1.
Proof.
  assert (qfloor q = Qfloor (this q)) as -> by by destruct q as [[? ?] ?].
  pose proof (Qlt_floor (this q)) as Hl.
  unfold Qclt. eapply Qlt_le_trans; [exact Hl|].
  rewrite inject_Z_plus. unfold qz, Qc_of_Z. cbn [this Qcplus Q2Qc].
  rewrite Qred_correct. apply Qle_refl.
Qed.

(** The quantile of a non-empty array is at most one of its elements. *)
Lemma np_quantile_le_element a q v :
  a ≠ [] → np_quantile a q = Ok v → ∃ y, y ∈ a ∧ v ≤ y.
Proof.
  intros Ha. unfold np_quantile.
  destruct (qle 0 q && qle q 1) eqn:Hq; cbn [negb]; [|done].
  rewrite bool_decide_eq_false_2 by done.
  apply andb_true_iff in Hq as [H0 H1]. apply qle_true in H0, H1.
  set (sorted := merge_sort Qcle a).
  assert (sorted ≡ₚ a) as Hperm by apply merge_sort_Permutation.
  set (n := length a). assert (1 ≤ n)%nat as Hn by (unfold n; destruct a; [done|cbn; lia]).
  assert (length sorted = n) as Hls by by rewrite Hperm.
  set (h := qn (n - 1) * q).
  assert (0 ≤ qn (n - 1)) as Hn0.
  { assert (qn 0 = 0) as <- by apply Z2Qc_inj_0. apply qn_le. lia. }
  assert (0 ≤ h) as Hh0.
  { unfold h. replace 0 with (0 * q) by ring. by apply Qcmult_le_compat_r. }
  assert (h ≤ qn (n - 1)) as Hh1.
  { unfold h. rewrite <- (Qcmult_1_l (qn (n - 1))) at 2. rewrite (Qcmult_comm (qn (n - 1))).
    by apply Qcmult_le_compat_r. }
  destruct (qfloor_bounds h Hh0) as [Hf0 Hf1].
  pose proof (qfloor_above h) as Hf2.
  set (i := Z.to_nat (qfloor h)) in *.
  assert (qn i = qz (qfloor h)) as Hi by (unfold qn, i; by rewrite Z2Nat.id).
  rewrite <- Hi in Hf1, Hf2.
  assert (i < n)%nat as Hin.
  { assert (qn i ≤ qn (n - 1)) as Hle by by eapply Qcle_trans.
    apply qn_le in Hle. lia. }
  set (g := h - qn i).
  assert (0 ≤ g) as Hg0.
  { unfold g, Qcminus. rewrite <- (Qcplus_opp_r (qn i)).
    apply Qcplus_le_compat; [done|apply Qcle_refl]. }
  assert (g ≤ 1) as Hg1.
  { unfold g. apply Qclt_le_weak in Hf2.
    replace 1 with (qn i + 1 - qn i) by ring.
    unfold Qcminus. apply Qcplus_le_compat; [done|apply Qcle_refl]. }
  set (lo := nth i sorted 0). set (hi := nth (S i) sorted lo).
  assert (∀ j d, (j < n)%nat → nth j sorted d ∈ a) as Hel.
  { intros j d Hj. rewrite <- Hperm. apply list_elem_of_lookup. exists j.
    destruct (nth_lookup_or_length sorted j d) as [?|?]; [done|lia]. }
  assert (hi ∈ a) as Hhi.
  { unfold hi. destruct (decide (S i < n)%nat); [by apply Hel|].
    rewrite nth_overflow by lia. by apply Hel. }
  intros [= <-]. destruct (Qclt_le_dec lo hi) as [Hlt|Hle].
  - exists hi. split; [done|].
    assert (lo + 1 * (hi - lo) = hi) as E by ring.
    eapply Qcle_trans; [|rewrite <- E; apply Qcle_refl].
    apply Qcplus_le_compat; [apply Qcle_refl|].
    apply Qcmult_le_compat_r; [done|].
    apply Qclt_le_weak in Hlt. unfold Qcminus. rewrite <- (Qcplus_opp_r lo).
    apply Qcplus_le_compat; [done|apply Qcle_refl].
  - exists lo. split; [by apply Hel|].
    assert (lo + 0 * g = lo) as E by ring.
    eapply Qcle_trans; [|rewrite <- E; apply Qcle_refl].
    apply Qcplus_le_compat; [apply Qcle_refl|].
    rewrite Qcmult_comm. apply Qcmult_le_compat_r; [|done].
    unfold Qcminus. rewrite <- (Qcplus_opp_r lo).
    apply Qcplus_le_compat; [done|apply Qcle_refl].
Qed.

(** X13. [make_sparse] keeps the shape, the type and the device of the
    tensor; every element of the result is the element of the input at the
    same position or zero, and an element is zeroed only when the tensor has
    an element of strictly larger magnitude: the elements of largest
    magnitude always stay. *)
Theorem make_sparse_keeps_largest (t t' : Tensor) (sparsity : Qc) :
  make_sparse t sparsity = Ok t' →
  t_shape t' = t_shape t ∧ t_dtype t' = t_dtype t ∧ t_device t' = t_device t
  ∧ length (t_data t') = length (t_data t)
  ∧ ∀ i x, t_data t !! i = Some x →
      t_data t' !! i = Some x
      ∨ (t_data t' !! i = Some 0 ∧ ∃ y, y ∈ t_data t ∧ qabs x < qabs y).
Proof.
  unfold make_sparse.
  destruct (np_quantile _ _) as [quan|] eqn:Hq; cbn [bind]; [|done].
  intros [= <-]. unfold fresh, abs, map_tensor. cbn [t_shape t_dtype t_device t_data].
  do 3 (split; [done|]). split.
  { rewrite length_zip_with, length_fmap. lia. }
  intros i x Hx. rewrite lookup_zip_with, Hx. cbn [bind option_bind mbind].
  rewrite list_lookup_fmap, Hx. cbn.
  destruct (qlt (qabs x) quan) eqn:E; [|by left]. right. split; [done|].
  apply qlt_true in E.
  assert (t_data (cpu (detach (abs t))) = qabs <$> t_data t) as Hd.
  { unfold cpu, detach, abs, map_tensor, fresh. by autorewrite with tensor. }
  rewrite Hd in Hq.
  assert (qabs <$> t_data t ≠ []) as Hne.
  { intros E'. apply fmap_nil_inv in E'. by rewrite E' in Hx. }
  destruct (np_quantile_le_element _ _ _ Hne Hq) as (a & Ha & Hle).
  apply list_elem_of_fmap in Ha as (y & -> & Hy).
  exists y. split; [done|]. by eapply Qclt_le_trans.
Qed.

Lemma make_sparse_keeps_largest_witness :
  ∃ t',
    make_sparse diff_linear (qfrac 1 2) = Ok t'
    ∧ t_shape t' = t_shape diff_linear ∧ t_dtype t' = t_dtype diff_linear
    ∧ t_device t' = t_device diff_linear
    ∧ length (t_data t') = length (t_data diff_linear)
    ∧ ∀ i x, t_data diff_linear !! i = Some x →
        t_data t' !! i = Some x
        ∨ (t_data t' !! i = Some 0 ∧ ∃ y, y ∈ t_data diff_linear ∧ qabs x < qabs y).
Proof.
  eexists. split; [vm_compute; reflexivity|].
  apply (make_sparse_keeps_largest diff_linear _ (qfrac 1 2)). by_evaluation.
Defined.

(** ** Reconstruction of the ['locon'] kind *)

Lemma fmap_flat_map (f : Qc → Qc) (h : nat → list Qc) l :
  f <$> flat_map h l = flat_map (fun i => f <$> h i) l.
Proof. induction l as [|i l IH]; [done|]. cbn [flat_map]. by rewrite fmap_app, IH. Qed.

Lemma mk_fmap sh (f : Qc → Qc) g : mk sh (fun idx => f (g idx)) = f <$> mk sh g.
Proof.
  revert g. induction sh as [|d sh IH]; intros g; [done|].
  cbn [mk]. rewrite fmap_flat_map. apply flat_map_seq_ext. intros i _.
  apply (IH (fun idx => g (i :: idx))).
Qed.

(** Multiplying by a one-element tensor scales every element. *)
Lemma mul_scalar x dt c :
  wf x → t_shape x ≠ [] →
  mul x (fresh dt (t_device x) [1%nat] [c])
  = Ok (fresh (promote (t_dtype x) dt) (t_device x) (t_shape x)
          ((fun y => y * c) <$> t_data x)).
Proof.
  intros Wx Hsh. unfold mul, binop. cbn [t_device t_shape t_dtype t_data fresh].
  rewrite decide_True by done. rewrite broadcast_shapes_one by done. cbn [bind].
  do 2 f_equal. case_decide as Hd.
  - unfold wf in Wx. rewrite Hd in Wx. cbn in Wx.
    destruct (t_data x) as [|d [|]]; try done.
  - transitivity ((fun y => y * c) <$> mk (t_shape x) (tget x));
      [|by rewrite mk_tget_id].
    rewrite <- mk_fmap.
    apply mk_ext. intros idx Hidx.
    rewrite bget_self by done.
    rewrite (bget_one dt (t_device x) c idx); [done|].
    intros ->. by apply Forall2_nil_inv_l in Hidx.
Qed.

(** X14. The ['locon'] kind without middle factor: the merged weight is
    [orig_weight + factor * (up @ down)], with the factors read as matrices
    of [up.size(0)] and [down.size(0)] rows and the product reshaped to the
    weight; [factor] is [scale] when there is no [alpha], and
    [alpha / up.size(1) * scale] for a one-element [alpha]. The bias is
    returned as it is. *)
Theorem rebuild_weight_locon_formula (up down W R : Tensor) (bias alpha : option Tensor)
    (scale : Qc) (m r n : nat) (rest_up rest_down : list nat) :
  t_shape up = m :: r :: rest_up → length (t_data up) = (m * r)%nat →
  t_shape down = r :: rest_down → length (t_data down) = (r * n)%nat →
  (1 ≤ m)%nat → (1 ≤ r)%nat →
  matmul (view [m; r] up) (view [r; n] down) = Ok R →
  wf W → t_shape W ≠ [] → numel (t_shape W) = (m * n)%nat → t_device W = t_device up →
  (∀ al, alpha = Some al →
     t_shape al = [1%nat] ∧ length (t_data al) = 1%nat ∧ t_device al = t_device up) →
  let factor := match alpha with
                | Some al => tget al [0%nat] / qn r * scale
                | None => scale
                end in
  ∃ M, rebuild_weight (Locon up down None alpha) (Some W) bias scale = Ok (Some M, bias)
     ∧ t_shape M = t_shape W
     ∧ t_data M = zip_with Qcplus (t_data W) ((fun x => x * factor) <$> t_data R).
Proof.
  intros Hup Lup Hdn Ldn Hm Hr HR WW HW NW DW Hal factor.
  assert (t_shape R = [m; n] ∧ length (t_data R) = (m * n)%nat ∧ t_device R = t_device up)
    as (HRs & HRl & HRd).
  { assert (t_device up = t_device down ∧ t_dtype up = t_dtype down) as [Hdd Htt].
    { unfold matmul in HR. cbn [view t_shape t_device t_dtype] in HR.
      case_decide as Hd; [by destruct Hd|done]. }
    rewrite (matmul_eq (view [m; r] up) (view [r; n] down) m r n eq_refl eq_refl Hdd Htt) in HR.
    apply Ok_inj in HR. subst R.
    unfold fresh. cbn [t_shape t_data t_device view]. rewrite length_mk.
    split; [done|]. split; [numel_solve|done]. }
  set (Rv := mkTensor (t_storage R) (t_dtype R) (t_device R) (t_shape W) (t_data R)).
  assert (wf Rv ∧ t_shape Rv ≠ []) as [WRv HRv].
  { split; [unfold wf, Rv; cbn [t_data t_shape]; congruence | exact HW]. }
  unfold rebuild_weight.
  destruct alpha as [al|].
  - destruct (Hal al eq_refl) as (Hs & Hl & Hd).
    destruct (t_data al) as [|a [|]] eqn:Ea; try done.
    assert (tget al [0%nat] = a) as Ha by (unfold tget; by rewrite Hs, Ea).
    unfold size at 1. rewrite Hup. cbn [lookup list_lookup bind].
    unfold rescale, div_int. rewrite decide_False by lia. rewrite Ea, Hs.
    cbn [bind fresh t_dtype t_device t_shape t_data fmap list_fmap mul_number map_tensor].
    rewrite (as_matrix_view up m r _ Hup Hm Lup). cbn [bind].
    rewrite (as_matrix_view down r n _ Hdn Hr Ldn). cbn [bind].
    rewrite HR. cbn [bind].
    unfold add_scaled. rewrite reshape_zshape by (rewrite HRl; done). cbn [bind times].
    fold Rv. replace (t_device al) with (t_device Rv) by (unfold Rv; cbn; congruence).
    unfold mul_number, map_tensor, fresh.
    cbn [t_dtype t_device t_shape t_data fmap list_fmap].
    pose proof (mul_scalar Rv (if is_floating (t_dtype al) then t_dtype al else Float32)
                  (a / qn r * scale) WRv HRv) as Hmul.
    unfold fresh in Hmul at 1. rewrite Hmul. cbn [bind].
    unfold add. rewrite binop_same by (unfold Rv, fresh; cbn; congruence).
    eexists. split; [reflexivity|]. unfold fresh, Rv, factor. cbn. by rewrite Ha.
  - cbn [bind].
    rewrite (as_matrix_view up m r _ Hup Hm Lup). cbn [bind].
    rewrite (as_matrix_view down r n _ Hdn Hr Ldn). cbn [bind].
    rewrite HR. cbn [bind].
    unfold add_scaled. rewrite reshape_zshape by (rewrite HRl; done). cbn [bind times].
    unfold mul_number, map_tensor.
    unfold add. rewrite binop_same by (unfold fresh; cbn; congruence).
    eexists. split; [reflexivity|]. unfold fresh, factor. cbn. done.
Qed.

Lemma rebuild_weight_locon_formula_witness :
  let alpha := entry Float32 [1]%nat [2]%Z in
  ∃ R M,
    matmul (view [4; 1]%nat diff_rank_one_U) (view [1; 3]%nat diff_rank_one_V) = Ok R
    ∧ rebuild_weight (Locon diff_rank_one_U diff_rank_one_V None (Some alpha))
        (Some weight_linear) None (qfrac 1 2)
      = Ok (Some M, None)
    ∧ t_shape M = t_shape weight_linear
    ∧ t_data M
      = zip_with Qcplus (t_data weight_linear)
          ((fun x => x * (tget alpha [0%nat] / qn 1 * qfrac 1 2)) <$> t_data R).
Proof.
  intros alpha. exists (fresh Float32 Cpu [4; 3]%nat (t_data diff_rank_one)).
  assert (matmul (view [4; 1]%nat diff_rank_one_U) (view [1; 3]%nat diff_rank_one_V)
          = Ok (fresh Float32 Cpu [4; 3]%nat (t_data diff_rank_one))) as HR by by_evaluation.
  destruct (rebuild_weight_locon_formula diff_rank_one_U diff_rank_one_V weight_linear
              (fresh Float32 Cpu [4; 3]%nat (t_data diff_rank_one))
              None (Some alpha) (qfrac 1 2) 4 1 3 [] [3%nat]) as (M & H1 & H2 & H3);
    [reflexivity|reflexivity|reflexivity|reflexivity|lia|lia|exact HR|reflexivity|
     discriminate|reflexivity|reflexivity| |].
  - intros al [= <-]. by_evaluation.
  - exists M. split; [exact HR|]. by split.
Defined.

(** ** Reconstruction of the ['full'] and ['norm'] kinds *)

Lemma zip_add_scale (w d : list Qc) s1 s2 :
  zip_with Qcplus (zip_with Qcplus w ((fun x => x * s1) <$> d)) ((fun x => x * s2) <$> d)
  = zip_with Qcplus w ((fun x => x * (s1 + s2)) <$> d).
Proof.
  revert d. induction w as [|x w IH]; intros [|y d]; cbn; [done..|].
  rewrite IH. f_equal. ring.
Qed.

Lemma zip_add_zero (w d : list Qc) :
  length w = length d → zip_with Qcplus w ((fun x => x * 0) <$> d) = w.
Proof.
  revert d. induction w as [|x w IH]; intros [|y d] H; cbn in *; try done.
  rewrite IH by lia. f_equal. ring.
Qed.

(** X15. Merging a ['full'] entry is additive in the scale: merging with
    [s1] and then with [s2] gives the elements that one merge with [s1 + s2]
    gives, for the weight and, when the entry carries a bias difference, for
    the bias; so a merge with the opposite scale takes a merge back. *)
Theorem full_merge_is_additive (diff diff_b W b : Tensor) (s1 s2 : Qc) :
  wf W → length (t_data diff) = numel (t_shape W) → t_device diff = t_device W →
  wf b → length (t_data diff_b) = numel (t_shape b) → t_device diff_b = t_device b →
  ∃ M1 b1 M2 b2 M12 b12,
    rebuild_weight (FullDiff diff (Some diff_b)) (Some W) (Some b) s1 = Ok (Some M1, Some b1)
    ∧ rebuild_weight (FullDiff diff (Some diff_b)) (Some M1) (Some b1) s2
      = Ok (Some M2, Some b2)
    ∧ rebuild_weight (FullDiff diff (Some diff_b)) (Some W) (Some b) (s1 + s2)
      = Ok (Some M12, Some b12)
    ∧ t_shape M2 = t_shape W ∧ t_data M2 = t_data M12
    ∧ t_shape b2 = t_shape b ∧ t_data b2 = t_data b12
    ∧ (s1 + s2 = 0 → t_data M2 = t_data W ∧ t_data b2 = t_data b).
Proof.
  intros WW Hl Hd Wb Hlb Hdb.
  eexists _, _, _, _, _, _.
  split; [by apply rebuild_weight_full_with_bias|].
  split; [apply rebuild_weight_full_with_bias; unfold fresh; cbn; done|].
  split; [by apply rebuild_weight_full_with_bias|].
  unfold fresh. cbn [t_shape t_data]. rewrite !zip_add_scale.
  do 4 (split; [done|]). intros ->.
  unfold wf in WW, Wb. rewrite !zip_add_zero by congruence. done.
Qed.

Lemma full_merge_is_additive_witness :
  let diff := entry Float32 [2; 2]%nat [1; 0; 0; 1]%Z in
  let diff_b := entry Float32 [2]%nat [1; 1]%Z in
  let W := param [2; 2]%nat [1; 2; 3; 4]%Z in
  let b := param [2]%nat [5; 6]%Z in
  (wf W ∧ length (t_data diff) = numel (t_shape W) ∧ t_device diff = t_device W
   ∧ wf b ∧ length (t_data diff_b) = numel (t_shape b) ∧ t_device diff_b = t_device b)
  ∧ ∃ M1 b1 M2 b2 M12 b12,
      rebuild_weight (FullDiff diff (Some diff_b)) (Some W) (Some b) 1 = Ok (Some M1, Some b1)
      ∧ rebuild_weight (FullDiff diff (Some diff_b)) (Some M1) (Some b1) (-1)
        = Ok (Some M2, Some b2)
      ∧ rebuild_weight (FullDiff diff (Some diff_b)) (Some W) (Some b) (1 + -1)
        = Ok (Some M12, Some b12)
      ∧ t_shape M2 = t_shape W ∧ t_data M2 = t_data M12
      ∧ t_shape b2 = t_shape b ∧ t_data b2 = t_data b12
      ∧ (1 + -1 = 0 → t_data M2 = t_data W ∧ t_data b2 = t_data b).
Proof.
  intros diff diff_b W b. split; [repeat split; reflexivity|].
  apply (full_merge_is_additive diff diff_b W b 1 (-1)); reflexivity.
Defined.

(** X16. The ['norm'] kind needs both a bias difference in the entry and a
    bias in the layer: with both, the weight and the bias receive their
    scaled differences; when either is missing [rebuild_weight] raises
    [AttributeError] (although [get_module] accepts an entry without
    [b_norm]). *)
Theorem norm_kind_needs_bias (w_norm W : Tensor) (b_norm orig_bias : option Tensor)
    (scale : Qc) :
  length (t_data w_norm) = numel (t_shape W) → t_device w_norm = t_device W →
  match b_norm, orig_bias with
  | Some bn, Some b =>
      length (t_data bn) = numel (t_shape b) → t_device bn = t_device b →
      ∃ M Mb,
        rebuild_weight (Norm w_norm b_norm) (Some W) orig_bias scale = Ok (Some M, Some Mb)
        ∧ t_shape M = t_shape W
        ∧ t_data M = zip_with Qcplus (t_data W) ((fun x => x * scale) <$> t_data w_norm)
        ∧ t_shape Mb = t_shape b
        ∧ t_data Mb = zip_with Qcplus (t_data b) ((fun x => x * scale) <$> t_data bn)
  | _, _ =>
      rebuild_weight (Norm w_norm b_norm) (Some W) orig_bias scale = Raise AttributeError
  end.
Proof.
  intros Hl Hd. unfold rebuild_weight. rewrite reshape_zshape by done. cbn [bind].
  destruct b_norm as [bn|]; [|done]. destruct orig_bias as [b|]; [|done].
  intros Hlb Hdb. cbn [need bind]. rewrite reshape_zshape by done.
  cbn [bind times mul_number map_tensor].
  unfold add. rewrite !binop_same by (cbn; congruence). cbn [bind].
  eexists _, _. split; [reflexivity|]. done.
Qed.

Lemma norm_kind_needs_bias_witness :
  let w_norm := entry Float32 [2]%nat [1; 1]%Z in
  let b_norm := entry Float32 [2]%nat [2; 2]%Z in
  let W := param [2]%nat [3; 4]%Z in
  let b := param [2]%nat [5; 6]%Z in
  (length (t_data w_norm) = numel (t_shape W) ∧ t_device w_norm = t_device W
   ∧ length (t_data b_norm) = numel (t_shape b) ∧ t_device b_norm = t_device b)
  ∧ (∃ M Mb,
       rebuild_weight (Norm w_norm (Some b_norm)) (Some W) (Some b) 2 = Ok (Some M, Some Mb)
       ∧ t_shape M = t_shape W
       ∧ t_data M = zip_with Qcplus (t_data W) ((fun x => x * 2) <$> t_data w_norm)
       ∧ t_shape Mb = t_shape b
       ∧ t_data Mb = zip_with Qcplus (t_data b) ((fun x => x * 2) <$> t_data b_norm))
  ∧ rebuild_weight (Norm w_norm None) (Some W) (Some b) 2 = Raise AttributeError
  ∧ rebuild_weight (Norm w_norm (Some b_norm)) (Some W) None 2 = Raise AttributeError.
Proof.
  intros w_norm b_norm W b. split; [repeat split; reflexivity|].
  split; [|split].
  - apply (norm_kind_needs_bias w_norm W (Some b_norm) (Some b) 2); reflexivity.
  - apply (norm_kind_needs_bias w_norm W None (Some b) 2); reflexivity.
  - apply (norm_kind_needs_bias w_norm W (Some b_norm) None 2); reflexivity.
Defined.

(** ** What [merge] leaves as it is *)

Lemma skeleton_eq m :
  skeleton m
  = Mod (m_class m)
      (match m_weight m with
       | Attr (Some t) => Attr (Some (blank t))
       | w => w
       end)
      (blank <$> m_bias m)
      ((fun kc => (kc.1, skeleton kc.2)) <$> m_children m).
Proof.
  destruct m as [c w b ch]. cbn [skeleton m_class m_weight m_bias m_children]. f_equal.
  induction ch as [|[k c'] ch IH]; [done|]. cbn. by rewrite IH.
Qed.

Lemma skeleton_module_to dev : ∀ m, skeleton (module_to dev m) = skeleton m.
Proof.
  fix IH 1. intros [c w b ch]. cbn [module_to skeleton m_class m_weight m_bias m_children].
  f_equal.
  - by destruct w as [|[t|]].
  - by destruct b.
  - revert ch. fix IHch 1. intros [|[k c'] ch]; [done|]. f_equal; [|apply IHch].
    f_equal. apply IH.
Qed.

Lemma fmap_alter_same {A B} (h : A → B) (g : A → A) i (l : list A) :
  (∀ x, l !! i = Some x → h (g x) = h x) → h <$> alter g i l = h <$> l.
Proof.
  revert i. induction l as [|x l IH]; intros [|i] H; cbn; try done.
  - f_equal. by apply H.
  - f_equal. apply IH. intros y Hy. by apply H.
Qed.

Lemma skeleton_update_at path f : ∀ root,
  (∀ c, module_at path root = Some c → skeleton (f c) = skeleton c) →
  skeleton (update_at path f root) = skeleton root.
Proof.
  induction path as [|i rest IH]; intros root H; [by apply H|].
  cbn [update_at]. rewrite (skeleton_eq root), skeleton_eq.
  cbn [m_class m_weight m_bias m_children]. f_equal.
  apply fmap_alter_same. intros [k c] Hk. cbn. f_equal. apply IH.
  intros c' Hc'. apply H. cbn [module_at]. by rewrite Hk.
Qed.

Lemma module_at_update_at path f : ∀ root c,
  module_at path root = Some c → module_at path (update_at path f root) = Some (f c).
Proof.
  induction path as [|i rest IH]; intros root c H; cbn in *; [by injection H as ->|].
  destruct (m_children root !! i) as [[k c']|] eqn:E; [|done].
  rewrite list_lookup_alter_eq, E. cbn. by apply IH.
Qed.

Lemma copy_blank dst src t : copy_ dst src = Ok t → blank t = blank dst.
Proof.
  unfold copy_. destruct (broadcast_shapes _ _); cbn [bind]; [|done].
  case_decide; [|done]. by intros [= <-].
Qed.

Lemma merge_module_skeleton d scale lora_name path root merged root' merged' :
  merge_module d scale lora_name path (root, merged) = Ok (root', merged') →
  skeleton root' = skeleton root.
Proof.
  unfold merge_module. destruct (module_at path root) as [child|] eqn:Hat; [|done].
  destruct (get_module _ _) as [lm|]; cbn [bind]; [|done].
  destruct (getattr_weight child) as [w|] eqn:Hw; cbn [bind]; [|done].
  destruct (rebuild_weight _ _ _ _) as [[result result_b]|]; cbn [bind]; [|done].
  destruct result as [result|]; cbn [bind].
  - destruct w as [w0|]; cbn [need bind]; [|done].
    destruct (copy_ w0 result) as [w'|] eqn:Hc; cbn [bind]; [|done].
    apply copy_blank in Hc.
    assert (m_weight child = Attr (Some w0)) as Hmw.
    { unfold getattr_weight in Hw. destruct (m_weight child); [done|]. by injection Hw as ->. }
    assert (skeleton (set_weight w' child) = skeleton child) as Hsk.
    { rewrite !skeleton_eq. unfold set_weight.
      cbn [m_class m_weight m_bias m_children]. by rewrite Hmw, Hc. }
    destruct result_b as [result_b|].
    + destruct (m_bias child) as [b0|] eqn:Hb; cbn [need bind]; [|done].
      destruct (copy_ b0 result_b) as [b'|] eqn:Hcb; cbn [bind]; [|done].
      apply copy_blank in Hcb. intros [= <- _].
      rewrite skeleton_update_at.
      * apply skeleton_update_at. intros c Hc'. rewrite Hat in Hc'. by injection Hc' as <-.
      * intros c Hc'. rewrite (module_at_update_at _ _ _ _ Hat) in Hc'.
        injection Hc' as <-. rewrite !skeleton_eq. unfold set_bias, set_weight.
        cbn [m_class m_weight m_bias m_children fmap option_fmap option_map].
        rewrite Hb. cbn. by rewrite Hcb.
    + intros [= <- _]. apply skeleton_update_at.
      intros c Hc'. rewrite Hat in Hc'. by injection Hc' as <-.
  - destruct result_b as [result_b|]; [|by intros [= <- _]].
    destruct (m_bias child) as [b0|] eqn:Hb; cbn [need bind]; [|done].
    destruct (copy_ b0 result_b) as [b'|] eqn:Hcb; cbn [bind]; [|done].
    apply copy_blank in Hcb. intros [= <- _]. apply skeleton_update_at.
    intros c Hc'. rewrite Hat in Hc'. injection Hc' as <-.
    rewrite !skeleton_eq. unfold set_bias.
    cbn [m_class m_weight m_bias m_children fmap option_fmap option_map].
    rewrite Hb. cbn. by rewrite Hcb.
Qed.

Lemma merge_state_dict_skeleton scale prefix root d mods names merged root' merged' :
  merge_state_dict scale prefix root d mods names merged = Ok (root', merged') →
  skeleton root' = skeleton root.
Proof.
  unfold merge_state_dict. intros H.
  apply (foldM_invariant (fun st : Module * nat => skeleton st.1 = skeleton root)) in H;
    [done| |done].
  intros [r n] [[name path] module] [r' n'] Hr. cbn [fst] in *.
  destruct (is_in (m_class module) mods).
  - intros H'.
    apply (foldM_invariant (fun st : Module * nat => skeleton st.1 = skeleton root)) in H';
      [done| |done].
    intros [r1 n1] [[child_name child_path] child_module] [r1' n1'] Hr1. cbn [fst] in *.
    destruct (negb _); [by intros [= <- _]|].
    intros ->%merge_module_skeleton. done.
  - destruct (is_in name names); [|by intros [= <- _]].
    intros ->%merge_module_skeleton. done.
Qed.

(** X17. [merge] changes values only: when it returns, the bundle has the
    length it had, every model in it has the same tree of modules with the
    same classes and names, and every weight and bias has the shape, the
    type and the buffer it had; the models other than the first and the
    third are not touched at all. A bundle of fewer than three models is
    never merged. *)
Theorem merge_keeps_layout (base_model base' : list Module) (d d' : state_dict)
    (scale : Qc) (dev : device) (n : nat) :
  merge base_model d scale dev = Ok (base', d', n) →
  length base' = length base_model
  ∧ (3 ≤ length base_model)%nat
  ∧ (∀ i m m', base_model !! i = Some m → base' !! i = Some m' → skeleton m' = skeleton m)
  ∧ (∀ i, i ≠ 0%nat → i ≠ 2%nat → base' !! i = base_model !! i).
Proof.
  unfold merge.
  destruct (foldM _ _ _) as [d1|]; cbn [bind]; [|done].
  unfold model_slot at 1.
  destruct (base_model !! 0%nat) as [m0|] eqn:E0; cbn [bind]; [|done].
  destruct (merge_state_dict _ _ _ _ _ _ _) as [[m0' k0]|] eqn:M0; cbn [bind]; [|done].
  unfold model_slot.
  rewrite list_lookup_insert_ne by done. rewrite list_lookup_insert_ne by done.
  destruct (base_model !! 2%nat) as [m2|] eqn:E2; cbn [bind]; [|done].
  destruct (merge_state_dict _ _ (module_to dev m2) _ _ _ _) as [[m2' k2]|] eqn:M2;
    cbn [bind]; [|done].
  intros [= <- _ _].
  apply merge_state_dict_skeleton in M0, M2. rewrite skeleton_module_to in M0, M2.
  assert (2 < length base_model)%nat as Hlen by (eapply lookup_lt_Some; exact E2).
  split; [by rewrite !length_insert|]. split; [lia|]. split.
  - intros i m m' Hm Hm'.
    destruct (decide (i = 2%nat)) as [->|H2].
    { rewrite list_lookup_insert_eq in Hm' by (rewrite !length_insert; lia).
      injection Hm' as <-. congruence. }
    rewrite list_lookup_insert_ne in Hm' by done.
    rewrite list_lookup_insert_ne in Hm' by done.
    destruct (decide (i = 0%nat)) as [->|H0].
    { rewrite list_lookup_insert_eq in Hm' by (rewrite !length_insert; lia).
      injection Hm' as <-. congruence. }
    rewrite !list_lookup_insert_ne in Hm' by done. congruence.
  - intros i H0 H2. by rewrite !list_lookup_insert_ne.
Qed.

Lemma merge_keeps_layout_witness :
  (∃ d', merge example_base_model example_state_complete 1 Cpu
         = Ok (example_merged_model, d', 2%nat))
  ∧ length example_merged_model = length example_base_model
  ∧ (3 ≤ length example_base_model)%nat
  ∧ (∀ i m m', example_base_model !! i = Some m → example_merged_model !! i = Some m' →
       skeleton m' = skeleton m)
  ∧ (∀ i, i ≠ 0%nat → i ≠ 2%nat → example_merged_model !! i = example_base_model !! i).
Proof.
  assert (merge example_base_model example_state_complete 1 Cpu
          = Ok (example_merged_model,
                (fun v => cpu (float v)) <$> example_state_complete, 2%nat)) as H
    by by_evaluation.
  split; [by eexists|].
  apply (merge_keeps_layout example_base_model example_merged_model example_state_complete
           _ 1 Cpu 2 H).
Defined.

(** ** Layers below nested target modules *)

(** One step of [merge_state_dict] for a layer without bias that has a
    ['full'] entry: the scaled difference is added into the buffer of the
    weight and the counter advances. *)
Lemma merge_module_full d scale lora_name path root merged child W D diff_b :
  module_at path root = Some child →
  m_weight child = Attr (Some W) → m_bias child = None →
  get_module d lora_name = Ok (FullDiff D diff_b) →
  length (t_data D) = numel (t_shape W) → t_device D = t_device W →
  merge_module d scale lora_name path (root, merged)
  = Ok (update_at path (set_weight (merged_weight W D scale)) root, S merged).
Proof.
  intros Hat Hw Hb Hg Hl Hd. unfold merge_module. rewrite Hat, Hg. cbn [bind].
  unfold getattr_weight. rewrite Hw, Hb. cbn [bind].
  rewrite rebuild_weight_full_no_bias by done. cbn [bind need].
  unfold copy_, fresh. cbn [t_shape t_data t_dtype t_device t_storage].
  rewrite broadcast_shapes_same. cbn [bind]. rewrite !decide_True by done. done.
Qed.

(** X18. A layer that lies below two nested target modules is merged once
    for each of them, under the same key: for a Linear layer below an
    Attention module below a Transformer2DModel, [merge_state_dict] adds the
    scaled difference of a ['full'] entry twice into the weight (which keeps
    its shape, type and buffer) and counts two merged modules. *)
Theorem nested_targets_are_merged_twice (W D : Tensor) (scale : Qc) :
  length (t_data D) = numel (t_shape W) → t_device D = t_device W →
  merge_state_dict scale LORA_PREFIX_UNET (nested_unet W)
    {[ "lora_unet_block_attn_to_q.diff" := D ]}
    UNET_TARGET_REPLACE_MODULE UNET_TARGET_REPLACE_NAME 0
  = Ok (nested_unet (merged_weight (merged_weight W D scale) D scale), 2%nat)
  ∧ t_data (merged_weight (merged_weight W D scale) D scale)
    = zip_with Qcplus (t_data W) ((fun x => x * (scale + scale)) <$> t_data D).
Proof.
  intros Hl Hd. split; [|apply zip_add_scale].
  assert (get_module ({[ "lora_unet_block_attn_to_q.diff" := D ]} : state_dict)
            "lora_unet_block_attn_to_q" = Ok (FullDiff D None)) as Hg
    by (vm_compute; reflexivity).
  unfold merge_state_dict.
  change (named_modules (nested_unet W)) with
    [("", [], nested_unet W);
     ("block", [0%nat],
      Mod "Transformer2DModel" NoAttr None
        [("attn", Mod "Attention" NoAttr None
            [("to_q", Mod "Linear" (Attr (Some W)) None [])])]);
     ("block.attn", [0%nat; 0%nat],
      Mod "Attention" NoAttr None [("to_q", Mod "Linear" (Attr (Some W)) None [])]);
     ("block.attn.to_q", [0%nat; 0%nat; 0%nat], Mod "Linear" (Attr (Some W)) None [])].
  cbn [foldM bind].
  change (is_in (m_class (nested_unet W)) UNET_TARGET_REPLACE_MODULE) with false.
  change (is_in "" UNET_TARGET_REPLACE_NAME) with false. cbn [bind].
  change (is_in (m_class (Mod "Transformer2DModel" _ _ _)) UNET_TARGET_REPLACE_MODULE)
    with true.
  cbv iota.
  change (named_modules (Mod "Transformer2DModel" NoAttr None
            [("attn", Mod "Attention" NoAttr None
                [("to_q", Mod "Linear" (Attr (Some W)) None [])])])) with
    [("", [] : list nat,
      Mod "Transformer2DModel" NoAttr None
        [("attn", Mod "Attention" NoAttr None
            [("to_q", Mod "Linear" (Attr (Some W)) None [])])]);
     ("attn", [0%nat],
      Mod "Attention" NoAttr None [("to_q", Mod "Linear" (Attr (Some W)) None [])]);
     ("attn.to_q", [0%nat; 0%nat], Mod "Linear" (Attr (Some W)) None [])].
  cbn [foldM bind].
  change (is_in (m_class (Mod "Transformer2DModel" _ _ _)) ["Linear"; "Conv2d"]) with false.
  change (is_in (m_class (Mod "Attention" _ _ _)) ["Linear"; "Conv2d"]) with false.
  change (is_in (m_class (Mod "Linear" _ _ _)) ["Linear"; "Conv2d"]) with true.
  cbn [negb bind].
  change (replace_dots (LORA_PREFIX_UNET +:+ "." +:+ "block" +:+ "." +:+ "attn.to_q"))
    with "lora_unet_block_attn_to_q".
  change ([0%nat] ++ [0%nat; 0%nat]) with [0%nat; 0%nat; 0%nat].
  rewrite (merge_module_full _ scale _ _ _ _ (Mod "Linear" (Attr (Some W)) None []) W D None)
    by done.
  cbn [bind].
  change (update_at [0%nat; 0%nat; 0%nat] (set_weight (merged_weight W D scale)) (nested_unet W))
    with (nested_unet (merged_weight W D scale)).
  change (is_in (m_class (Mod "Attention" _ _ _)) UNET_TARGET_REPLACE_MODULE) with true.
  cbv iota.
  change (named_modules (Mod "Attention" NoAttr None
            [("to_q", Mod "Linear" (Attr (Some W)) None [])])) with
    [("", [] : list nat,
      Mod "Attention" NoAttr None [("to_q", Mod "Linear" (Attr (Some W)) None [])]);
     ("to_q", [0%nat], Mod "Linear" (Attr (Some W)) None [])].
  cbn [foldM bind].
  change (is_in (m_class (Mod "Attention" _ _ _)) ["Linear"; "Conv2d"]) with false.
  change (is_in (m_class (Mod "Linear" _ _ _)) ["Linear"; "Conv2d"]) with true.
  cbn [negb bind].
  change (replace_dots (LORA_PREFIX_UNET +:+ "." +:+ "block.attn" +:+ "." +:+ "to_q"))
    with "lora_unet_block_attn_to_q".
  change ([0%nat; 0%nat] ++ [0%nat]) with [0%nat; 0%nat; 0%nat].
  rewrite (merge_module_full _ scale _ _ _ _
             (Mod "Linear" (Attr (Some (merged_weight W D scale))) None [])
             (merged_weight W D scale) D None) by done.
  cbn [bind].
  change (is_in (m_class (Mod "Linear" _ _ _)) UNET_TARGET_REPLACE_MODULE) with false.
  change (is_in "block.attn.to_q" UNET_TARGET_REPLACE_NAME) with false.
  cbv iota. reflexivity.
Qed.

Lemma nested_targets_are_merged_twice_witness :
  let W := param [2; 2]%nat [1; 2; 3; 4]%Z in
  let D := entry Float32 [2; 2]%nat [2; 0; 0; 2]%Z in
  (length (t_data D) = numel (t_shape W) ∧ t_device D = t_device W)
  ∧ merge_state_dict (qfrac 1 2) LORA_PREFIX_UNET (nested_unet W)
      {[ "lora_unet_block_attn_to_q.diff" := D ]}
      UNET_TARGET_REPLACE_MODULE UNET_TARGET_REPLACE_NAME 0
    = Ok (nested_unet (merged_weight (merged_weight W D (qfrac 1 2)) D (qfrac 1 2)), 2%nat)
  ∧ t_data (merged_weight (merged_weight W D (qfrac 1 2)) D (qfrac 1 2))
    = zip_with Qcplus (t_data W) ((fun x => x * (qfrac 1 2 + qfrac 1 2)) <$> t_data D).
Proof.
  intros W D. split; [split; reflexivity|].
  apply (nested_targets_are_merged_twice W D (qfrac 1 2)); reflexivity.
Defined.

(** ** Bundles that are too short *)

Lemma model_slot_short (l : list Module) i : (length l ≤ i)%nat → model_slot l i = Raise IndexError.
Proof. intros H. unfold model_slot. by rewrite lookup_ge_None_2. Qed.

Lemma model_slot_long (l : list Module) i : (i < length l)%nat → ∃ m, model_slot l i = Ok m.
Proof.
  intros H. unfold model_slot. destruct (lookup_lt_is_Some_2 l i H) as [m ->]. by exists m.
Qed.

(** X19. [extract_diff] reads the models out of both bundles before it does
    anything else: the first and the third of a bundle that has not six
    members, the first, the second and the fourth of a bundle of six. A
    bundle that is too short for that makes it raise [IndexError]. *)
Theorem extract_diff_short_bundle (svd : svd_oracle) (mode : string)
    (linear_mode_param conv_mode_param : Qc) (extract_device : device)
    (use_bias : bool) (sparsity : Qc) (small_conv : bool)
    (base_model db_model : list Module) (min_diff : Qc) :
  (length base_model < 3)%nat
  ∨ (length base_model ≠ 6%nat ∧ length db_model < 3)%nat
  ∨ (length base_model = 6%nat ∧ length db_model < 4)%nat →
  extract_diff svd mode linear_mode_param conv_mode_param extract_device use_bias
    sparsity small_conv base_model db_model min_diff = Raise IndexError.
Proof.
  intros H. unfold extract_diff.
  destruct (decide (length base_model = 6%nat)) as [E|E].
  - rewrite bool_decide_eq_true_2 by done.
    destruct H as [H|[[H _]|[_ H]]]; [lia|done|].
    destruct (model_slot_long base_model 0 ltac:(lia)) as [b0 ->].
    destruct (model_slot_long base_model 1 ltac:(lia)) as [b1 ->].
    destruct (model_slot_long base_model 3 ltac:(lia)) as [b2 ->].
    cbn [bind fmap result_fmap].
    destruct (decide (length db_model ≤ 0)%nat); [by rewrite model_slot_short|].
    destruct (model_slot_long db_model 0 ltac:(lia)) as [d0 ->]. cbn [bind].
    destruct (decide (length db_model ≤ 1)%nat); [by rewrite model_slot_short|].
    destruct (model_slot_long db_model 1 ltac:(lia)) as [d1 ->]. cbn [bind fmap result_fmap].
    by rewrite model_slot_short by lia.
  - rewrite bool_decide_eq_false_2 by done.
    destruct (decide (length base_model ≤ 0)%nat); [by rewrite model_slot_short|].
    destruct (model_slot_long base_model 0 ltac:(lia)) as [b0 ->]. cbn [bind].
    destruct (decide (length base_model ≤ 2)%nat); [by rewrite model_slot_short|].
    destruct (model_slot_long base_model 2 ltac:(lia)) as [b2 ->]. cbn [bind].
    destruct H as [H|[[_ H]|[H _]]]; [lia| |done].
    destruct (decide (length db_model ≤ 0)%nat); [by rewrite model_slot_short|].
    destruct (model_slot_long db_model 0 ltac:(lia)) as [d0 ->]. cbn [bind].
    by rewrite model_slot_short by lia.
Qed.

Lemma extract_diff_short_bundle_witness :
  let bundle := [example_text_encoder (param [2; 2]%nat [1; 2; 3; 4]%Z) None; example_vae] in
  ((length bundle < 3)%nat
   ∨ (length bundle ≠ 6%nat ∧ length example_finetuned_bundle < 3)%nat
   ∨ (length bundle = 6%nat ∧ length example_finetuned_bundle < 4)%nat)
  ∧ extract_diff svd_diag "fixed" 1 1 Cpu true (qfrac 1 2) true
      bundle example_finetuned_bundle 0 = Raise IndexError.
Proof.
  intros bundle.
  assert ((length bundle < 3)%nat
          ∨ (length bundle ≠ 6%nat ∧ length example_finetuned_bundle < 3)%nat
          ∨ (length bundle = 6%nat ∧ length example_finetuned_bundle < 4)%nat) as H
    by (left; cbn; lia).
  split; [exact H|].
  apply (extract_diff_short_bundle svd_diag "fixed" 1 1 Cpu true (qfrac 1 2) true
           bundle example_finetuned_bundle 0 H).
Defined.

(** ** Extraction from a model and itself *)

Lemma qabs_nonneg x : 0 ≤ qabs x.
Proof.
  unfold qabs. destruct (qlt x 0) eqn:E.
  - apply qlt_true in E. apply Qclt_le_weak in E.
    apply Qcopp_le_compat in E. by replace (- 0) with 0 in E by ring.
  - apply Qcnot_lt_le. intros H. apply qlt_true in H. congruence.
Qed.

Lemma close_to_itself (d : list Qc) :
  forallb (fun p : Qc * Qc => qle (qabs p.1) (atol + rtol * qabs p.2))
    (zip (zip_with Qcminus d d) d) = true.
Proof.
  induction d as [|x d IH]; [done|]. cbn [zip_with zip forallb fst snd]. rewrite IH.
  rewrite andb_true_r. apply qle_true. replace (x - x) with 0 by ring.
  assert (qabs 0 = 0) as -> by by_evaluation.
  replace 0 with (0 + 0 * qabs x) at 1 by ring.
  apply Qcplus_le_compat; [by_evaluation|].
  apply Qcmult_le_compat_r; [by_evaluation|apply qabs_nonneg].
Qed.

Lemma allclose_same w : allclose w w = Ok true.
Proof.
  unfold allclose. rewrite decide_False by (intros H; by apply H).
  unfold sub. rewrite binop_same by done. cbn [bind fresh t_data t_shape].
  rewrite decide_True by done. f_equal. apply close_to_itself.
Qed.

Lemma extract_lora_same svd mode lp cp dev use_bias sparsity small_conv
    prefix c name child_name loras min_diff :
  has_weight c = true →
  extract_lora svd mode lp cp dev use_bias sparsity small_conv
    prefix c c name child_name loras min_diff = Ok loras.
Proof.
  unfold has_weight, extract_lora, getattr_weight.
  destruct (m_weight c) as [|[w|]]; try done. intros _. cbn [bind operand].
  by rewrite allclose_same.
Qed.

Lemma foldM_unchanged {A B} (f : B → A → result B) l b :
  (∀ a, a ∈ l → f b a = Ok b) → foldM f l b = Ok b.
Proof.
  induction l as [|a l IH]; intros H; [done|]. cbn [foldM].
  rewrite H by (apply elem_of_cons; by left). cbn [bind].
  apply IH. intros a' Ha'. apply H, elem_of_cons. by right.
Qed.

Lemma collect_targets_spec mods names l : ∀ acc,
  (∀ name cm, (foldl (collect_targets mods names) acc l).1 !! name = Some cm →
     acc.1 !! name = Some cm ∨ ∃ p c, (name, p, c) ∈ l ∧ cm = layer_map c)
  ∧ (∀ name c, (foldl (collect_targets mods names) acc l).2 !! name = Some c →
       acc.2 !! name = Some c ∨ ∃ p, (name, p, c) ∈ l).
Proof.
  induction l as [|[[n p] c] l IH]; intros [temp temp_name]; [by split; intros; left|].
  cbn [foldl]. destruct (IH (collect_targets mods names (temp, temp_name) (n, p, c)))
    as [IH1 IH2].
  assert (∀ name cm, (collect_targets mods names (temp, temp_name) (n, p, c)).1 !! name = Some cm →
            temp !! name = Some cm ∨ (name = n ∧ cm = layer_map c)) as H1.
  { intros name cm. unfold collect_targets. destruct (is_in (m_class c) mods); cbn [fst].
    - destruct (decide (n = name)) as [->|Hne].
      + rewrite lookup_insert_eq. intros [= <-]. by right.
      + rewrite lookup_insert_ne by done. by left.
    - destruct (is_in n names); by left. }
  assert (∀ name c', (collect_targets mods names (temp, temp_name) (n, p, c)).2 !! name = Some c' →
            temp_name !! name = Some c' ∨ (name = n ∧ c' = c)) as H2.
  { intros name c'. unfold collect_targets. destruct (is_in (m_class c) mods); cbn [snd].
    - by left.
    - destruct (is_in n names); cbn [snd]; [|by left].
      destruct (decide (n = name)) as [->|Hne].
      + rewrite lookup_insert_eq. intros [= <-]. by right.
      + rewrite lookup_insert_ne by done. by left. }
  split.
  - intros name cm [H|(p' & c' & Hin & ->)]%IH1.
    + apply H1 in H as [H|[-> ->]]; [by left|]. right. exists p, c.
      split; [apply elem_of_cons; by left|done].
    + right. exists p', c'. split; [apply elem_of_cons; by right|done].
  - intros name c' [H|(p' & Hin)]%IH2.
    + apply H2 in H as [H|[-> ->]]; [by left|]. right. exists p. apply elem_of_cons; by left.
    + right. exists p'. apply elem_of_cons; by right.
Qed.

Lemma same_name_same_entry (l : list (string * list nat * Module)) e1 e2 :
  NoDup ((fun e => e.1.1) <$> l) → e1 ∈ l → e2 ∈ l → e1.1.1 = e2.1.1 → e1 = e2.
Proof.
  induction l as [|x l IH]; intros Hnd H1 H2 E; [by apply elem_of_nil in H1|].
  cbn in Hnd. apply NoDup_cons in Hnd as [Hx Hnd].
  apply elem_of_cons in H1 as [->|H1]; apply elem_of_cons in H2 as [->|H2]; try done.
  - exfalso. apply Hx. rewrite E. apply list_elem_of_fmap. by exists e2.
  - exfalso. apply Hx. rewrite <- E. apply list_elem_of_fmap. by exists e1.
  - by apply IH.
Qed.

Lemma layer_map_lookup m cn cp child :
  NoDup (module_names m) → (cn, cp, child) ∈ named_modules m → is_layer child = true →
  layer_map m !! cn = Some child.
Proof.
  intros Hnd Hin Hl. unfold layer_map. apply elem_of_list_to_map_1.
  - rewrite <- list_fmap_compose.
    eapply sublist_NoDup; [exact Hnd|]. unfold module_names.
    apply fmap_sublist. apply sublist_filter.
  - apply list_elem_of_fmap. exists (cn, cp, child). split; [done|].
    apply list_elem_of_filter. by split.
Qed.

Lemma named_modules_root m : ("", [], m) ∈ named_modules m.
Proof. destruct m. unfold named_modules. cbn. apply elem_of_cons. by left. Qed.

Lemma make_state_dict_same svd mode lp cp dev use_bias sparsity small_conv
    prefix m mods names min_diff :
  regular_model m →
  make_state_dict svd mode lp cp dev use_bias sparsity small_conv
    prefix m m mods names min_diff = Ok ∅.
Proof.
  intros Hreg. unfold regular_model in Hreg. rewrite Forall_forall in Hreg.
  destruct (Hreg _ (named_modules_root m)) as [Hnd Hw]. cbn [snd] in Hnd, Hw.
  rewrite Forall_forall in Hw.
  unfold make_state_dict.
  change (foldl _ (∅, ∅) (named_modules m))
    with (foldl (collect_targets mods names) (∅, ∅) (named_modules m)).
  destruct (collect_targets_spec mods names (named_modules m) (∅, ∅)) as [H1 H2].
  destruct (foldl _ _ _) as [temp temp_name]. cbn [fst snd] in H1, H2.
  apply foldM_unchanged. intros [[name path] module] Hin.
  destruct (temp !! name) as [cm|] eqn:Et.
  - destruct (H1 _ _ Et) as [H|(p & c & Hc & ->)]; [by rewrite lookup_empty in H|].
    assert ((name, p, c) = (name, path, module)) as [= -> ->]
      by (by apply (same_name_same_entry (named_modules m))).
    destruct (Hreg _ Hin) as [Hndm Hwm]. cbn [snd] in Hndm, Hwm. rewrite Forall_forall in Hwm.
    apply foldM_unchanged. intros [[cn cpath] child] Hchild.
    destruct (is_layer child) eqn:El; [|done].
    rewrite (layer_map_lookup module cn cpath child) by done.
    apply extract_lora_same. by apply (Hwm _ Hchild).
  - destruct (temp_name !! name) as [c|] eqn:En; [|done].
    destruct (H2 _ _ En) as [H|(p & Hc)]; [by rewrite lookup_empty in H|].
    assert ((name, p, c) = (name, path, module)) as [= -> ->]
      by (by apply (same_name_same_entry (named_modules m))).
    destruct (is_layer module) eqn:El; [|done].
    apply extract_lora_same. by apply (Hw _ Hin).
Qed.

(** X20. The difference of a bundle with itself is empty: when every model
    of a bundle of at least three is regular (distinct names, layers with a
    weight), [extract_diff] applied to the bundle twice returns the empty
    mapping, whatever the mode and the other options. *)
Theorem extract_diff_of_identical_models (svd : svd_oracle) (mode : string)
    (linear_mode_param conv_mode_param : Qc) (extract_device : device)
    (use_bias : bool) (sparsity : Qc) (small_conv : bool)
    (base_model : list Module) (min_diff : Qc) :
  (3 ≤ length base_model)%nat → Forall regular_model base_model →
  extract_diff svd mode linear_mode_param conv_mode_param extract_device use_bias
    sparsity small_conv base_model base_model min_diff = Ok ∅.
Proof.
  intros Hlen Hreg. rewrite Forall_forall in Hreg.
  assert (∀ i m, model_slot base_model i = Ok m → regular_model m) as Hslot.
  { intros i m. unfold model_slot. destruct (base_model !! i) as [m'|] eqn:E; [|done].
    intros [= <-]. apply Hreg. by eapply list_elem_of_lookup_2. }
  unfold extract_diff.
  destruct (model_slot_long base_model 0 ltac:(lia)) as [b0 E0]. rewrite E0. cbn [bind].
  destruct (bool_decide (length base_model = 6%nat)) eqn:Ex.
  - apply bool_decide_eq_true in Ex.
    destruct (model_slot_long base_model 1 ltac:(lia)) as [b1 E1]. rewrite E1.
    destruct (model_slot_long base_model 3 ltac:(lia)) as [b3 E3]. rewrite E3.
    cbn [bind fmap result_fmap].
    rewrite !make_state_dict_same by eauto. cbn [bind].
    by rewrite !(left_id_L ∅ (∪)).
  - destruct (model_slot_long base_model 2 ltac:(lia)) as [b2 E2]. rewrite E2.
    cbn [bind].
    rewrite !make_state_dict_same by eauto. cbn [bind].
    by rewrite !(left_id_L ∅ (∪)).
Qed.

Lemma extract_diff_of_identical_models_witness :
  (3 ≤ length example_finetuned_bundle)%nat
  ∧ Forall regular_model example_finetuned_bundle
  ∧ extract_diff svd_diag "ratio" (qfrac 1 2) (qfrac 1 2) Cpu true (qfrac 1 2) true
      example_finetuned_bundle example_finetuned_bundle 0 = Ok ∅.
Proof.
  assert (Forall regular_model example_finetuned_bundle) as H by by_evaluation.
  split; [cbn; lia|]. split; [exact H|].
  apply (extract_diff_of_identical_models svd_diag "ratio" (qfrac 1 2) (qfrac 1 2) Cpu true
           (qfrac 1 2) true example_finetuned_bundle 0); [cbn; lia|exact H].
Defined.

(** ** The round trip of a layer kept in full *)

Lemma extract_linear_full_inv svd weight mode mode_param dev w :
  extract_linear svd weight mode mode_param dev = Ok (Full w) →
  w = cpu (to_device dev (float weight)).
Proof.
  unfold extract_linear.
  destruct (t_shape _) as [|o [|i [|]]]; try done.
  destruct (linalg_svd _ _) as [[[U Sg] Vh]|]; cbn [bind]; [|done].
  destruct (select_rank _ _ _) as [r|]; cbn [bind]; [|done].
  destruct (rank_is_full _ _); [by intros [= <-]|].
  bind_cases; discriminate.
Qed.

Lemma extract_conv_full_inv svd weight mode mode_param dev is_cp w :
  extract_conv svd weight mode mode_param dev is_cp = Ok (Full w) →
  w = cpu (to_device dev (float weight)).
Proof.
  unfold extract_conv.
  destruct (t_shape _) as [|o [|i [|k [|k' [|]]]]]; try done.
  destruct (reshape _ _) as [w2|]; cbn [bind]; [|done].
  destruct (linalg_svd _ _) as [[[U Sg] Vh]|]; cbn [bind]; [|done].
  destruct (select_rank _ _ _) as [r|]; cbn [bind]; [|done].
  destruct (_ && _); [by intros [= <-]|].
  bind_cases; discriminate.
Qed.

Lemma zip_add_sub (t b : list Qc) :
  length t = length b →
  zip_with Qcplus b ((fun x => x * 1) <$> zip_with Qcminus t b) = t.
Proof.
  revert b. induction t as [|x t IH]; intros [|y b] H; cbn in *; try done.
  rewrite IH by lia. f_equal. ring.
Qed.

Lemma integer_binary_float (p kmin kmax z : Z) :
  (Z.abs z < 2 ^ p)%Z → (kmin ≤ 0 ≤ kmax)%Z → binary_float p kmin kmax (qz z).
Proof.
  intros Hz Hk. exists z, 0%Z. split; [done|]. split; [done|].
  unfold pow2. cbn [Z.leb Z.compare]. change (2 ^ 0)%Z with 1%Z.
  assert (qz 1 = 1) as -> by (by apply Qc_is_canon). ring.
Qed.

(** X21. A layer that the extraction keeps in full comes back exactly when
    half precision holds its difference: when [extract_linear] or
    [extract_conv] returns ['full'] for the difference of a fine-tuned and a
    base weight and every element of the returned tensor is representable
    in [float16] (the type in which [extract_lora] stores it; the cast
    rounds the other elements), merging the stored tensor into the base
    weight (on the CPU, without bias) as a ['full'] entry with scale 1 gives
    the elements of the fine-tuned weight (in exact arithmetic). *)
Theorem full_round_trip (svd : svd_oracle) (mode : string) (mode_param : Qc)
    (dev : device) (is_cp : bool) (tuned base diff w : Tensor) :
  t_shape tuned = t_shape base → wf tuned → wf base → t_device base = Cpu →
  sub tuned base = Ok diff →
  extract_linear svd diff mode mode_param dev = Ok (Full w)
  ∨ extract_conv svd diff mode mode_param dev is_cp = Ok (Full w) →
  Forall (representable Float16) (t_data w) →
  ∃ M,
    rebuild_weight (FullDiff (half (contiguous (cpu (detach w)))) None) (Some base) None 1
    = Ok (Some M, None)
    ∧ t_shape M = t_shape base ∧ t_data M = t_data tuned.
Proof.
  intros Hs Wt Wb Db Hsub Hfull _.
  assert (t_device tuned = t_device base) as Hd.
  { unfold sub, binop in Hsub. by case_decide. }
  unfold sub in Hsub. rewrite binop_same in Hsub by done. injection Hsub as <-.
  assert (w = cpu (to_device dev (float
            (fresh (promote (t_dtype tuned) (t_dtype base)) (t_device tuned) (t_shape tuned)
               (zip_with Qcminus (t_data tuned) (t_data base)))))) as ->.
  { destruct Hfull as [H|H];
      [by apply extract_linear_full_inv in H|by apply extract_conv_full_inv in H]. }
  unfold wf in Wt, Wb.
  rewrite rebuild_weight_full_no_bias.
  - eexists. split; [reflexivity|]. unfold fresh. cbn [t_shape t_data]. split; [done|].
    unfold half, contiguous, cpu, detach, float. autorewrite with tensor. cbn [t_data].
    apply zip_add_sub. congruence.
  - unfold half, contiguous, cpu, detach, float, fresh. autorewrite with tensor.
    cbn [t_data]. rewrite length_zip_with. rewrite Wt, Wb, Hs. lia.
  - unfold half, contiguous, cpu, detach, float. autorewrite with tensor. done.
Qed.

Lemma full_round_trip_witness :
  let tuned := param [2; 2]%nat [2; 2; 3; 5]%Z in
  let base := param [2; 2]%nat [1; 2; 3; 4]%Z in
  ∃ diff w,
    sub tuned base = Ok diff
    ∧ extract_linear svd_diag diff "fixed" 1 Cpu = Ok (Full w)
    ∧ Forall (representable Float16) (t_data w)
    ∧ ∃ M,
        rebuild_weight (FullDiff (half (contiguous (cpu (detach w)))) None) (Some base) None 1
        = Ok (Some M, None)
        ∧ t_shape M = t_shape base ∧ t_data M = t_data tuned.
Proof.
  intros tuned base.
  exists (fresh Float32 Cpu [2; 2]%nat (qz <$> [1; 0; 0; 1]%Z)).
  exists (fresh Float32 Cpu [2; 2]%nat (qz <$> [1; 0; 0; 1]%Z)).
  assert (sub tuned base = Ok (fresh Float32 Cpu [2; 2]%nat (qz <$> [1; 0; 0; 1]%Z))) as Hs
    by by_evaluation.
  assert (extract_linear svd_diag (fresh Float32 Cpu [2; 2]%nat (qz <$> [1; 0; 0; 1]%Z))
            "fixed" 1 Cpu
          = Ok (Full (fresh Float32 Cpu [2; 2]%nat (qz <$> [1; 0; 0; 1]%Z)))) as He
    by by_evaluation.
  assert (Forall (representable Float16)
            (t_data (fresh Float32 Cpu [2; 2]%nat (qz <$> [1; 0; 0; 1]%Z)))) as Hr
    by (repeat constructor; apply integer_binary_float; lia).
  split; [exact Hs|]. split; [exact He|]. split; [exact Hr|].
  apply (full_round_trip svd_diag "fixed" 1 Cpu false tuned base
           (fresh Float32 Cpu [2; 2]%nat (qz <$> [1; 0; 0; 1]%Z))
           (fresh Float32 Cpu [2; 2]%nat (qz <$> [1; 0; 0; 1]%Z)));
    [reflexivity|reflexivity|reflexivity|reflexivity|exact Hs|left; exact He|exact Hr].
Defined.

(** ** Reconstruction of the ['hada'] and ['ia3'] kinds *)

Lemma rescale_one scale al r :
  t_shape al = [1%nat] → length (t_data al) = 1%nat → (1 ≤ r)%nat →
  rescale (Num scale) al r
  = Ok (Ten (fresh (if is_floating (t_dtype al) then t_dtype al else Float32) (t_device al)
               [1%nat] [tget al [0%nat] / qn r * scale])).
Proof.
  intros Hs Hl Hr. unfold rescale, div_int. rewrite decide_False by lia.
  destruct (t_data al) as [|a [|]] eqn:Ea; try done.
  assert (tget al [0%nat] = a) as -> by (unfold tget; by rewrite Hs, Ea).
  cbn [bind]. unfold mul_number, map_tensor, fresh. rewrite Hs. by cbn.
Qed.

Lemma add_scaled_num W R s :
  length (t_data R) = numel (t_shape W) → t_device R = t_device W →
  add_scaled W R (Num s)
  = Ok (fresh (promote (t_dtype W) (t_dtype R)) (t_device W) (t_shape W)
          (zip_with Qcplus (t_data W) ((fun x => x * s) <$> t_data R))).
Proof.
  intros Hl Hd. unfold add_scaled. rewrite reshape_zshape by done. cbn [bind times].
  unfold mul_number, map_tensor, add. rewrite binop_same by (unfold fresh; cbn; congruence).
  done.
Qed.

Lemma add_scaled_ten W R dt c :
  t_shape W ≠ [] → length (t_data R) = numel (t_shape W) → t_device R = t_device W →
  add_scaled W R (Ten (fresh dt (t_device W) [1%nat] [c]))
  = Ok (fresh (promote (t_dtype W) (promote (t_dtype R) dt)) (t_device W) (t_shape W)
          (zip_with Qcplus (t_data W) ((fun x => x * c) <$> t_data R))).
Proof.
  intros Hs Hl Hd. unfold add_scaled. rewrite reshape_zshape by done. cbn [bind times].
  set (Rv := mkTensor (t_storage R) (t_dtype R) (t_device R) (t_shape W) (t_data R)).
  rewrite <- Hd. change (t_device R) with (t_device Rv) at 1.
  rewrite mul_scalar; [|unfold wf, Rv; cbn [t_data t_shape]; congruence|exact Hs].
  cbn [bind]. unfold add. rewrite binop_same by (unfold Rv, fresh; cbn; congruence).
  unfold fresh, Rv. cbn. by rewrite Hd.
Qed.

(** X22. The ['hada'] kind without the factors [t1] and [t2]: the merged
    weight is [orig_weight + factor * ((w1a @ w1b) * (w2a @ w2b))], the
    product of the two matrix products taken element by element and reshaped
    to the weight; [factor] is [scale] when there is no [alpha], and
    [alpha / w1b.size(0) * scale] for a one-element [alpha]. *)
Theorem rebuild_weight_hada_formula (w1a w1b w2a w2b W R1 R2 : Tensor)
    (bias alpha : option Tensor) (scale : Qc) (m n r : nat) (rest : list nat) :
  matmul w1a w1b = Ok R1 → matmul w2a w2b = Ok R2 →
  t_shape R1 = [m; n] → t_shape R2 = [m; n] → t_device R1 = t_device R2 →
  length (t_data R1) = (m * n)%nat → length (t_data R2) = (m * n)%nat →
  t_shape w1b = r :: rest → (1 ≤ r)%nat →
  t_shape W ≠ [] → numel (t_shape W) = (m * n)%nat → t_device W = t_device R1 →
  (∀ al, alpha = Some al →
     t_shape al = [1%nat] ∧ length (t_data al) = 1%nat ∧ t_device al = t_device W) →
  let factor := match alpha with
                | Some al => tget al [0%nat] / qn r * scale
                | None => scale
                end in
  ∃ M, rebuild_weight (Hada w1a w1b w2a w2b None None alpha) (Some W) bias scale
       = Ok (Some M, bias)
     ∧ t_shape M = t_shape W
     ∧ t_data M = zip_with Qcplus (t_data W)
                    ((fun x => x * factor) <$> zip_with Qcmult (t_data R1) (t_data R2)).
Proof.
  intros H1 H2 Hs1 Hs2 Hd12 Hl1 Hl2 Hb Hr HW NW DW Hal factor.
  assert (mul R1 R2 = Ok (fresh (promote (t_dtype R1) (t_dtype R2)) (t_device R1) (t_shape R1)
                            (zip_with Qcmult (t_data R1) (t_data R2)))) as Hmul.
  { unfold mul. apply binop_same; congruence. }
  unfold rebuild_weight. destruct alpha as [al|].
  - destruct (Hal al eq_refl) as (Has & Hall & Had).
    unfold size at 1. rewrite Hb. cbn [lookup list_lookup bind].
    rewrite rescale_one by done. cbn [bind]. rewrite H1, H2. cbn [bind].
    rewrite Hmul. cbn [bind]. rewrite Had.
    rewrite add_scaled_ten; [| done | | ].
    + cbn [bind]. eexists. split; [reflexivity|]. done.
    + unfold fresh. cbn [t_data]. rewrite length_zip_with. lia.
    + unfold fresh. cbn. done.
  - cbn [bind]. rewrite H1, H2. cbn [bind]. rewrite Hmul. cbn [bind].
    rewrite add_scaled_num.
    + cbn [bind]. eexists. split; [reflexivity|]. done.
    + unfold fresh. cbn [t_data]. rewrite length_zip_with. lia.
    + unfold fresh. cbn. done.
Qed.

Lemma rebuild_weight_hada_formula_witness :
  let w1a := entry Float32 [2; 1]%nat [1; 2]%Z in
  let w1b := entry Float32 [1; 2]%nat [3; 4]%Z in
  let w2a := entry Float32 [2; 1]%nat [1; 1]%Z in
  let w2b := entry Float32 [1; 2]%nat [2; 0]%Z in
  let W := param [2; 2]%nat [1; 2; 3; 4]%Z in
  let alpha := entry Float32 [1]%nat [2]%Z in
  ∃ R1 R2 M,
    matmul w1a w1b = Ok R1 ∧ matmul w2a w2b = Ok R2
    ∧ rebuild_weight (Hada w1a w1b w2a w2b None None (Some alpha)) (Some W) None (qfrac 1 2)
      = Ok (Some M, None)
    ∧ t_shape M = t_shape W
    ∧ t_data M = zip_with Qcplus (t_data W)
                   ((fun x => x * (tget alpha [0%nat] / qn 1 * qfrac 1 2))
                      <$> zip_with Qcmult (t_data R1) (t_data R2)).
Proof.
  intros w1a w1b w2a w2b W alpha.
  exists (fresh Float32 Cpu [2; 2]%nat (qz <$> [3; 4; 6; 8]%Z)).
  exists (fresh Float32 Cpu [2; 2]%nat (qz <$> [2; 0; 2; 0]%Z)).
  assert (matmul w1a w1b = Ok (fresh Float32 Cpu [2; 2]%nat (qz <$> [3; 4; 6; 8]%Z))) as H1
    by by_evaluation.
  assert (matmul w2a w2b = Ok (fresh Float32 Cpu [2; 2]%nat (qz <$> [2; 0; 2; 0]%Z))) as H2
    by by_evaluation.
  destruct (rebuild_weight_hada_formula w1a w1b w2a w2b W _ _ None (Some alpha) (qfrac 1 2)
              2 2 1 [2%nat] H1 H2) as (M & HM & Hsh & Hd);
    [reflexivity|reflexivity|reflexivity|reflexivity|reflexivity|reflexivity|lia|
     discriminate|reflexivity|reflexivity| |].
  - intros al [= <-]. by_evaluation.
  - exists M. by repeat split.
Defined.

Lemma broadcast_col m n : broadcast_shapes [m; 1%nat] [m; n] = Ok [m; n].
Proof.
  unfold broadcast_shapes. change (reverse [m; 1%nat]) with [1%nat; m].
  change (reverse [m; n]) with [n; m]. cbn [broadcast_rev bind].
  rewrite (decide_True (P := m = m)) by done. cbn [bind].
  destruct (decide (1%nat = n)) as [<-|Hn]; [done|].
  rewrite decide_True by done. done.
Qed.

Lemma infer_shape_col n : infer_shape n [(-1)%Z; 1%Z] = Ok [n; 1%nat].
Proof.
  unfold infer_shape.
  change (filter _ [(-1)%Z; 1%Z]) with [1%Z].
  change (bool_decide (Exists _ [(-1)%Z; 1%Z])) with false.
  cbn [length Nat.sub numel fold_right fmap list_fmap].
  change (Z.to_nat 1 * 1)%nat with 1%nat.
  rewrite decide_False by lia. rewrite Nat.mod_1_r, decide_True by done.
  change (bool_decide ((-1)%Z = (-1)%Z)) with true.
  change (bool_decide (1%Z = (-1)%Z)) with false.
  cbv iota. by rewrite Nat.div_1_r.
Qed.

Lemma nth_fmap_lt (f : Qc → Qc) (l : list Qc) i :
  (i < length l)%nat → nth i (f <$> l) 0 = f (nth i l 0).
Proof.
  intros H. destruct (lookup_lt_is_Some_2 l i H) as [x Hx].
  rewrite (nth_lookup_Some _ _ _ x Hx).
  apply nth_lookup_Some. by rewrite list_lookup_fmap, Hx.
Qed.

(** X23. The ['ia3'] kind without [on_input]: the learned vector is read as
    a column, so that for a weight of shape [m, n] and a vector of [m]
    elements every row of the weight is rescaled by its own element:
    merged[i, j] = weight[i, j] + vector[i] * weight[i, j] * scale. The
    change is relative to the weight itself, unlike in the other kinds. *)
Theorem rebuild_weight_ia3_formula (weight W : Tensor) (bias : option Tensor)
    (scale : Qc) (m n : nat) :
  t_shape W = [m; n] → wf W → length (t_data weight) = m → (1 ≤ m)%nat →
  t_device weight = t_device W →
  ∃ M, rebuild_weight (Ia3 weight None) (Some W) bias scale = Ok (Some M, bias)
     ∧ t_shape M = [m; n]
     ∧ ∀ i j, (i < m)%nat → (j < n)%nat →
         tget M [i; j]
         = tget W [i; j] + nth i (t_data weight) 0 * tget W [i; j] * scale.
Proof.
  intros HW WW Hl Hm Hd. unfold rebuild_weight. cbn [truthy bind].
  assert (reshape weight [(-1)%Z; 1%Z]
          = Ok (mkTensor (t_storage weight) (t_dtype weight) (t_device weight)
                  [m; 1%nat] (t_data weight))) as ->.
  { unfold reshape. by rewrite Hl, infer_shape_col. }
  cbn [bind]. unfold mul, binop. cbn [t_device t_shape t_dtype t_data].
  rewrite decide_True by done. rewrite HW, broadcast_col. cbn [bind times].
  unfold mul_number, map_tensor, add.
  rewrite binop_same by (unfold fresh; cbn; congruence). cbn [bind].
  eexists. split; [reflexivity|]. unfold fresh. cbn [t_shape t_data t_dtype t_device].
  split; [done|]. intros i j Hi Hj.
  unfold wf in WW. rewrite HW in WW. cbn [numel fold_right] in WW. rewrite Nat.mul_1_r in WW.
  assert (flat_index [m; n] [i; j] < m * n)%nat as Hlt.
  { pose proof (flat_index_lt [m; n] [i; j]) as Hf. cbn [numel fold_right] in Hf.
    rewrite Nat.mul_1_r in Hf. apply Hf. by apply valid_index_2. }
  unfold tget at 1. cbn [t_shape t_data]. rewrite HW.
  set (P := if decide ([m; 1%nat] = [m; n]) then _ else _).
  assert (length P = (m * n)%nat) as HP.
  { unfold P. case_decide as E.
    - injection E as <-. rewrite length_zip_with. lia.
    - rewrite length_mk. cbn. lia. }
  rewrite nth_zip_with by (rewrite ?length_fmap; lia).
  rewrite nth_fmap_lt by lia.
  change (nth (flat_index [m; n] [i; j]) (t_data W) 0) with
    (nth (flat_index (t_shape W) [i; j]) (t_data W) 0) at 1 || idtac.
  assert (nth (flat_index [m; n] [i; j]) (t_data W) 0 = tget W [i; j]) as ->
    by (unfold tget; by rewrite HW).
  f_equal. f_equal. unfold P. case_decide as E.
  - injection E as <-. assert (j = 0%nat) as -> by lia.
    assert (flat_index [m; 1%nat] [i; 0%nat] = i) as Hfi by (cbn; lia).
    rewrite Hfi in *. rewrite nth_zip_with by lia. f_equal.
    unfold tget. by rewrite HW, Hfi.
  - rewrite nth_mk by by apply valid_index_2. f_equal.
    + unfold bget, tget. cbn [t_shape t_data length Nat.sub drop zip_with].
      case_decide as E1.
      * subst m. assert (i = 0%nat) as -> by lia. done.
      * cbn [flat_index numel fold_right]. f_equal.
        rewrite (decide_True (P := 1%nat = 1%nat)) by done. lia.
    + apply bget_self. rewrite HW. by apply valid_index_2.
Qed.

Lemma rebuild_weight_ia3_formula_witness :
  let weight := entry Float32 [2]%nat [1; 2]%Z in
  let W := param [2; 3]%nat [1; 2; 3; 4; 5; 6]%Z in
  (t_shape W = [2; 3]%nat ∧ wf W ∧ length (t_data weight) = 2%nat
   ∧ t_device weight = t_device W)
  ∧ ∃ M, rebuild_weight (Ia3 weight None) (Some W) None (qfrac 1 2) = Ok (Some M, None)
       ∧ t_shape M = [2; 3]%nat
       ∧ ∀ i j, (i < 2)%nat → (j < 3)%nat →
           tget M [i; j]
           = tget W [i; j] + nth i (t_data weight) 0 * tget W [i; j] * qfrac 1 2.
Proof.
  intros weight W. split; [repeat split; reflexivity|].
  apply (rebuild_weight_ia3_formula weight W None (qfrac 1 2) 2 3);
    [reflexivity|reflexivity|reflexivity|lia|reflexivity].
Defined.
